(** * hearsay/pdf.py: the text reconstruction pipeline

    A shallow embedding of [src/hearsay/pdf.py] (page filter, boilerplate
    stripper, line classifier, line rejoiner, whitespace normaliser; raw
    extraction, figures, statistics and file names) with the properties
    the specification states about it and further properties of the code.

    Python [str] values are sequences of Unicode code points; they are
    modelled as [list N].  The part of Python's [re] module that the
    patterns of the file use is modelled by a backtracking matcher. *)

From Stdlib Require Import List NArith ZArith Ascii String Bool Arith Lia.
From Stdlib Require Import DecimalString DecimalNat.
Import ListNotations.

(** ** Python strings *)

Module PyStr.

Definition char := N.
Definition str := list char.

Local Open Scope N_scope.

Definition in_range (lo hi c : char) : bool := (lo <=? c) && (c <=? hi).

Definition is_ascii (c : char) : bool := c <? 128.
Definition ascii_isupper (c : char) : bool := in_range 65 90 c.
Definition ascii_islower (c : char) : bool := in_range 97 122 c.
Definition ascii_isdigit (c : char) : bool := in_range 48 57 c.
Definition ascii_isalnum (c : char) : bool :=
  ascii_isupper c || ascii_islower c || ascii_isdigit c.
Definition ascii_lower (c : char) : char := if ascii_isupper c then c + 32 else c.
Definition ascii_upper (c : char) : char := if ascii_islower c then c - 32 else c.

(** [str.isspace] on one code point, which is also what [str.strip],
    [str.split] and the pattern [\s] use: the characters of bidirectional
    type WS, B or S and of category Zs. *)
Definition isspace (c : char) : bool :=
  in_range 9 13 c || in_range 28 31 c || (c =? 32) || (c =? 133) || (c =? 160)
  || (c =? 5760) || in_range 8192 8202 c || (c =? 8232) || (c =? 8233)
  || (c =? 8239) || (c =? 8287) || (c =? 12288).

(** The rest of the Unicode character database is not part of the
    repository.  Below U+0080 the classification is written out; above it
    is read from a table the development is parametric in. *)
Record unicode_tables := {
  uni_islower : char -> bool;    (* Py_UNICODE_ISLOWER *)
  uni_isupper : char -> bool;    (* Py_UNICODE_ISUPPER *)
  uni_istitle : char -> bool;    (* Py_UNICODE_ISTITLE *)
  uni_isdecimal : char -> bool;  (* category Nd, the pattern \d *)
  uni_isalnum : char -> bool;    (* Py_UNICODE_ISALNUM, the pattern \w *)
  uni_lower : str -> str         (* str.lower on a string that is not ASCII *)
}.

(** A table for text without cased letters or digits above U+007F. *)
Definition ascii_tables : unicode_tables :=
  {| uni_islower := fun _ => false; uni_isupper := fun _ => false;
     uni_istitle := fun _ => false; uni_isdecimal := fun _ => false;
     uni_isalnum := fun _ => false; uni_lower := fun s => s |}.

Definition NL : char := 10.
Definition CR : char := 13.
Definition TAB : char := 9.
Definition SP : char := 32.

(** String literals: [py "a\nb"] reads the escapes [\n], [\t], [\r] and
    [\\] as Python does in a normal string literal. *)
Fixpoint py_chars (l : list ascii) : str :=
  match l with
  | [] => []
  | a :: l' =>
      if Ascii.eqb a "\"%char then
        match l' with
        | b :: l'' =>
            if Ascii.eqb b "n"%char then NL :: py_chars l''
            else if Ascii.eqb b "t"%char then TAB :: py_chars l''
            else if Ascii.eqb b "r"%char then CR :: py_chars l''
            else if Ascii.eqb b "\"%char then N_of_ascii a :: py_chars l''
            else N_of_ascii a :: py_chars l'
        | [] => [N_of_ascii a]
        end
      else N_of_ascii a :: py_chars l'
  end.

Definition py (s : string) : str := py_chars (list_ascii_of_string s).

Definition str_eqb (a b : str) : bool :=
  if list_eq_dec N.eq_dec a b then true else false.

(** [s.startswith(p)] and [s.endswith(p)] *)
Fixpoint startswith (s p : str) : bool :=
  match p, s with
  | [], _ => true
  | _ :: _, [] => false
  | x :: p', c :: s' => (c =? x) && startswith s' p'
  end.

Definition endswith (s p : str) : bool := startswith (rev s) (rev p).

(** [s.lstrip()], [s.rstrip()], [s.strip()] *)
Fixpoint lstrip (s : str) : str :=
  match s with
  | [] => []
  | c :: s' => if isspace c then lstrip s' else s
  end.

Fixpoint rstrip (s : str) : str :=
  match s with
  | [] => []
  | c :: s' =>
      match rstrip s' with
      | [] => if isspace c then [] else [c]
      | r => c :: r
      end
  end.

Definition strip (s : str) : str := rstrip (lstrip s).

(** [s.rstrip(chars)] *)
Fixpoint rstrip_chars (chars : str) (s : str) : str :=
  match s with
  | [] => []
  | c :: s' =>
      match rstrip_chars chars s' with
      | [] => if existsb (N.eqb c) chars then [] else [c]
      | r => c :: r
      end
  end.

(** [s.split(sep)] for a separator of one character: never empty. *)
Fixpoint split_on (sep : char) (s : str) : list str :=
  match s with
  | [] => [[]]
  | c :: s' =>
      if c =? sep then [] :: split_on sep s'
      else match split_on sep s' with
           | l :: ls => (c :: l) :: ls
           | [] => [[c]]
           end
  end.

(** [s.split()]: the maximal runs of characters that are not whitespace. *)
Fixpoint split_ws_from (word : str) (s : str) : list str :=
  match s with
  | [] => match word with [] => [] | _ => [rev word] end
  | c :: s' =>
      if isspace c then
        match word with
        | [] => split_ws_from [] s'
        | _ => rev word :: split_ws_from [] s'
        end
      else split_ws_from (c :: word) s'
  end.

Definition split_ws (s : str) : list str := split_ws_from [] s.

(** [sep.join(parts)] *)
Fixpoint join (sep : str) (parts : list str) : str :=
  match parts with
  | [] => []
  | [p] => p
  | p :: ps => p ++ sep ++ join sep ps
  end.

(** [s.replace(old, new)] with [old] not empty: the occurrences of [old],
    leftmost first and not overlapping.  [skip] counts the characters of
    an occurrence still to be passed over. *)
Fixpoint replace_from (old new : str) (skip : nat) (s : str) : str :=
  match s with
  | [] => []
  | c :: s' =>
      match skip with
      | S k => replace_from old new k s'
      | O =>
          if startswith s old
          then new ++ replace_from old new (Nat.pred (List.length old)) s'
          else c :: replace_from old new O s'
      end
  end.

Definition replace (s old new : str) : str := replace_from old new O s.

(** [s.lstrip(chars)] and [s.strip(chars)] *)
Fixpoint lstrip_chars (chars : str) (s : str) : str :=
  match s with
  | [] => []
  | c :: s' => if existsb (N.eqb c) chars then lstrip_chars chars s' else s
  end.

Definition strip_chars (chars : str) (s : str) : str :=
  rstrip_chars chars (lstrip_chars chars s).

(** [s[:n]] for an int [n]: a negative [n] counts from the end. *)
Definition slice_to (n : Z) (s : str) : str :=
  if (0 <=? n)%Z then firstn (Z.to_nat n) s
  else firstn (List.length s - Z.to_nat (- n)) s.

(** [s.count(sub)] with [sub] not empty: the occurrences of [sub],
    leftmost first and not overlapping. *)
Fixpoint count_from (sub : str) (skip : nat) (s : str) : nat :=
  match s with
  | [] => O
  | c :: s' =>
      match skip with
      | S k => count_from sub k s'
      | O =>
          if startswith s sub
          then S (count_from sub (Nat.pred (List.length sub)) s')
          else count_from sub O s'
      end
  end.

Definition count (s sub : str) : nat := count_from sub O s.

(** [str(n)] for an int that is not negative *)
Definition decimal (n : nat) : str :=
  map N_of_ascii (list_ascii_of_string (NilEmpty.string_of_uint (Nat.to_uint n))).

Section Cased.
Variable U : unicode_tables.

Definition ch_islower (c : char) : bool :=
  if is_ascii c then ascii_islower c else uni_islower U c.
Definition ch_isupper (c : char) : bool :=
  if is_ascii c then ascii_isupper c else uni_isupper U c.
Definition ch_istitle (c : char) : bool :=
  if is_ascii c then false else uni_istitle U c.
Definition ch_isdecimal (c : char) : bool :=
  if is_ascii c then ascii_isdigit c else uni_isdecimal U c.
Definition ch_isalnum (c : char) : bool :=
  if is_ascii c then ascii_isalnum c else uni_isalnum U c.

(** [s.isupper()]: no lower-case or title-case character and at least one
    upper-case one; a string of one character is upper when that
    character is. *)
Fixpoint isupper_from (cased : bool) (s : str) : bool :=
  match s with
  | [] => cased
  | c :: s' =>
      if ch_islower c || ch_istitle c then false
      else isupper_from (cased || ch_isupper c) s'
  end.

Definition isupper (s : str) : bool :=
  match s with
  | [c] => ch_isupper c
  | _ => isupper_from false s
  end.

(** [s.lower()] *)
Definition lower (s : str) : str :=
  if forallb is_ascii s then map ascii_lower s else uni_lower U s.

End Cased.

End PyStr.

(** ** Python's [re] module, as far as the patterns of pdf.py use it *)

Module Re.
Import PyStr.
Local Open Scope N_scope.

(** The flags of [re.search] and [re.sub] that pdf.py passes. *)
Record flags := { IGNORECASE : bool; MULTILINE : bool; DOTALL : bool }.

Definition NOFLAG : flags :=
  {| IGNORECASE := false; MULTILINE := false; DOTALL := false |}.
Definition I : flags :=
  {| IGNORECASE := true; MULTILINE := false; DOTALL := false |}.
Definition M : flags :=
  {| IGNORECASE := false; MULTILINE := true; DOTALL := false |}.
Definition MSI : flags :=
  {| IGNORECASE := true; MULTILINE := true; DOTALL := true |}.

(** One member of a character set. *)
Inductive citem :=
| Ch (c : char)        (* the character itself *)
| Rng (lo hi : char)   (* lo-hi *)
| Dot                  (* .  *)
| Digit                (* \d *)
| Space                (* \s *)
| NotSpace             (* \S *)
| Word.                (* \w *)

Definition cset := list citem.

(** The subset of the pattern language in use: every quantifier of the
    file's patterns applies to a single character or character set. *)
Inductive regex :=
| Eps
| Chr (c : cset)
| Rep (c : cset) (lo : nat) (hi : option nat) (greedy : bool)
| Seq (r1 r2 : regex)
| Alt (r1 r2 : regex)
| Look (r : regex)     (* (?=r) *)
| Bol                  (* ^  *)
| Eol                  (* $  *)
| WordB.               (* \b *)

(** Case folding of [re.IGNORECASE] for a pattern of ASCII characters:
    the two cases of the 26 letters, and the four letters outside ASCII
    whose folding is an ASCII letter (U+0130 and U+0131 with i, U+017F
    with s, U+212A with k). *)
Definition ci_fold (c : char) : char :=
  if ascii_isupper c then c + 32
  else if (c =? 304) || (c =? 305) then 105
  else if c =? 383 then 115
  else if c =? 8490 then 107
  else c.

Section Matcher.
Variable U : unicode_tables.
Variable f : flags.

Definition is_word (x : char) : bool := ch_isalnum U x || (x =? 95).

Definition item_match (i : citem) (x : char) : bool :=
  match i with
  | Ch c => if IGNORECASE f then ci_fold x =? ci_fold c else x =? c
  | Rng lo hi =>
      if IGNORECASE f
      then in_range lo hi (ci_fold x) || in_range lo hi (ascii_upper (ci_fold x))
      else in_range lo hi x
  | Dot => DOTALL f || negb (x =? NL)
  | Digit => ch_isdecimal U x
  | Space => isspace x
  | NotSpace => negb (isspace x)
  | Word => is_word x
  end.

Definition set_match (cs : cset) (x : char) : bool :=
  existsb (fun i => item_match i x) cs.

(** [^]: at the start, and with MULTILINE after every newline. *)
Definition at_bol (prev : str) : bool :=
  match prev with
  | [] => true
  | c :: _ => MULTILINE f && (c =? NL)
  end.

(** [$]: at the end and before a newline that ends the string; with
    MULTILINE before every newline. *)
Definition at_eol (s : str) : bool :=
  match s with
  | [] => true
  | c :: s' => (c =? NL) && (MULTILINE f || match s' with [] => true | _ => false end)
  end.

(** [\b]: exactly one of the two neighbours is a word character. *)
Definition at_wordb (prev s : str) : bool :=
  xorb (match prev with c :: _ => is_word c | [] => false end)
       (match s with c :: _ => is_word c | [] => false end).

Definition hi_ok (hi : option nat) : bool :=
  match hi with Some O => false | _ => true end.

(** A continuation receives the text before the position, reversed, and
    the text from the position on; it answers with what is left of the
    text after the whole match. *)
Definition cont := str -> str -> option str.

(** The repetition may end at the position when [lo] characters, the
    minimum still owed, is zero. *)
Definition rep_end (lo : nat) (k : cont) (prev s : str) : option str :=
  match lo with
  | O => k prev s
  | S _ => None
  end.

(** [c{lo,hi}]: as many as possible, then one less, ... *)
Fixpoint rep_greedy (p : char -> bool) (lo : nat) (hi : option nat)
    (k : cont) (prev s : str) : option str :=
  match s with
  | x :: s' =>
      if hi_ok hi && p x then
        match rep_greedy p (Nat.pred lo) (option_map Nat.pred hi) k (x :: prev) s' with
        | Some r => Some r
        | None => rep_end lo k prev s
        end
      else rep_end lo k prev s
  | [] => rep_end lo k prev s
  end.

(** [c{lo,hi}?]: as few as possible, then one more, ... *)
Fixpoint rep_lazy (p : char -> bool) (lo : nat) (hi : option nat)
    (k : cont) (prev s : str) : option str :=
  match rep_end lo k prev s with
  | Some r => Some r
  | None =>
      match s with
      | x :: s' =>
          if hi_ok hi && p x
          then rep_lazy p (Nat.pred lo) (option_map Nat.pred hi) k (x :: prev) s'
          else None
      | [] => None
      end
  end.

(** The backtracking matcher: the first way, in the order of Python's
    engine, to match [r] at the position and then satisfy [k]. *)
Fixpoint rmatch (r : regex) (k : cont) (prev s : str) : option str :=
  match r with
  | Eps => k prev s
  | Chr c =>
      match s with
      | x :: s' => if set_match c x then k (x :: prev) s' else None
      | [] => None
      end
  | Rep c lo hi true => rep_greedy (set_match c) lo hi k prev s
  | Rep c lo hi false => rep_lazy (set_match c) lo hi k prev s
  | Seq r1 r2 => rmatch r1 (rmatch r2 k) prev s
  | Alt r1 r2 =>
      match rmatch r1 k prev s with
      | Some x => Some x
      | None => rmatch r2 k prev s
      end
  | Look r1 =>
      match rmatch r1 (fun _ s' => Some s') prev s with
      | Some _ => k prev s
      | None => None
      end
  | Bol => if at_bol prev then k prev s else None
  | Eol => if at_eol s then k prev s else None
  | WordB => if at_wordb prev s then k prev s else None
  end.

Definition accept : cont := fun _ rest => Some rest.

(** After an empty match the engine looks at the same position for a
    match that is not empty. *)
Definition accept_shorter (s : str) : cont :=
  fun _ rest => if (List.length rest <? List.length s)%nat then Some rest else None.

(** [re.match(r, s)] succeeds *)
Definition re_match (r : regex) (s : str) : bool :=
  match rmatch r accept [] s with Some _ => true | None => false end.

(** [re.search(r, s)] succeeds: a match at the leftmost position that has one. *)
Fixpoint search_from (r : regex) (prev s : str) : bool :=
  match rmatch r accept prev s with
  | Some _ => true
  | None =>
      match s with
      | [] => false
      | c :: s' => search_from r (c :: prev) s'
      end
  end.

Definition re_search (r : regex) (s : str) : bool := search_from r [] s.

(** What the engine finds at one position when it scans for the matches
    of [re.sub]: nothing, a match that ends before [rest], or an empty
    match and then what the second look for a match that is not empty
    finds. *)
Inductive found :=
| NoMatch
| Match (rest : str)
| EmptyThen (second : option str).

Definition match_at (r : regex) (prev s : str) : found :=
  match rmatch r accept prev s with
  | None => NoMatch
  | Some rest =>
      if (List.length rest <? List.length s)%nat then Match rest
      else EmptyThen (rmatch r (accept_shorter s) prev s)
  end.

(** [re.sub(r, repl, s)] for a replacement without group references:
    the matches, leftmost first and not overlapping, are replaced.
    [skip] counts the characters of the current match still to pass. *)
Fixpoint sub_from (r : regex) (repl : str) (skip : nat) (prev s : str) : str :=
  match s with
  | [] =>
      match skip, match_at r prev [] with
      | O, NoMatch => []
      | O, _ => repl
      | S _, _ => []
      end
  | c :: s' =>
      match skip with
      | S n => sub_from r repl n (c :: prev) s'
      | O =>
          match match_at r prev s with
          | NoMatch => c :: sub_from r repl O (c :: prev) s'
          | Match rest =>
              repl ++ sub_from r repl (List.length s' - List.length rest)%nat (c :: prev) s'
          | EmptyThen (Some rest) =>
              repl ++ repl
              ++ sub_from r repl (List.length s' - List.length rest)%nat (c :: prev) s'
          | EmptyThen None => repl ++ c :: sub_from r repl O (c :: prev) s'
          end
      end
  end.

Definition re_sub (r : regex) (repl s : str) : str := sub_from r repl O [] s.

End Matcher.

(** Pattern syntax *)
Definition lit (s : string) : regex :=
  fold_right (fun c r => Seq (Chr [Ch c]) r) Eps (py s).
Fixpoint seq (rs : list regex) : regex :=
  match rs with
  | [] => Eps
  | [r] => r
  | r :: rs' => Seq r (seq rs')
  end.
Fixpoint alt (rs : list regex) : regex :=
  match rs with
  | [] => Chr []
  | [r] => r
  | r :: rs' => Alt r (alt rs')
  end.
Definition star (c : cset) : regex := Rep c 0 None true.        (* c*  *)
Definition plus (c : cset) : regex := Rep c 1 None true.        (* c+  *)
Definition opt (c : cset) : regex := Rep c 0 (Some 1%nat) true. (* c?  *)
Definition star_lazy (c : cset) : regex := Rep c 0 None false.  (* c*? *)
Definition times (n : nat) (c : cset) : regex := Rep c n (Some n) true.        (* c{n}   *)
Definition from_to (n m : nat) (c : cset) : regex := Rep c n (Some m) true.    (* c{n,m} *)
Definition at_least (n : nat) (c : cset) : regex := Rep c n None true.         (* c{n,}  *)
Definition ch (s : string) : cset := map Ch (py s).

End Re.

(** ** src/hearsay/pdf.py *)

Module Pdf.
Import PyStr Re.
Local Open Scope string_scope.
Local Open Scope list_scope.

Definition rng (a b : ascii) : citem := Rng (N_of_ascii a) (N_of_ascii b).
Definition AZ : cset := [rng "A" "Z"].
Definition az : cset := [rng "a" "z"].

(** [^text\s*$] *)
Definition whole_line (text : string) : regex :=
  seq [Bol; lit text; star [Space]; Eol].

(** The letters of [text] with [\s+] between them. *)
Fixpoint spaced_chars (cs : str) : regex :=
  match cs with
  | [] => Eps
  | [c] => Chr [Ch c]
  | c :: cs' => Seq (Chr [Ch c]) (Seq (plus [Space]) (spaced_chars cs'))
  end.
Definition spaced (text : string) : regex := spaced_chars (py text).

(** Patterns that indicate a cover/citation page to skip *)
Definition marker_phrases : list string :=
  [ "You may also like";
    "To cite this article:";
    "View the article online for updates";
    "This content was downloaded from IP address" ].

Definition SKIP_PAGE_PATTERNS : list regex := map lit marker_phrases.

(** Multi-line blocks to remove *)
Definition REMOVE_BLOCKS : list regex :=
  [ (* HAL Id:.*?(?=From sedimentary|Abstract|Introduction|\n\n[A-Z][a-z]) *)
    seq [lit "HAL Id:"; star_lazy [Dot];
         Look (alt [lit "From sedimentary"; lit "Abstract"; lit "Introduction";
                    seq [lit "\n\n"; Chr AZ; Chr az]])];
    (* Source:.*?Stable URL:.*?(?=ABSTRACT|Abstract|Introduction) *)
    seq [lit "Source:"; star_lazy [Dot]; lit "Stable URL:"; star_lazy [Dot];
         Look (alt [lit "ABSTRACT"; lit "Abstract"; lit "Introduction"])];
    (* JSTOR is a not-for-profit service.*?(?=ABSTRACT|Abstract|[A-Z]{2,}) *)
    seq [lit "JSTOR is a not-for-profit service"; star_lazy [Dot];
         Look (alt [lit "ABSTRACT"; lit "Abstract"; at_least 2 AZ])];
    (* Your use of the JSTOR archive.*?(?=\n\n) *)
    seq [lit "Your use of the JSTOR archive"; star_lazy [Dot]; Look (lit "\n\n")];
    (* This content downloaded from.*?(?=\n\n|\n[A-Z]) *)
    seq [lit "This content downloaded from"; star_lazy [Dot];
         Look (alt [lit "\n\n"; seq [lit "\n"; Chr AZ]])] ].

(** Patterns to remove from text (line by line) *)
Definition REMOVE_PATTERNS : list regex :=
  [ (* This content was downloaded from IP address.*?(?=\n|$) *)
    seq [lit "This content was downloaded from IP address"; star_lazy [Dot];
         Look (alt [lit "\n"; Eol])];
    (* This content downloaded from.*$ *)
    seq [lit "This content downloaded from"; star [Dot]; Eol];
    (* All use subject to https://about\.jstor\.org/terms\s*$ *)
    seq [lit "All use subject to https://about.jstor.org/terms"; star [Space]; Eol];
    whole_line "OPEN ACCESS";
    whole_line "RECEIVED";
    whole_line "REVISED";
    whole_line "ACCEPTED FOR PUBLICATION";
    whole_line "PUBLISHED";
    (* ^\d{1,2}\s+\w+\s+\d{4}\s*$ *)
    seq [Bol; from_to 1 2 [Digit]; plus [Space]; plus [Word]; plus [Space];
         times 4 [Digit]; star [Space]; Eol];
    whole_line "Original content from";
    whole_line "this work may be used";
    whole_line "under the terms of the";
    whole_line "Creative Commons";
    (* ^Attribution \d\.\d licence\.?\s*$ *)
    seq [Bol; lit "Attribution "; Chr [Digit]; lit "."; Chr [Digit]; lit " licence";
         opt (ch "."); star [Space]; Eol];
    whole_line "Any further distribution";
    whole_line "of this work must";
    whole_line "maintain attribution to";
    (* ^the author\(s\) and the title\s*$ *)
    whole_line "the author(s) and the title";
    (* ^of the work,? journal\s*$ *)
    seq [Bol; lit "of the work"; opt (ch ","); lit " journal"; star [Space]; Eol];
    (* ^citation and DOI\.\s*$ *)
    whole_line "citation and DOI.";
    (* ^https?://doi\.org/.*$ *)
    seq [Bol; lit "http"; opt (ch "s"); lit "://doi.org/"; star [Dot]; Eol];
    (* ^https?://\S+\s*$ *)
    seq [Bol; lit "http"; opt (ch "s"); lit "://"; plus [NotSpace]; star [Space]; Eol];
    (* ^www\.[a-z\-]+\.(org|com|edu)\s*$ *)
    seq [Bol; lit "www."; plus (az ++ ch "-"); lit ".";
         alt [lit "org"; lit "com"; lit "edu"]; star [Space]; Eol];
    (* ^Environ\. Res\. Lett\..*$ *)
    seq [Bol; lit "Environ. Res. Lett."; star [Dot]; Eol];
    (* ©\s*\d{4}\s+The Author\(s\)\..*$ *)
    seq [Chr [Ch 169%N]; star [Space]; times 4 [Digit]; plus [Space];
         lit "The Author(s)."; star [Dot]; Eol];
    (* ^[A-Z]\s+[A-Z][a-z]+\s+et\s+al\s*$ *)
    seq [Bol; Chr AZ; plus [Space]; Chr AZ; plus az; plus [Space]; lit "et";
         plus [Space]; lit "al"; star [Space]; Eol];
    whole_line "IOP Publishing";
    (* ^a\s+r\s+t\s+i\s+c\s+l\s+e\s+i\s+n\s+f\s+o\s*$ *)
    seq [Bol; spaced "articleinfo"; star [Space]; Eol];
    (* ^s\s+u\s+m\s+m\s+a\s+r\s+y\s*$ *)
    seq [Bol; spaced "summary"; star [Space]; Eol];
    whole_line "Article history:";
    (* ^Received.*revised.*Accepted.*$ *)
    seq [Bol; lit "Received"; star [Dot]; lit "revised"; star [Dot]; lit "Accepted";
         star [Dot]; Eol];
    (* ^Available online.*$ *)
    seq [Bol; lit "Available online"; star [Dot]; Eol];
    (* ^This manuscript was handled by.*$ *)
    seq [Bol; lit "This manuscript was handled by"; star [Dot]; Eol];
    whole_line "Keywords:" ].

(** The ligatures of [clean_text], in the order of the dict. *)
Definition ligatures : list (str * str) :=
  [ ([64257%N], py "fi"); ([64258%N], py "fl"); ([64256%N], py "ff");
    ([64259%N], py "ffi"); ([64260%N], py "ffl") ].

(** [\band$] and the like *)
Definition last_word (w : string) : regex := seq [WordB; lit w; Eol].

Definition continuation_endings : list regex :=
  [ seq [lit ","; Eol]; seq [lit ";"; Eol] ]
  ++ map last_word
       [ "and"; "or"; "the"; "a"; "an"; "of"; "in"; "to"; "for"; "with"; "by";
         "from"; "that"; "which"; "as"; "at"; "on"; "is"; "are"; "was"; "were";
         "et"; "al" ]
  ++ [ (* \(.*$ *) seq [lit "("; star [Dot]; Eol] ].

Definition heading_words : list str :=
  map py [ "abstract"; "introduction"; "methods"; "results"; "discussion";
           "conclusion"; "references"; "acknowledgment"; "keywords"; "summary";
           "background" ].

(** [.!?]\s*$ *)
Definition terminal_punctuation : regex := seq [Chr (ch ".!?"); star [Space]; Eol].
(** \d{4}[a-z]?\)\s*\.?\s*$ *)
Definition citation_end : regex :=
  seq [times 4 [Digit]; opt az; lit ")"; star [Space]; opt (ch "."); star [Space]; Eol].
(** [.!?:;,]$ *)
Definition any_punctuation : regex := seq [Chr (ch ".!?:;,"); Eol].
(** ^\d+\.?\d*\.?\s+[A-Z] *)
Definition numbered_section : regex :=
  seq [Bol; plus [Digit]; opt (ch "."); star [Digit]; opt (ch "."); plus [Space]; Chr AZ].
(** ^\d+\s*$ *)
Definition page_number : regex := seq [Bol; plus [Digit]; star [Space]; Eol].
(** [ \t]+ *)
Definition blanks : regex := plus [Ch SP; Ch TAB].
(** \n{3,} *)
Definition newlines3 : regex := at_least 3 [Ch NL].

Section Pipeline.
Variable U : unicode_tables.

(** [_is_skip_page]: a cover/citation page that should be skipped *)
Definition _is_skip_page (text : str) : bool :=
  existsb (fun pattern => re_search U I pattern text) SKIP_PAGE_PATTERNS.

(** [_ends_sentence]: the line appears to end a complete sentence *)
Definition _ends_sentence (line : str) : bool :=
  match line with
  | [] => true
  | _ :: _ =>
      if re_search U NOFLAG terminal_punctuation line then true
      else if re_search U NOFLAG citation_end line then true
      else if endswith line (py ":") then true
      else if existsb (fun pattern => re_search U I pattern line) continuation_endings
      then false
      else if (List.length line <? 60)%nat && negb (re_search U NOFLAG any_punctuation line)
      then false
      else false
  end.

(** [_is_heading]: the line looks like a section heading *)
Definition _is_heading (line : str) : bool :=
  match line with
  | [] => false
  | c0 :: _ =>
      if re_match U NOFLAG numbered_section line then true
      else if isupper U line && (List.length line <? 60)%nat then true
      else
        let first_word :=
          match split_ws line with
          | w :: _ => rstrip_chars (py ".:") (lower U w)
          | [] => []
          end in
        if existsb (str_eqb first_word) heading_words && (List.length line <? 40)%nat
        then true
        else if (List.length line <? 30)%nat && ch_isupper U c0
                && negb (endswith line (py ","))
        then (List.length (split_ws line) <=? 4)%nat
        else false
  end.

(** The test of the inner loop for a line after an empty one:
    [after_empty and after_empty[0].islower() and not _ends_sentence(line)
     and not _is_heading(after_empty)] *)
Definition bridges (line after_empty : str) : bool :=
  match after_empty with
  | [] => false
  | c :: _ =>
      ch_islower U c && negb (_ends_sentence line) && negb (_is_heading after_empty)
  end.

(** [line.endswith("-") and not line.endswith(" -")] *)
Definition word_break (line : str) : bool :=
  endswith line (py "-") && negb (endswith line (py " -")).

(** The body of the inner loop once [next_line] is chosen: [None] is
    [break], [Some l] is the next iteration with [l] as the line. *)
Definition join_or_stop (line next_line : str) : option str :=
  if _is_heading line then None
  else if _is_heading next_line then None
  else if word_break line then Some (removelast line ++ next_line)
  else if negb (_ends_sentence line) then Some (line ++ py " " ++ next_line)
  else None.

(** The loops of [_rejoin_broken_lines].  [rejoin_from line rest] is the
    state at the test of the inner loop: [line] is the line built so far
    from [lines[i]] and what was joined to it, [rest] is [lines[i+1:]].
    The result is what is appended to [result] from there on. *)
Fixpoint rejoin_from (line : str) (rest : list str) {struct rest} : list str :=
  match rest with
  | [] => [line]
  | next :: rest1 =>
      match strip next with
      | [] =>
          match rest1 with
          | after :: rest2 =>
              if bridges line (strip after)
              then match join_or_stop line (strip after) with
                   | Some l => rejoin_from l rest2
                   | None => line :: rejoin_from (strip after) rest2
                   end
              else line :: rejoin_from [] rest1
          | [] => line :: rejoin_from [] rest1
          end
      | next_line =>
          match join_or_stop line next_line with
          | Some l => rejoin_from l rest1
          | None => line :: rejoin_from next_line rest1
          end
      end
  end.

Definition rejoin_lines (lines : list str) : list str :=
  match lines with
  | [] => []
  | l :: rest => rejoin_from (strip l) rest
  end.

Definition _rejoin_broken_lines (text : str) : str :=
  join (py "\n") (rejoin_lines (split_on NL text)).

(** The stages of [clean_text] *)
Definition fix_ligatures (text : str) : str :=
  fold_left (fun t lr => replace t (fst lr) (snd lr)) ligatures text.

Definition remove_blocks (text : str) : str :=
  fold_left (fun t pattern => re_sub U MSI pattern [] t) REMOVE_BLOCKS text.

Definition remove_patterns (text : str) : str :=
  fold_left (fun t pattern => re_sub U M pattern [] t) REMOVE_PATTERNS text.

Definition remove_page_numbers (text : str) : str := re_sub U M page_number [] text.

Definition collapse_spaces (text : str) : str := re_sub U NOFLAG blanks (py " ") text.

Definition normalize_newlines (text : str) : str :=
  re_sub U NOFLAG newlines3 (py "\n\n") text.

Definition strip_lines (text : str) : str :=
  join (py "\n") (map strip (split_on NL text)).

(** The boilerplate stripper: steps A, B and C of the specification. *)
Definition strip_boilerplate (text : str) : str :=
  remove_page_numbers (remove_patterns (remove_blocks text)).

Definition clean_text (text : str) : str :=
  let text := fix_ligatures text in
  let text := remove_blocks text in
  let text := remove_patterns text in
  let text := remove_page_numbers text in
  let text := collapse_spaces text in
  let text := normalize_newlines text in
  let text := _rejoin_broken_lines text in
  let text := normalize_newlines text in
  let text := strip_lines text in
  strip text.

(** [extract_text]: the document is what PyMuPDF gives for the path, the
    text of each page in order, or the reason why there is none. *)
Inductive document :=
| NotFound
| CannotOpen
| Opened (pages : list str).

Inductive outcome :=
| FileNotFoundError
| RuntimeError
| Returns (text : str).

Fixpoint text_parts (pages : list str) : list str :=
  match pages with
  | [] => []
  | text :: pages' =>
      if _is_skip_page text then text_parts pages'
      else match strip text with
           | [] => text_parts pages'
           | _ => text :: text_parts pages'
           end
  end.

Definition extract_text (doc : document) : outcome :=
  match doc with
  | NotFound => FileNotFoundError
  | CannotOpen => RuntimeError
  | Opened pages => Returns (clean_text (join (py "\n") (text_parts pages)))
  end.

(** [extract_text_raw]: the pages that are not blank, joined, with the
    ligatures fixed and the whitespace normalised; no page is skipped
    and no line is removed or rejoined. *)
Definition raw_text_parts (pages : list str) : list str :=
  filter (fun text => match strip text with [] => false | _ => true end) pages.

Definition extract_text_raw (doc : document) : outcome :=
  match doc with
  | NotFound => FileNotFoundError
  | CannotOpen => RuntimeError
  | Opened pages =>
      let text := join (py "\n") (raw_text_parts pages) in
      let text := fix_ligatures text in
      let text := re_sub U NOFLAG blanks (py " ") text in
      let text := re_sub U NOFLAG newlines3 (py "\n\n") text in
      Returns (strip text)
  end.

(** [get_text_stats] *)
Record text_stats := {
  characters : nat;
  words : nat;
  paragraphs : nat
}.

Definition get_text_stats (text : str) : text_stats :=
  {| characters := List.length text;
     words := List.length (split_ws text);
     paragraphs := count text (py "\n\n") + 1 |}.

(** [re.sub(r"[^...]", "", text)] for a negated character set: the
    pattern matches one character outside the set at a time and the
    match is replaced by nothing, the characters of the set stay. *)
Definition remove_outside (c : cset) (text : str) : str :=
  filter (set_match U NOFLAG c) text.


Definition slugify (title : str) (max_length : Z) : str :=
  (* [^\w\s-] *)
  let slug := remove_outside [Word; Space; Ch 45%N] title in
  (* [\s]+ *)
  let slug := re_sub U NOFLAG (plus [Space]) (py "_") slug in
  (* _+ *)
  let slug := re_sub U NOFLAG (plus (ch "_")) (py "_") slug in
  let slug := strip_chars (py "_") (slice_to max_length slug) in
  lower U slug.

(** [save_text]: the name of the file inside [output_dir] and what is
    written to it. *)
Record written_file := {
  file_name : str;
  file_content : str
}.


End Pipeline.

(** [extract_figures].  An entry of [page.get_images()] is what
    [doc.extract_image] gives for it, the bytes and the extension if the
    dict has one, or nothing when the body of the [try] raises. *)
Record image := {
  image_bytes : list N;
  image_ext : option str
}.

Inductive figure_document :=
| FiguresNotFound
| FiguresCannotOpen
| FiguresOpened (pages : list (list (option image))).

Inductive figures_outcome :=
| FiguresFileNotFoundError
| FiguresRuntimeError
| Extracted (files : list written_file).

Definition figure_name (figure_num : nat) (ext : str) : str :=
  py "figure_" ++ decimal figure_num ++ py "." ++ ext.

(** The extension the file gets: "png" without one, "jpg" for "jpeg". *)
Definition figure_ext (img : image) : str :=
  let ext := match image_ext img with Some e => e | None => py "png" end in
  if str_eqb ext (py "jpeg") then py "jpg" else ext.

(** The two loops, over the images of all pages in order; [figure_num]
    is the number of the next figure. *)
Fixpoint extract_from (min_size : Z) (figure_num : nat) (images : list (option image))
    : list written_file :=
  match images with
  | [] => []
  | None :: rest => extract_from min_size figure_num rest
  | Some img :: rest =>
      if (Z.of_nat (List.length (image_bytes img)) <? min_size)%Z
      then extract_from min_size figure_num rest
      else {| file_name := figure_name figure_num (figure_ext img);
              file_content := image_bytes img |}
           :: extract_from min_size (S figure_num) rest
  end.

Definition default_min_size : Z := 10000.

Definition extract_figures (doc : figure_document) (min_size : Z) : figures_outcome :=
  match doc with
  | FiguresNotFound => FiguresFileNotFoundError
  | FiguresCannotOpen => FiguresRuntimeError
  | FiguresOpened pages => Extracted (extract_from min_size 1 (List.concat pages))
  end.

End Pdf.

(** ** Vocabulary of the statements *)

Module Spec.
Import PyStr Re Pdf.
Local Open Scope string_scope.
Local Open Scope list_scope.


(** The two ways the rejoiner joins [line] to [next_line]. *)
Definition joined (line next_line : str) : str :=
  if word_break line then removelast line ++ next_line
  else line ++ py " " ++ next_line.

(** The line ends with [.], [!] or [?] and then whitespace only. *)
Definition ends_terminal (line : str) : Prop :=
  exists pre c ws, line = pre ++ c :: ws /\ In c (py ".!?") /\ forallb isspace ws = true.

(** The line ends with a year of four digits, at most one lower-case
    letter and a closing parenthesis; whitespace, one period and
    whitespace again may follow. *)
Definition ends_citation (U : unicode_tables) (line : str) : Prop :=
  exists pre year letter ws1 dot ws2,
    line = pre ++ year ++ letter ++ py ")" ++ ws1 ++ dot ++ ws2
    /\ List.length year = 4%nat /\ forallb (ch_isdecimal U) year = true
    /\ (List.length letter <= 1)%nat /\ forallb ascii_islower letter = true
    /\ forallb isspace ws1 = true
    /\ (dot = [] \/ dot = py ".")
    /\ forallb isspace ws2 = true.



(** What it means for the pattern [r] to match the text [m] between the
    text [prev] (reversed) before it and the text [rest] after it,
    without regard to the order in which the engine tries the ways to
    match. *)
Section Meaning.
Variable U : unicode_tables.
Variable f : flags.

Definition within (hi : option nat) (n : nat) : Prop :=
  match hi with
  | Some h => (n <= h)%nat
  | None => True
  end.

Fixpoint matches (r : regex) (prev m rest : str) : Prop :=
  match r with
  | Eps => m = []
  | Chr c => exists x, m = [x] /\ set_match U f c x = true
  | Rep c lo hi _ =>
      forallb (set_match U f c) m = true /\ (lo <= List.length m)%nat
      /\ within hi (List.length m)
  | Seq r1 r2 =>
      exists m1 m2, m = m1 ++ m2 /\ matches r1 prev m1 (m2 ++ rest)
                    /\ matches r2 (rev m1 ++ prev) m2 rest
  | Alt r1 r2 => matches r1 prev m rest \/ matches r2 prev m rest
  | Look r1 => m = [] /\ exists m' rest', rest = m' ++ rest' /\ matches r1 prev m' rest'
  | Bol => m = [] /\ at_bol f prev = true
  | Eol => m = [] /\ at_eol f rest = true
  | WordB => m = [] /\ at_wordb U prev rest = true
  end.

(** [r] matches somewhere in [s]. *)
Definition occurs (r : regex) (s : str) : Prop :=
  exists a m rest, s = a ++ m ++ rest /\ matches r (rev a) m rest.

End Meaning.

(** The ways of a repetition [c{lo,hi}]: [no_way] when the continuation
    refuses every admissible run of the class at the position,
    [some_way] when it answers [x] for one of them. *)
Definition no_way (p : char -> bool) (lo : nat) (hi : option nat) (k : cont)
    (prev s : str) : Prop :=
  forall m rest, s = m ++ rest -> forallb p m = true -> (lo <= List.length m)%nat ->
                 within hi (List.length m) -> k (rev m ++ prev) rest = None.

Definition some_way (p : char -> bool) (lo : nat) (hi : option nat) (k : cont)
    (prev s : str) (x : str) : Prop :=
  exists m rest, s = m ++ rest /\ forallb p m = true /\ (lo <= List.length m)%nat
                 /\ within hi (List.length m) /\ k (rev m ++ prev) rest = Some x.

(** The first character of [s] satisfies [q]. *)
Definition head_is (q : char -> bool) (s : str) : bool :=
  match s with
  | c :: _ => q c
  | [] => false
  end.

(** Every two neighbours in [s] satisfy [P]. *)
Fixpoint adjacent (P : char -> char -> bool) (s : str) : bool :=
  match s with
  | x :: s' => match s' with y :: _ => P x y | [] => true end && adjacent P s'
  | [] => true
  end.

(** The last character of [a] and the first of [b] satisfy [P]. *)
Definition link (P : char -> char -> bool) (a b : str) : bool :=
  match rev a, b with
  | x :: _, y :: _ => P x y
  | _, _ => true
  end.

(** No whitespace at either end: a trimmed line. *)
Definition tight (l : str) : bool :=
  negb (head_is isspace l) && negb (head_is isspace (rev l)).

(** The length of the run of [p] at the start of [s]. *)
Fixpoint span_len (p : char -> bool) (s : str) : nat :=
  match s with
  | x :: s' => if p x then S (span_len p s') else O
  | [] => O
  end.

Definition is_nl (c : char) : bool := N.eqb c NL.
Definition is_blank (c : char) : bool := N.eqb c SP || N.eqb c TAB.

(** What [re.sub(r"\n{3,}", "\n\n", s)] comes to: a newline that two
    more newlines follow is dropped. *)
Fixpoint squeeze_newlines (s : str) : str :=
  match s with
  | [] => []
  | c :: s' =>
      if is_nl c && startswith s' [NL; NL] then squeeze_newlines s'
      else c :: squeeze_newlines s'
  end.

(** What [re.sub(r"[ \t]+", " ", s)] comes to: a space or tab that
    another one follows is dropped, the last of a run becomes a space. *)
Fixpoint squeeze_blanks (s : str) : str :=
  match s with
  | [] => []
  | c :: s' =>
      if is_blank c
      then if head_is is_blank s' then squeeze_blanks s' else SP :: squeeze_blanks s'
      else c :: squeeze_blanks s'
  end.

(** No tab and no two spaces in a row. *)
Definition not_tab (c : char) : bool := negb (N.eqb c TAB).
Definition no_tab (s : str) : bool := forallb not_tab s.
Definition sp_pair (x y : char) : bool := negb (N.eqb x SP && N.eqb y SP).
Definition squeezed (s : str) : bool := no_tab s && adjacent sp_pair s.

(** Every line of the text is trimmed: no whitespace other than a
    newline stands at an end of the text or next to a newline. *)
Definition hsp (c : char) : bool := isspace c && negb (N.eqb c NL).
Definition line_pair (x y : char) : bool :=
  negb (hsp x && N.eqb y NL) && negb (N.eqb x NL && hsp y).
Definition trimmed_lines (s : str) : bool :=
  negb (head_is hsp s) && negb (head_is hsp (rev s)) && adjacent line_pair s.

(** No three newlines in a row. *)
Fixpoint no_nl3 (s : str) : bool :=
  match s with
  | [] => true
  | c :: s' => negb (is_nl c && startswith s' [NL; NL]) && no_nl3 s'
  end.

(** What the rejoiner keeps of every line it builds, and what it needs
    of the lines it reads. *)
Definition not_nl (c : char) : bool := negb (is_nl c).
Definition nl_free (l : str) : bool := forallb not_nl l.
Definition good_line (l : str) : bool := tight l && squeezed l && nl_free l.
Definition good_input (n : str) : Prop := squeezed n = true /\ nl_free n = true.

(** The character [c] is in [line], in a line of [rest], or a space. *)
Definition from_lines (line : str) (rest : list str) (c : char) : Prop :=
  In c line \/ (exists n, In n rest /\ In c n) \/ c = SP.

(** The stages of [clean_text] in order, and the working buffer after
    the first [n] of them. *)
Definition stages (U : unicode_tables) : list (str -> str) :=
  [ fix_ligatures; remove_blocks U; remove_patterns U; remove_page_numbers U;
    collapse_spaces U; normalize_newlines U; _rejoin_broken_lines U;
    normalize_newlines U; strip_lines; strip ].


(** The text after the second normalisation of the newlines. *)
Definition normalized (U : unicode_tables) (t : str) : str :=
  normalize_newlines U (_rejoin_broken_lines U (normalize_newlines U (collapse_spaces U t))).

(** A stage adds no character besides those of [extra]. *)
Definition adds_only (extra : str) (stage : str -> str) : Prop :=
  forall t c, In c (stage t) -> In c t \/ In c extra.

(** No block pattern, no line pattern and no page number is found in [t]. *)
Definition no_pattern_matches (U : unicode_tables) (t : str) : bool :=
  forallb (fun r => negb (re_search U MSI r t)) REMOVE_BLOCKS
  && forallb (fun r => negb (re_search U M r t)) REMOVE_PATTERNS
  && negb (re_search U M page_number t).

(** [a] is [b] with some characters removed. *)
Inductive subseq : str -> str -> Prop :=
| subseq_nil : subseq [] []
| subseq_drop (c : char) (a b : str) : subseq a b -> subseq a (c :: b)
| subseq_keep (c : char) (a b : str) : subseq a b -> subseq (c :: a) (c :: b).

(** What [re.sub(class+, x, s)] comes to for a replacement of one
    character: a character of the class that another one follows is
    dropped, the last of a run becomes [x]. *)
Fixpoint squeeze_runs (p : char -> bool) (x : char) (s : str) : str :=
  match s with
  | [] => []
  | c :: s' =>
      if p c
      then if head_is p s' then squeeze_runs p x s' else x :: squeeze_runs p x s'
      else c :: squeeze_runs p x s'
  end.

(** The pieces of a well-formed slug: lower-case ASCII letters, digits,
    underscores and hyphens; no underscore at an end and no two in a row. *)
Definition is_us (c : char) : bool := N.eqb c 95%N.
Definition is_hyphen (c : char) : bool := N.eqb c 45%N.
Definition slug_char (c : char) : bool :=
  ascii_islower c || ascii_isdigit c || is_us c || is_hyphen c.
Definition us_pair (x y : char) : bool := negb (is_us x && is_us y).
Definition slug_shape (s : str) : bool :=
  forallb slug_char s && negb (head_is is_us s) && negb (head_is is_us (rev s))
  && adjacent us_pair s.

(** The letters and digits of the title are ASCII: what else it holds
    above U+007F is punctuation, symbols or whitespace. *)
Definition ascii_word_char (U : unicode_tables) (c : char) : bool :=
  is_ascii c || negb (ch_isalnum U c).
Definition ascii_words (U : unicode_tables) (title : str) : bool :=
  forallb (ascii_word_char U) title.

(** The five ligatures, and what replaces each. *)
Definition is_ligature (c : char) : bool := in_range 64256%N 64260%N c.
Definition expand_ligature (c : char) : str :=
  if N.eqb c 64257%N then py "fi"
  else if N.eqb c 64258%N then py "fl"
  else if N.eqb c 64256%N then py "ff"
  else if N.eqb c 64259%N then py "ffi"
  else if N.eqb c 64260%N then py "ffl"
  else [c].

(** The empty lines among [lines]. *)
Definition empty_lines (lines : list str) : nat :=
  List.length (filter (fun l => match l with [] => true | _ => false end) lines).

(** The blank lines of a text whose lines are trimmed. *)
Definition blank_lines (text : str) : nat := empty_lines (split_on NL text).

(** The length of [lines] when each is followed by a newline. *)
Definition joined_length (lines : list str) : nat :=
  list_sum (map (fun l => S (List.length l)) lines).

(** The entries of [page.get_images()] that [extract_figures] saves: the
    images that can be extracted and have at least [min_size] bytes. *)
Definition saved_bytes (min_size : Z) (entry : option image) : bool :=
  match entry with
  | None => false
  | Some img => negb (Z.of_nat (List.length (image_bytes img)) <? min_size)%Z
  end.

End Spec.

Ltac flatten_apps :=
  repeat (rewrite <- app_assoc || rewrite <- app_comm_cons || rewrite app_nil_r).

(** Comparisons of code points, settled by cases. *)
Ltac char_cases :=
  repeat (match goal with
          | H : context [N.leb ?a ?b] |- _ => destruct (N.leb_spec a b)
          | H : context [N.ltb ?a ?b] |- _ => destruct (N.ltb_spec a b)
          | H : context [N.eqb ?a ?b] |- _ => destruct (N.eqb_spec a b)
          | |- context [N.leb ?a ?b] => destruct (N.leb_spec a b)
          | |- context [N.ltb ?a ?b] => destruct (N.ltb_spec a b)
          | |- context [N.eqb ?a ?b] => destruct (N.eqb_spec a b)
          end; cbn [andb orb negb] in *; try discriminate; try lia);
  try reflexivity.

Ltac char_facts :=
  unfold Spec.slug_char, Spec.ascii_word_char, PyStr.ascii_lower, PyStr.ascii_isalnum,
    PyStr.ascii_isupper, PyStr.ascii_islower, PyStr.ascii_isdigit, Spec.is_us,
    Spec.is_hyphen, PyStr.is_ascii, PyStr.in_range in *;
  char_cases.

(** * Properties *)

Import PyStr Re Pdf Spec.
Local Open Scope string_scope.
Local Open Scope list_scope.

(** ** The line rejoiner *)

Section Rejoiner.
Variable U : unicode_tables.





Lemma join_or_stop_bridged (line next_line : str) :
  _is_heading U line = false -> bridges U line next_line = true ->
  join_or_stop U line next_line = Some (joined line next_line).
Proof.
  intros H1 H2. unfold bridges in H2. destruct next_line as [|c t]; [discriminate|].
  apply andb_prop in H2 as [H2 H4]. apply andb_prop in H2 as [_ H3].
  apply negb_true_iff in H3, H4.
  unfold join_or_stop, joined. rewrite H1, H4, H3.
  now destruct (word_break line).
Qed.

Lemma bridges_spec (line after_empty : str) :
  bridges U line after_empty = true <->
  exists c t, after_empty = c :: t /\ ch_islower U c = true
              /\ _ends_sentence U line = false /\ _is_heading U after_empty = false.
Proof.
  unfold bridges. split.
  - destruct after_empty as [|c t]; [discriminate|]. intros H.
    apply andb_prop in H as [H H3]. apply andb_prop in H as [H1 H2].
    apply negb_true_iff in H2, H3. now exists c, t.
  - intros (c & t & -> & H1 & H2 & H3). now rewrite H1, H2, H3.
Qed.

(** The equations of the loop *)
Lemma rejoin_from_next (line next : str) (rest : list str) :
  strip next <> [] ->
  rejoin_from U line (next :: rest) =
  match join_or_stop U line (strip next) with
  | Some l => rejoin_from U l rest
  | None => line :: rejoin_from U (strip next) rest
  end.
Proof.
  intros H. cbn [rejoin_from]. destruct (strip next); [contradiction|reflexivity].
Qed.

Lemma rejoin_from_blank_last (line blank : str) :
  strip blank = [] -> rejoin_from U line [blank] = [line; []].
Proof. intros H. cbn [rejoin_from]. now rewrite H. Qed.

Lemma rejoin_from_blank_bridge (line blank after : str) (rest : list str) :
  strip blank = [] -> bridges U line (strip after) = true ->
  rejoin_from U line (blank :: after :: rest) =
  match join_or_stop U line (strip after) with
  | Some l => rejoin_from U l rest
  | None => line :: rejoin_from U (strip after) rest
  end.
Proof. intros H1 H2. cbn [rejoin_from]. now rewrite H1, H2. Qed.

Lemma rejoin_from_blank_stop (line blank after : str) (rest : list str) :
  strip blank = [] -> bridges U line (strip after) = false ->
  rejoin_from U line (blank :: after :: rest) = line :: rejoin_from U [] (after :: rest).
Proof. intros H1 H2. cbn [rejoin_from]. now rewrite H1, H2. Qed.





End Rejoiner.





(** C3, as amended. Page-break bridging: when the line after the
    current line [line] is blank, a line [after] exists two positions
    ahead, its trimmed text is not empty and starts with a lower-case
    letter, [line] does not end a sentence, [after] is not a heading and
    [line] itself is not a heading, the rejoiner passes over the blank
    line and goes on with [line] joined to [after] (with a space, or at a
    word-break hyphen without one).  When the test of the line after the
    blank one fails, or there is no such line, [line] is emitted as it is
    and the scan resumes at the blank line. *)
Theorem page_break_bridging (U : unicode_tables) (line blank after : str)
    (rest : list str) :
  strip blank = [] ->
  (forall c t, strip after = c :: t -> ch_islower U c = true ->
     _ends_sentence U line = false -> _is_heading U (strip after) = false ->
     _is_heading U line = false ->
     rejoin_from U line (blank :: after :: rest)
     = rejoin_from U (joined line (strip after)) rest)
  /\ (bridges U line (strip after) = false ->
      rejoin_from U line (blank :: after :: rest)
      = line :: rejoin_from U [] (after :: rest))
  /\ rejoin_from U line [blank] = [line; []]
  /\ _rejoin_broken_lines U
       (py "erosion rates increased over the study\n\nperiod due to storm activity.")
     = py "erosion rates increased over the study period due to storm activity.".
Proof.
  intros Hb. split; [|split; [|split]].
  - intros c t Ha Hc He Hh Hl.
    assert (Hbr : bridges U line (strip after) = true).
    { apply bridges_spec. exists c, t. now rewrite <- Ha. }
    rewrite (rejoin_from_blank_bridge U _ _ _ _ Hb Hbr).
    now rewrite (join_or_stop_bridged U _ _ Hl Hbr).
  - intros Hbr. now apply rejoin_from_blank_stop.
  - now apply rejoin_from_blank_last.
  - vm_compute. reflexivity.
Qed.

Lemma page_break_bridging_witness :
  rejoin_from ascii_tables (py "erosion rates increased over the study")
    [ []; py "period due to storm activity." ]
  = [ py "erosion rates increased over the study period due to storm activity." ].
Proof.
  refine (eq_trans (proj1 (page_break_bridging ascii_tables
                             (py "erosion rates increased over the study") []
                             (py "period due to storm activity.") [] eq_refl)
                      112%N (py "eriod due to storm activity.") _ _ _ _ _) _);
    vm_compute; reflexivity.
Defined.

(** The claim C3 as it is stated does not ask that [line] is not a heading:
    after the heading "Methods" and a blank line, the lower-case line
    passes the test of the page break, and the heading is emitted alone. *)
Lemma page_break_bridging_counterexample :
  strip [] = []
  /\ strip (py "we used kriging.") = py "we used kriging."
  /\ ch_islower ascii_tables 119%N = true
  /\ _ends_sentence ascii_tables (py "Methods") = false
  /\ _is_heading ascii_tables (py "we used kriging.") = false
  /\ rejoin_from ascii_tables (py "Methods") [ []; py "we used kriging." ]
     = [ py "Methods"; py "we used kriging." ]
  /\ rejoin_from ascii_tables (py "Methods") [ []; py "we used kriging." ]
     <> rejoin_from ascii_tables
          (joined (py "Methods") (strip (py "we used kriging."))) [].
Proof. repeat split; try (vm_compute; reflexivity). vm_compute. discriminate. Qed.




(** ** The matcher finds a match exactly when there is one *)

Section Adequacy.
Variable U : unicode_tables.
Variable f : flags.

Lemma rev_cons_app (x : char) (m prev : str) :
  rev (x :: m) ++ prev = rev m ++ x :: prev.
Proof. cbn [rev]. now rewrite <- app_assoc. Qed.

Lemma within_pred (hi : option nat) (n : nat) :
  hi_ok hi = true -> within (option_map Nat.pred hi) n <-> within hi (S n).
Proof.
  destruct hi as [[|h]|]; cbn; intros H; try discriminate; [lia|tauto].
Qed.

Lemma within_S_ok (hi : option nat) (n : nat) : within hi (S n) -> hi_ok hi = true.
Proof. destruct hi as [[|h]|]; cbn; intros H; try reflexivity; lia. Qed.

Lemma within_0 (hi : option nat) : within hi 0.
Proof. destruct hi; cbn; [lia|exact Logic.I]. Qed.


Lemma no_way_end p lo hi k prev s :
  no_way p lo hi k prev s -> rep_end lo k prev s = None.
Proof.
  intros H. destruct lo; [|reflexivity].
  apply (H [] s); auto using within_0.
Qed.

Lemma no_way_step p lo hi k prev x s :
  hi_ok hi = true -> p x = true ->
  no_way p lo hi k prev (x :: s) ->
  no_way p (Nat.pred lo) (option_map Nat.pred hi) k (x :: prev) s.
Proof.
  intros Hok Hp H m rest -> Hm Hlo Hhi. rewrite <- rev_cons_app.
  apply (H (x :: m) rest); auto.
  - cbn. now rewrite Hp.
  - cbn. lia.
  - now apply within_pred.
Qed.

Lemma no_way_intro p lo hi k prev s :
  rep_end lo k prev s = None ->
  (forall x s', s = x :: s' -> hi_ok hi = true -> p x = true ->
     no_way p (Nat.pred lo) (option_map Nat.pred hi) k (x :: prev) s') ->
  no_way p lo hi k prev s.
Proof.
  intros He Hs m rest -> Hm Hlo Hhi. destruct m as [|x m].
  - cbn in *. destruct lo; [exact He|lia].
  - cbn in Hm. apply andb_prop in Hm as [Hp Hm].
    pose proof (within_S_ok _ _ Hhi) as Hok.
    rewrite rev_cons_app. apply (Hs x (m ++ rest) eq_refl Hok Hp m rest); auto.
    + cbn in Hlo. lia.
    + now apply within_pred.
Qed.

Lemma rep_greedy_none p k s : forall lo hi prev,
  rep_greedy p lo hi k prev s = None <-> no_way p lo hi k prev s.
Proof.
  induction s as [|x s IH]; intros lo hi prev.
  - cbn [rep_greedy]. split.
    + intros He. apply no_way_intro; [exact He|]. discriminate.
    + apply no_way_end.
  - cbn [rep_greedy]. destruct (hi_ok hi && p x) eqn:E.
    + apply andb_prop in E as [Hok Hp].
      destruct (rep_greedy p (Nat.pred lo) (option_map Nat.pred hi) k (x :: prev) s) eqn:Er.
      * split; [discriminate|]. intros H.
        apply (no_way_step _ _ _ _ _ _ _ Hok Hp), IH in H. congruence.
      * apply IH in Er. split.
        { intros He. apply no_way_intro; [exact He|].
          intros x' s' [= <- <-] _ _. exact Er. }
        { apply no_way_end. }
    + split.
      * intros He. apply no_way_intro; [exact He|].
        intros x' s' [= <- <-] Hok Hp. rewrite Hok, Hp in E. discriminate.
      * apply no_way_end.
Qed.

Lemma rep_lazy_none p k s : forall lo hi prev,
  rep_lazy p lo hi k prev s = None <-> no_way p lo hi k prev s.
Proof.
  induction s as [|x s IH]; intros lo hi prev.
  - cbn [rep_lazy]. split.
    + intros He. apply no_way_intro; [|discriminate].
      now destruct (rep_end lo k prev []).
    + intros H. now rewrite (no_way_end _ _ _ _ _ _ H).
  - cbn [rep_lazy]. split.
    + intros He. destruct (rep_end lo k prev (x :: s)) eqn:Ee; [discriminate|].
      apply no_way_intro; [exact Ee|].
      intros x' s' [= <- <-] Hok Hp. rewrite Hok, Hp in He. now apply IH.
    + intros H. rewrite (no_way_end _ _ _ _ _ _ H).
      destruct (hi_ok hi && p x) eqn:E; [|reflexivity].
      apply andb_prop in E as [Hok Hp]. apply IH.
      now apply no_way_step.
Qed.

Lemma rep_end_some lo k prev s x :
  rep_end lo k prev s = Some x -> lo = O /\ k prev s = Some x.
Proof. destruct lo; cbn; [auto|discriminate]. Qed.


Lemma some_way_end p lo hi k prev s x :
  rep_end lo k prev s = Some x -> some_way p lo hi k prev s x.
Proof.
  intros H. apply rep_end_some in H as [-> H]. exists [], s.
  repeat split; auto using within_0.
Qed.

Lemma some_way_step p lo hi k prev c s x :
  hi_ok hi = true -> p c = true ->
  some_way p (Nat.pred lo) (option_map Nat.pred hi) k (c :: prev) s x ->
  some_way p lo hi k prev (c :: s) x.
Proof.
  intros Hok Hp (m & rest & -> & Hm & Hlo & Hhi & Hk). exists (c :: m), rest.
  repeat split.
  - cbn. now rewrite Hp.
  - cbn. lia.
  - now apply within_pred.
  - now rewrite rev_cons_app.
Qed.

Lemma rep_greedy_some p k s x : forall lo hi prev,
  rep_greedy p lo hi k prev s = Some x -> some_way p lo hi k prev s x.
Proof.
  induction s as [|c s IH]; intros lo hi prev; cbn [rep_greedy].
  - apply some_way_end.
  - destruct (hi_ok hi && p c) eqn:E; [|apply some_way_end].
    apply andb_prop in E as [Hok Hp].
    destruct (rep_greedy p (Nat.pred lo) (option_map Nat.pred hi) k (c :: prev) s) eqn:Er.
    + intros [= <-]. apply some_way_step; auto.
    + apply some_way_end.
Qed.

Lemma rep_lazy_some p k s x : forall lo hi prev,
  rep_lazy p lo hi k prev s = Some x -> some_way p lo hi k prev s x.
Proof.
  induction s as [|c s IH]; intros lo hi prev; cbn [rep_lazy].
  - destruct (rep_end lo k prev []) eqn:Ee; [|discriminate].
    intros [= <-]. now apply some_way_end.
  - destruct (rep_end lo k prev (c :: s)) eqn:Ee.
    + intros [= <-]. now apply some_way_end.
    + destruct (hi_ok hi && p c) eqn:E; [|discriminate].
      apply andb_prop in E as [Hok Hp]. intros H. apply some_way_step; auto.
Qed.

(** What the matcher finds is a match of [r] that the continuation
    accepts. *)
Theorem rmatch_sound (r : regex) : forall (k : cont) (prev s x : str),
  rmatch U f r k prev s = Some x ->
  exists m rest, s = m ++ rest /\ matches U f r prev m rest
                 /\ k (rev m ++ prev) rest = Some x.
Proof.
  induction r as [|c|c lo hi g|r1 IH1 r2 IH2|r1 IH1 r2 IH2|r1 IH1| | |];
    intros k prev s x; cbn [rmatch matches].
  - intros H. now exists [], s.
  - destruct s as [|c0 s]; [discriminate|].
    destruct (set_match U f c c0) eqn:E; [|discriminate].
    intros H. exists [c0], s. repeat split; auto. now exists c0.
  - intros H.
    assert (Hw : some_way (set_match U f c) lo hi k prev s x)
      by (destruct g; [now apply rep_greedy_some|now apply rep_lazy_some]).
    destruct Hw as (m & rest & -> & H1 & H2 & H3 & H4). now exists m, rest.
  - intros H. apply IH1 in H as (m1 & rest1 & -> & H1 & H).
    apply IH2 in H as (m2 & rest & -> & H2 & H).
    exists (m1 ++ m2), rest. repeat split.
    + now rewrite app_assoc.
    + now exists m1, m2.
    + now rewrite rev_app_distr, <- app_assoc.
  - destruct (rmatch U f r1 k prev s) eqn:E1.
    + intros [= <-]. apply IH1 in E1 as (m & rest & -> & H1 & H).
      exists m, rest. auto.
    + intros H. apply IH2 in H as (m & rest & -> & H2 & H).
      exists m, rest. auto.
  - destruct (rmatch U f r1 (fun _ s' => Some s') prev s) eqn:E1; [|discriminate].
    intros H. apply IH1 in E1 as (m' & rest' & -> & H1 & _).
    exists [], (m' ++ rest'). repeat split; auto. now exists m', rest'.
  - destruct (at_bol f prev) eqn:E; [|discriminate]. intros H. now exists [], s.
  - destruct (at_eol f s) eqn:E; [|discriminate]. intros H. now exists [], s.
  - destruct (at_wordb U prev s) eqn:E; [|discriminate]. intros H. now exists [], s.
Qed.

(** When the matcher fails, the continuation refuses every match of [r]
    at the position. *)
Theorem rmatch_complete (r : regex) : forall (k : cont) (prev s : str),
  rmatch U f r k prev s = None ->
  forall m rest, s = m ++ rest -> matches U f r prev m rest ->
                 k (rev m ++ prev) rest = None.
Proof.
  induction r as [|c|c lo hi g|r1 IH1 r2 IH2|r1 IH1 r2 IH2|r1 IH1| | |];
    intros k prev s; cbn [rmatch matches].
  - intros H m rest -> ->. exact H.
  - intros H m rest -> (x & -> & Hx). cbn in H. now rewrite Hx in H.
  - intros H m rest Es (H1 & H2 & H3).
    assert (Hn : no_way (set_match U f c) lo hi k prev s)
      by (destruct g; [now apply rep_greedy_none|now apply rep_lazy_none]).
    now apply Hn.
  - intros H m rest -> (m1 & m2 & -> & H1 & H2).
    rewrite rev_app_distr, <- app_assoc.
    apply (IH2 k (rev m1 ++ prev) (m2 ++ rest)); auto.
    apply (IH1 _ prev ((m1 ++ m2) ++ rest)); auto. now rewrite app_assoc.
  - destruct (rmatch U f r1 k prev s) eqn:E1; [discriminate|].
    intros H m rest Es [H1|H2]; [now apply (IH1 k prev s)|now apply (IH2 k prev s)].
  - destruct (rmatch U f r1 (fun _ s' => Some s') prev s) eqn:E1.
    + intros H m rest -> [-> _]. exact H.
    + intros _ m rest -> [-> (m' & rest' & -> & H1)].
      specialize (IH1 _ _ _ E1 m' rest' eq_refl H1). discriminate.
  - destruct (at_bol f prev) eqn:E.
    + intros H m rest -> [-> _]. exact H.
    + intros _ m rest _ [_ H]. congruence.
  - destruct (at_eol f s) eqn:E.
    + intros H m rest -> [-> _]. exact H.
    + intros _ m rest -> [-> H]. cbn in E. congruence.
  - destruct (at_wordb U prev s) eqn:E.
    + intros H m rest -> [-> _]. exact H.
    + intros _ m rest -> [-> H]. cbn in E. congruence.
Qed.

(** [re.search] succeeds exactly when the pattern occurs in the text. *)
Lemma search_from_occurs (r : regex) (s : str) : forall prev,
  search_from U f r prev s = true <->
  exists a m rest, s = a ++ m ++ rest /\ matches U f r (rev a ++ prev) m rest.
Proof.
  induction s as [|c s IH]; intros prev; cbn [search_from].
  - destruct (rmatch U f r (accept) prev []) eqn:E.
    + split; [intros _|reflexivity].
      apply rmatch_sound in E as (m & rest & Es & Hm & _).
      now exists [], m, rest.
    + split; [discriminate|]. intros (a & m & rest & Es & Hm).
      destruct a; [|discriminate]. cbn in Es, Hm.
      now specialize (rmatch_complete _ _ _ _ E m rest Es Hm).
  - destruct (rmatch U f r accept prev (c :: s)) eqn:E.
    + split; [intros _|reflexivity].
      apply rmatch_sound in E as (m & rest & Es & Hm & _).
      now exists [], m, rest.
    + rewrite IH. split.
      * intros (a & m & rest & -> & Hm). exists (c :: a), m, rest. split; [reflexivity|].
        now rewrite rev_cons_app.
      * intros (a & m & rest & Es & Hm). destruct a as [|c' a].
        { cbn in Es, Hm. now specialize (rmatch_complete _ _ _ _ E m rest Es Hm). }
        { cbn [app] in Es. injection Es as <- ->. exists a, m, rest.
          split; [reflexivity|]. now rewrite <- rev_cons_app. }
Qed.

Theorem re_search_occurs (r : regex) (s : str) :
  re_search U f r s = true <-> occurs U f r s.
Proof.
  unfold re_search, occurs. rewrite search_from_occurs.
  split; intros (a & m & rest & Es & Hm); exists a, m, rest; split; auto;
    now rewrite ?app_nil_r in *.
Qed.

End Adequacy.

(** ** The line classifier: [_ends_sentence] *)

Section EndsSentence.
Variable U : unicode_tables.

Lemma at_eol_noflag (rest : str) :
  at_eol NOFLAG rest = true <-> rest = [] \/ rest = [NL].
Proof.
  destruct rest as [|c [|d r]]; cbn.
  - tauto.
  - destruct (N.eqb_spec c NL) as [->|Hc]; cbn.
    + split; auto.
    + split; [discriminate|]. intros [H|[= H]]; [discriminate|contradiction].
  - rewrite andb_false_r. split; [discriminate|]. intros [H|H]; discriminate.
Qed.

Lemma at_eol_space (rest : str) :
  at_eol NOFLAG rest = true -> forallb isspace rest = true.
Proof. intros H. apply at_eol_noflag in H as [->| ->]; reflexivity. Qed.

Lemma set_match_chars (l : str) (x : char) :
  set_match U NOFLAG (map Ch l) x = true <-> In x l.
Proof.
  unfold set_match. rewrite existsb_exists. split.
  - intros (i & Hi & Hx). apply in_map_iff in Hi as (c & <- & Hc).
    cbn in Hx. apply N.eqb_eq in Hx. now subst.
  - intros H. exists (Ch x). split; [now apply in_map|]. cbn. apply N.eqb_refl.
Qed.

Lemma forallb_same (p q : char -> bool) (m : str) :
  (forall x, p x = q x) -> forallb p m = forallb q m.
Proof. intros H. induction m as [|x m IH]; [reflexivity|]. cbn. now rewrite H, IH. Qed.

Lemma forallb_space (f : flags) (m : str) :
  forallb (set_match U f [Space]) m = forallb isspace m.
Proof. apply forallb_same. intros x. cbn. apply orb_false_r. Qed.

Lemma forallb_digit (f : flags) (m : str) :
  forallb (set_match U f [Digit]) m = forallb (ch_isdecimal U) m.
Proof. apply forallb_same. intros x. cbn. apply orb_false_r. Qed.

Lemma forallb_az (m : str) :
  forallb (set_match U NOFLAG az) m = forallb ascii_islower m.
Proof. apply forallb_same. intros x. cbn. apply orb_false_r. Qed.


(** The first test of [_ends_sentence], [[.!?]\s*$] *)
Lemma terminal_search (line : str) :
  re_search U NOFLAG terminal_punctuation line = true <-> ends_terminal line.
Proof.
  rewrite re_search_occurs. unfold occurs, ends_terminal, terminal_punctuation.
  unfold star. cbn [seq matches]. split.
  - intros (a & m & rest & -> & m1 & m2 & -> & (x & -> & Hx) & m3 & m4 & ->
            & (H3 & _ & _) & -> & He).
    exists a, x, (m3 ++ rest). rewrite app_nil_r, <- app_assoc. split; [reflexivity|].
    split; [now apply set_match_chars|].
    rewrite forallb_space in H3. rewrite forallb_app, H3. now apply at_eol_space.
  - intros (pre & c & ws & -> & Hc & Hws).
    exists pre, (c :: ws), []. split; [now rewrite app_nil_r|].
    exists [c], ws. split; [reflexivity|]. split.
    + exists c. split; [reflexivity|]. now apply set_match_chars.
    + exists ws, []. split; [now rewrite app_nil_r|].
      split; [rewrite forallb_space; cbn; repeat split; auto; lia|].
      split; reflexivity.
Qed.

Lemma dot_cases (dot : str) :
  forallb (set_match U NOFLAG (ch ".")) dot = true /\ (List.length dot <= 1)%nat
  <-> dot = [] \/ dot = py ".".
Proof.
  split.
  - intros [H1 H2]. destruct dot as [|c [|d r]]; [now left| |cbn in H2; lia].
    right. cbn in H1. rewrite !orb_false_r, andb_true_r in H1.
    apply N.eqb_eq in H1. now subst.
  - intros [->| ->]; split; cbn; auto.
Qed.

(** The second test of [_ends_sentence], [\d{4}[a-z]?\)\s*\.?\s*$] *)
Lemma citation_search (line : str) :
  re_search U NOFLAG citation_end line = true <-> ends_citation U line.
Proof.
  rewrite re_search_occurs. unfold occurs, ends_citation, citation_end.
  unfold star, opt, times, lit.
  cbn [seq matches py py_chars list_ascii_of_string fold_right].
  split.
  - intros (a & m & rest & -> & year & m1 & -> & (Hy & Hy1 & Hy2)
            & letter & m2 & -> & (Hl & _ & Hl2)
            & p & m3 & -> & (p1 & p2 & -> & (x & -> & Hx) & ->)
            & ws1 & m4 & -> & (Hw1 & _ & _)
            & dot & m5 & -> & (Hd & _ & Hd2)
            & ws2 & m6 & -> & (Hw2 & _ & _) & -> & He).
    cbn in Hy2, Hl2, Hd2. cbn in Hx. rewrite orb_false_r in Hx.
    apply N.eqb_eq in Hx. subst x.
    exists a, year, letter, ws1, dot, (ws2 ++ rest).
    rewrite forallb_digit in Hy. rewrite forallb_az in Hl.
    rewrite forallb_space in Hw1, Hw2.
    repeat split; auto.
    + cbn. now flatten_apps.
    + lia.
    + now apply dot_cases.
    + rewrite forallb_app, Hw2. now apply at_eol_space.
  - intros (pre & year & letter & ws1 & dot & ws2 & -> & Hy1 & Hy & Hl1 & Hl & Hw1
            & Hd & Hw2).
    apply dot_cases in Hd as [Hd Hd2].
    exists pre, (year ++ letter ++ py ")" ++ ws1 ++ dot ++ ws2), [].
    split; [now rewrite app_nil_r|].
    exists year, (letter ++ py ")" ++ ws1 ++ dot ++ ws2). split; [reflexivity|].
    split; [rewrite forallb_digit; cbn; repeat split; auto; lia|].
    exists letter, (py ")" ++ ws1 ++ dot ++ ws2). split; [reflexivity|].
    split; [rewrite forallb_az; cbn; repeat split; auto; lia|].
    exists (py ")"), (ws1 ++ dot ++ ws2). split; [reflexivity|].
    split.
    { exists (py ")"), []. repeat split. exists 41%N. split; reflexivity. }
    exists ws1, (dot ++ ws2). split; [reflexivity|].
    split; [rewrite forallb_space; cbn; repeat split; auto; lia|].
    exists dot, ws2. split; [reflexivity|].
    split; [cbn; repeat split; auto; lia|].
    exists ws2, []. split; [now rewrite app_nil_r|].
    split; [rewrite forallb_space; cbn; repeat split; auto; lia|].
    split; reflexivity.
Qed.

End EndsSentence.



(** ** The page filter *)

Section PageFilter.
Variable U : unicode_tables.






Lemma text_parts_none (pages : list str) :
  (forall p, In p pages -> _is_skip_page U p = true \/ strip p = []) ->
  text_parts U pages = [].
Proof.
  induction pages as [|p pages IH]; intros H; [reflexivity|]. cbn [text_parts].
  destruct (H p (or_introl eq_refl)) as [Hs|Hb].
  - rewrite Hs. apply IH. intros q Hq. apply H. now right.
  - rewrite Hb. destruct (_is_skip_page U p); apply IH; intros q Hq; apply H; now right.
Qed.

Lemma clean_text_empty : clean_text U [] = [].
Proof. reflexivity. Qed.

End PageFilter.



(** C9. Graceful degradation: a document without pages, or whose pages
    are all whitespace only or all classified as pages to skip, is
    opened and then cleaned to the empty string, no error is raised;
    [clean_text] is a total function with [clean_text("") = ""]. *)
Theorem graceful_degradation (U : unicode_tables) (pages : list str) :
  (forall p, In p pages -> _is_skip_page U p = true \/ strip p = []) ->
  extract_text U (Opened pages) = Returns []
  /\ clean_text U [] = [].
Proof.
  intros H. split; [|exact (clean_text_empty U)].
  cbn [extract_text]. rewrite (text_parts_none U pages H). cbn [join].
  now rewrite clean_text_empty.
Qed.

Lemma graceful_degradation_witness :
  extract_text ascii_tables
    (Opened [ py "  \n\t "; py "You may also like\nSome other article" ])
  = Returns [].
Proof.
  apply graceful_degradation.
  intros p [<-|[<-|[]]]; [right|left]; vm_compute; reflexivity.
Defined.

(** ** Facts about strings: ends, neighbours, lines *)
Lemma rev_cons_head (c : char) (s : str) (q : char -> bool) :
  s <> [] -> head_is q (rev (c :: s)) = head_is q (rev s).
Proof.
  intros H. cbn [rev]. destruct (rev s) as [|x r] eqn:E.
  - apply (f_equal (@rev _)) in E. rewrite rev_involutive in E. contradiction.
  - reflexivity.
Qed.

Lemma link_cons (P : char -> char -> bool) (c : char) (a b : str) :
  a <> [] -> link P (c :: a) b = link P a b.
Proof.
  intros H. unfold link. cbn [rev]. destruct (rev a) as [|x r] eqn:E.
  - apply (f_equal (@rev _)) in E. rewrite rev_involutive in E. contradiction.
  - reflexivity.
Qed.

Lemma adjacent_app (P : char -> char -> bool) (a b : str) :
  adjacent P (a ++ b) = adjacent P a && adjacent P b && link P a b.
Proof.
  induction a as [|x a IH].
  - cbn. unfold link. cbn. now rewrite andb_true_r.
  - cbn [app adjacent]. rewrite IH. destruct a as [|y a].
    + unfold link. destruct b as [|c b]; [reflexivity|].
      cbn [app rev]. generalize (adjacent P (c :: b)). intros A.
      cbn. destruct (P x c), A; reflexivity.
    + rewrite (link_cons P x (y :: a) b) by discriminate. cbn [app].
      destruct (P x y), (adjacent P (y :: a)), (adjacent P b); reflexivity.
Qed.

(** strip *)
Lemma lstrip_split (s : str) : exists a, s = a ++ lstrip s /\ forallb isspace a = true.
Proof.
  induction s as [|c s (a & E & H)]; [now exists []|]. cbn [lstrip].
  destruct (isspace c) eqn:Ec.
  - exists (c :: a). cbn. now rewrite Ec, H, <- E.
  - now exists [].
Qed.

Lemma rstrip_split (s : str) : exists b, s = rstrip s ++ b /\ forallb isspace b = true.
Proof.
  induction s as [|c s (b & E & H)]; [now exists []|]. cbn [rstrip].
  destruct (rstrip s) as [|x r] eqn:Er.
  - cbn in E. subst b. destruct (isspace c) eqn:Ec.
    + exists (c :: s). cbn. now rewrite Ec, H.
    + exists s. now split.
  - exists b. split; [|exact H]. cbn [app] in *. now f_equal.
Qed.

Lemma lstrip_head (s : str) : head_is isspace (lstrip s) = false.
Proof.
  induction s as [|c s IH]; [reflexivity|]. cbn [lstrip].
  destruct (isspace c) eqn:Ec; [exact IH|]. cbn. exact Ec.
Qed.

Lemma rstrip_last (s : str) : head_is isspace (rev (rstrip s)) = false.
Proof.
  induction s as [|c s IH]; [reflexivity|]. cbn [rstrip].
  destruct (rstrip s) as [|x r] eqn:Er.
  - destruct (isspace c) eqn:Ec; [reflexivity|]. cbn. exact Ec.
  - rewrite rev_cons_head by discriminate. exact IH.
Qed.

Lemma rstrip_head (s : str) :
  head_is isspace s = false -> head_is isspace (rstrip s) = false.
Proof.
  destruct s as [|c s]; [reflexivity|]. cbn [head_is rstrip]. intros Hc.
  destruct (rstrip s); [rewrite Hc|]; cbn; exact Hc.
Qed.

Lemma strip_tight (s : str) : tight (strip s) = true.
Proof.
  unfold tight, strip. rewrite rstrip_last, (rstrip_head _ (lstrip_head s)). reflexivity.
Qed.

Lemma lstrip_id (s : str) : head_is isspace s = false -> lstrip s = s.
Proof. destruct s as [|c s]; [reflexivity|]. cbn. now intros ->. Qed.

Lemma rstrip_id (s : str) : head_is isspace (rev s) = false -> rstrip s = s.
Proof.
  induction s as [|c s IH]; [reflexivity|]. intros H. cbn [rstrip].
  destruct s as [|d s].
  - cbn in *. now rewrite H.
  - rewrite rev_cons_head in H by discriminate. rewrite (IH H). reflexivity.
Qed.

Lemma tight_strip (s : str) : tight s = true <-> strip s = s.
Proof.
  split.
  - unfold tight. intros H. apply andb_prop in H as [H1 H2].
    apply negb_true_iff in H1, H2. unfold strip. rewrite (lstrip_id _ H1).
    now apply rstrip_id.
  - intros <-. apply strip_tight.
Qed.

Lemma strip_parts (s : str) :
  exists a b, s = a ++ strip s ++ b /\ forallb isspace a = true /\ forallb isspace b = true.
Proof.
  destruct (lstrip_split s) as (a & Ea & Ha).
  destruct (rstrip_split (lstrip s)) as (b & Eb & Hb).
  exists a, b. unfold strip. now rewrite <- Eb, <- Ea.
Qed.

(** split and join *)
Lemma split_on_not_nil (sep : char) (s : str) : split_on sep s <> [].
Proof.
  induction s as [|c s IH]; [discriminate|]. cbn.
  destruct (N.eqb c sep); [discriminate|]. now destruct (split_on sep s).
Qed.

Lemma join_cons (sep l : str) (ls : list str) :
  ls <> [] -> join sep (l :: ls) = l ++ sep ++ join sep ls.
Proof. destruct ls; [contradiction|reflexivity]. Qed.

Lemma join_cons_head (sep : str) (c : char) (l : str) (ls : list str) :
  join sep ((c :: l) :: ls) = c :: join sep (l :: ls).
Proof. destruct ls; reflexivity. Qed.

Lemma join_split (s : str) : join [NL] (split_on NL s) = s.
Proof.
  induction s as [|c s IH]; [reflexivity|]. cbn [split_on].
  pose proof (split_on_not_nil NL s) as Hn.
  destruct (N.eqb_spec c NL) as [->|Hc].
  - rewrite (join_cons _ _ _ Hn), IH. reflexivity.
  - destruct (split_on NL s) as [|l ls] eqn:E; [contradiction|].
    now rewrite join_cons_head, IH.
Qed.

Lemma split_on_no_sep (s : str) : forall l, In l (split_on NL s) -> ~ In NL l.
Proof.
  induction s as [|c s IH]; intros l Hl.
  - cbn in Hl. destruct Hl as [<-|[]]. auto.
  - cbn [split_on] in Hl. destruct (N.eqb_spec c NL) as [->|Hc].
    + destruct Hl as [<-|Hl]; [auto|now apply IH].
    + destruct (split_on NL s) as [|l0 ls] eqn:E.
      * destruct Hl as [<-|[]]. intros [H|[]]. congruence.
      * destruct Hl as [<-|Hl].
        { intros [H|H]; [congruence|]. apply (IH l0); [now left|exact H]. }
        { apply IH. now right. }
Qed.

Lemma split_on_in (s : str) : forall l c, In l (split_on NL s) -> In c l -> In c s.
Proof.
  induction s as [|c0 s IH]; intros l c Hl Hc.
  - cbn in Hl. destruct Hl as [<-|[]]. destruct Hc.
  - cbn [split_on] in Hl. destruct (N.eqb_spec c0 NL) as [->|Hne].
    + destruct Hl as [<-|Hl]; [destruct Hc|]. right. now apply (IH l).
    + destruct (split_on NL s) as [|l0 ls] eqn:E.
      * destruct Hl as [<-|[]]. destruct Hc as [<-|[]]. now left.
      * destruct Hl as [<-|Hl].
        { destruct Hc as [<-|Hc]; [now left|]. right. apply (IH l0); [now left|exact Hc]. }
        { right. apply (IH l); [now right|exact Hc]. }
Qed.

(** ** [re.sub] on a pattern that is one repeated character set *)





Lemma span_len_le (p : char -> bool) (s : str) : (span_len p s <= List.length s)%nat.
Proof. induction s as [|x s IH]; cbn; [lia|]. destruct (p x); cbn; lia. Qed.

Lemma rep_greedy_run (p : char -> bool) (s : str) : forall lo prev,
  rep_greedy p lo None accept prev s
  = if (lo <=? span_len p s)%nat then Some (skipn (span_len p s) s) else None.
Proof.
  induction s as [|x s IH]; intros lo prev; cbn [rep_greedy span_len].
  - destruct lo; reflexivity.
  - cbn [hi_ok andb option_map]. destruct (p x) eqn:Ep.
    + rewrite IH. cbn [skipn].
      destruct (Nat.leb_spec (Nat.pred lo) (span_len p s)) as [H|H];
        destruct (Nat.leb_spec lo (S (span_len p s))) as [H'|H']; try lia; try reflexivity.
      destruct lo; [lia|reflexivity].
    + destruct lo; reflexivity.
Qed.

Section Runs.
Variable U : unicode_tables.
Variable f : flags.

Lemma match_at_run (c : cset) (lo : nat) (prev s : str) :
  (1 <= lo)%nat ->
  match_at U f (Rep c lo None true) prev s
  = if (lo <=? span_len (set_match U f c) s)%nat
    then Match (skipn (span_len (set_match U f c) s) s) else NoMatch.
Proof.
  intros Hlo. unfold match_at. cbn [rmatch]. rewrite rep_greedy_run.
  destruct (Nat.leb_spec lo (span_len (set_match U f c) s)) as [H|H]; [|reflexivity].
  pose proof (span_len_le (set_match U f c) s) as Hle.
  rewrite length_skipn.
  destruct (Nat.ltb_spec (List.length s - span_len (set_match U f c) s) (List.length s));
    [reflexivity|lia].
Qed.

Lemma sub_from_skip (r : regex) (repl : str) (s : str) : forall n prev,
  (n <= List.length s)%nat ->
  sub_from U f r repl n prev s
  = sub_from U f r repl O (rev (firstn n s) ++ prev) (skipn n s).
Proof.
  induction s as [|c s IH]; intros n prev Hn.
  - cbn in Hn. assert (n = O) by lia. subst. reflexivity.
  - destruct n as [|n]; [reflexivity|]. cbn [sub_from firstn skipn].
    cbn in Hn. rewrite IH by lia. now rewrite rev_cons_app.
Qed.

(** One step of [re.sub] for a pattern [c{lo,}]. *)
Lemma sub_from_run (c : cset) (lo : nat) (repl : str) (prev s : str) :
  (1 <= lo)%nat ->
  let n := span_len (set_match U f c) s in
  sub_from U f (Rep c lo None true) repl O prev s
  = match s with
    | [] => []
    | x :: s' =>
        if (lo <=? n)%nat
        then repl ++ sub_from U f (Rep c lo None true) repl O
                       (rev (firstn n s) ++ prev) (skipn n s)
        else x :: sub_from U f (Rep c lo None true) repl O (x :: prev) s'
    end.
Proof.
  intros Hlo n. destruct s as [|x s'].
  - cbn [sub_from]. rewrite match_at_run by exact Hlo. cbn.
    destruct lo; [lia|reflexivity].
  - cbn [sub_from]. rewrite match_at_run by exact Hlo. fold n.
    destruct (Nat.leb_spec lo n) as [H|H]; [|reflexivity].
    f_equal. pose proof (span_len_le (set_match U f c) (x :: s')) as Hle. fold n in Hle.
    destruct n as [|n]; [lia|]. cbn [skipn firstn]. cbn in Hle.
    rewrite sub_from_skip by (rewrite length_skipn; lia).
    rewrite length_skipn.
    replace (List.length s' - (List.length s' - n))%nat with n by lia.
    now rewrite rev_cons_app.
Qed.

End Runs.

Section Squeeze.
Variable U : unicode_tables.

Lemma nl_class (x : char) : set_match U NOFLAG [Ch NL] x = is_nl x.
Proof. cbn. apply orb_false_r. Qed.

Lemma blank_class (x : char) : set_match U NOFLAG [Ch SP; Ch TAB] x = is_blank x.
Proof. cbn. now rewrite orb_false_r. Qed.

Lemma span_len_ext (p q : char -> bool) (s : str) :
  (forall x, p x = q x) -> span_len p s = span_len q s.
Proof. intros H. induction s as [|x s IH]; [reflexivity|]. cbn. now rewrite H, IH. Qed.

Lemma startswith_nil (s : str) : startswith s [] = true.
Proof. destruct s; reflexivity. Qed.

Lemma startswith_nl2 (s : str) : startswith s [NL; NL] = (2 <=? span_len is_nl s)%nat.
Proof.
  destruct s as [|x [|y s]]; cbn [startswith span_len]; try reflexivity.
  - unfold is_nl. destruct (N.eqb x NL); reflexivity.
  - unfold is_nl. rewrite startswith_nil. destruct (N.eqb x NL); [|reflexivity].
    destruct (N.eqb y NL); reflexivity.
Qed.

Lemma squeeze_newlines_cons (c : char) (s : str) :
  squeeze_newlines (c :: s)
  = if (3 <=? span_len is_nl (c :: s))%nat then squeeze_newlines s
    else c :: squeeze_newlines s.
Proof.
  cbn [squeeze_newlines span_len]. rewrite startswith_nl2.
  destruct (is_nl c); reflexivity.
Qed.

Lemma squeeze_newlines_short (s : str) :
  (span_len is_nl s < 3)%nat ->
  squeeze_newlines s = firstn (span_len is_nl s) s ++ squeeze_newlines (skipn (span_len is_nl s) s).
Proof.
  induction s as [|c s IH]; [reflexivity|]. intros H.
  cbn [span_len] in *. destruct (is_nl c) eqn:Ec; [|reflexivity].
  rewrite squeeze_newlines_cons. cbn [span_len]. rewrite Ec.
  destruct (Nat.leb_spec 3 (S (span_len is_nl s))) as [H'|_]; [lia|].
  cbn [firstn skipn app]. rewrite IH by lia. reflexivity.
Qed.

Lemma firstn_span_nl (s : str) :
  firstn (span_len is_nl s) s = repeat NL (span_len is_nl s).
Proof.
  induction s as [|c s IH]; [reflexivity|]. cbn [span_len].
  destruct (is_nl c) eqn:Ec; [|reflexivity]. cbn. rewrite IH.
  apply N.eqb_eq in Ec. now subst.
Qed.

Lemma span_skipn (p : char -> bool) (s : str) : span_len p (skipn (span_len p s) s) = O.
Proof.
  induction s as [|c s IH]; [reflexivity|]. cbn [span_len].
  destruct (p c) eqn:Ec; [exact IH|]. cbn. now rewrite Ec.
Qed.

Lemma squeeze_newlines_run (s : str) :
  (3 <= span_len is_nl s)%nat ->
  squeeze_newlines s = NL :: NL :: squeeze_newlines (skipn (span_len is_nl s) s).
Proof.
  induction s as [|c s IH]; [cbn; lia|]. intros H.
  rewrite squeeze_newlines_cons.
  destruct (Nat.leb_spec 3 (span_len is_nl (c :: s))) as [_|H']; [|lia].
  cbn [span_len] in *. destruct (is_nl c) eqn:Ec; [|lia]. cbn [skipn].
  destruct (Nat.leb_spec 3 (span_len is_nl s)) as [H3|H3]; [now apply IH|].
  rewrite squeeze_newlines_short by lia. rewrite firstn_span_nl.
  replace (span_len is_nl s) with 2%nat by lia. reflexivity.
Qed.

Theorem normalize_newlines_squeeze (s : str) :
  normalize_newlines U s = squeeze_newlines s.
Proof.
  unfold normalize_newlines, re_sub, newlines3, at_least. generalize (@nil char) as prev.
  remember (List.length s) as n eqn:En. revert s En.
  induction n as [n IH] using lt_wf_ind. intros s En prev.
  rewrite sub_from_run by lia. cbn zeta.
  rewrite (span_len_ext _ is_nl s nl_class).
  destruct s as [|x s']; [reflexivity|].
  pose proof (span_len_le is_nl (x :: s')) as Hle. cbn [List.length] in *.
  destruct (Nat.leb_spec 3 (span_len is_nl (x :: s'))) as [H|H].
  - rewrite squeeze_newlines_run by exact H.
    rewrite (IH (List.length (skipn (span_len is_nl (x :: s')) (x :: s')))); [reflexivity| |reflexivity].
    rewrite length_skipn. cbn [List.length]. lia.
  - rewrite squeeze_newlines_cons.
    destruct (Nat.leb_spec 3 (span_len is_nl (x :: s'))) as [H'|_]; [lia|].
    rewrite (IH (List.length s')); [reflexivity|lia|reflexivity].
Qed.

Lemma squeeze_blanks_run (s : str) :
  (1 <= span_len is_blank s)%nat ->
  squeeze_blanks s = SP :: squeeze_blanks (skipn (span_len is_blank s) s).
Proof.
  induction s as [|c s IH]; [cbn; lia|]. intros H.
  cbn [span_len squeeze_blanks] in *. destruct (is_blank c) eqn:Ec; [|lia].
  cbn [skipn]. destruct s as [|d s]; [reflexivity|].
  cbn [head_is]. destruct (is_blank d) eqn:Ed.
  - apply IH. cbn. rewrite Ed. lia.
  - cbn [span_len]. rewrite Ed. reflexivity.
Qed.

Theorem collapse_spaces_squeeze (s : str) :
  collapse_spaces U s = squeeze_blanks s.
Proof.
  unfold collapse_spaces, re_sub, blanks, plus. generalize (@nil char) as prev.
  remember (List.length s) as n eqn:En. revert s En.
  induction n as [n IH] using lt_wf_ind. intros s En prev.
  rewrite sub_from_run by lia. cbn zeta.
  rewrite (span_len_ext _ is_blank s blank_class).
  destruct s as [|x s']; [reflexivity|].
  pose proof (span_len_le is_blank (x :: s')) as Hle. cbn [List.length] in *.
  destruct (Nat.leb_spec 1 (span_len is_blank (x :: s'))) as [H|H].
  - rewrite squeeze_blanks_run by exact H.
    rewrite (IH (List.length (skipn (span_len is_blank (x :: s')) (x :: s')))); [reflexivity| |reflexivity].
    rewrite length_skipn. cbn [List.length]. lia.
  - cbn [span_len squeeze_blanks] in *. destruct (is_blank x); [lia|].
    rewrite (IH (List.length s')); [reflexivity|lia|reflexivity].
Qed.

End Squeeze.


Lemma adjacent_cons (P : char -> char -> bool) (x : char) (s : str) :
  adjacent P (x :: s)
  = match hd_error s with Some y => P x y | None => true end && adjacent P s.
Proof. destruct s; reflexivity. Qed.

Lemma head_is_hd (q : char -> bool) (s : str) :
  head_is q s = match hd_error s with Some c => q c | None => false end.
Proof. destruct s; reflexivity. Qed.

Lemma adjacent_infix (P : char -> char -> bool) (a m b : str) :
  adjacent P (a ++ m ++ b) = true -> adjacent P m = true.
Proof.
  rewrite !adjacent_app. intros H.
  apply andb_prop in H as [H _]. apply andb_prop in H as [_ H].
  apply andb_prop in H as [H _]. now apply andb_prop in H as [H _].
Qed.

Lemma forallb_infix (q : char -> bool) (a m b : str) :
  forallb q (a ++ m ++ b) = true -> forallb q m = true.
Proof.
  rewrite !forallb_app. intros H. apply andb_prop in H as [_ H].
  now apply andb_prop in H as [H _].
Qed.

Lemma squeezed_infix (a m b : str) : squeezed (a ++ m ++ b) = true -> squeezed m = true.
Proof.
  unfold squeezed, no_tab. intros H. apply andb_prop in H as [H1 H2].
  apply andb_true_intro. split.
  - exact (forallb_infix _ a m b H1).
  - exact (adjacent_infix _ a m b H2).
Qed.

Section SqueezeFacts.

Lemma squeeze_newlines_hd (s : str) : hd_error (squeeze_newlines s) = hd_error s.
Proof.
  induction s as [|c s IH]; [reflexivity|]. cbn [squeeze_newlines].
  destruct (is_nl c && startswith s [NL; NL]) eqn:E; [|reflexivity].
  apply andb_prop in E as [Ec Es]. rewrite IH. apply N.eqb_eq in Ec. subst c.
  destruct s as [|d s]; [discriminate|]. cbn in Es. apply andb_prop in Es as [Ed _].
  apply N.eqb_eq in Ed. now subst.
Qed.

Lemma squeeze_newlines_adjacent (P : char -> char -> bool) (s : str) :
  adjacent P s = true -> adjacent P (squeeze_newlines s) = true.
Proof.
  induction s as [|c s IH]; [reflexivity|]. rewrite adjacent_cons. intros H.
  apply andb_prop in H as [H1 H2]. cbn [squeeze_newlines].
  destruct (is_nl c && startswith s [NL; NL]); [now apply IH|].
  rewrite adjacent_cons, squeeze_newlines_hd, H1. now apply IH.
Qed.

Lemma squeeze_newlines_nil (s : str) : squeeze_newlines s = [] -> s = [].
Proof.
  intros H. pose proof (squeeze_newlines_hd s) as E. rewrite H in E.
  destruct s; [reflexivity|discriminate].
Qed.

Lemma squeeze_newlines_last (q : char -> bool) (s : str) :
  head_is q (rev (squeeze_newlines s)) = head_is q (rev s).
Proof.
  induction s as [|c s IH]; [reflexivity|]. cbn [squeeze_newlines].
  destruct (is_nl c && startswith s [NL; NL]) eqn:E.
  - rewrite IH. destruct s as [|d s]; [destruct (is_nl c); discriminate|].
    now rewrite (rev_cons_head c (d :: s)) by discriminate.
  - destruct s as [|d s]; [reflexivity|].
    rewrite (rev_cons_head c (d :: s)) by discriminate.
    rewrite (rev_cons_head c (squeeze_newlines (d :: s))); [exact IH|].
    intros H. apply squeeze_newlines_nil in H. discriminate.
Qed.

Lemma squeeze_newlines_forallb (q : char -> bool) (s : str) :
  forallb q s = true -> forallb q (squeeze_newlines s) = true.
Proof.
  induction s as [|c s IH]; [reflexivity|]. cbn [forallb squeeze_newlines]. intros H.
  apply andb_prop in H as [H1 H2].
  destruct (is_nl c && startswith s [NL; NL]); [now apply IH|].
  cbn. now rewrite H1, IH.
Qed.

Lemma squeeze_newlines_starts (s : str) :
  startswith (squeeze_newlines s) [NL; NL] = true -> startswith s [NL; NL] = true.
Proof.
  destruct s as [|c s]; [discriminate|]. cbn [squeeze_newlines].
  destruct (is_nl c && startswith s [NL; NL]) eqn:E.
  - apply andb_prop in E as [Ec Es]. intros _. destruct s as [|d s]; [discriminate|].
    cbn in Es |- *. apply andb_prop in Es as [Ed _]. unfold is_nl in Ec.
    now rewrite Ec, Ed, startswith_nil.
  - cbn [startswith]. intros H. apply andb_prop in H as [Hc H]. rewrite Hc. cbn.
    pose proof (squeeze_newlines_hd s) as Eh.
    destruct (squeeze_newlines s) as [|d r]; [discriminate|].
    destruct s as [|d' s]; [discriminate|]. cbn in Eh. injection Eh as ->.
    cbn in H |- *. apply andb_prop in H as [Hd _]. now rewrite Hd, startswith_nil.
Qed.

Lemma squeeze_newlines_no_nl3 (s : str) : no_nl3 (squeeze_newlines s) = true.
Proof.
  induction s as [|c s IH]; [reflexivity|]. cbn [squeeze_newlines].
  destruct (is_nl c && startswith s [NL; NL]) eqn:E; [exact IH|].
  cbn [no_nl3]. rewrite IH, andb_true_r.
  destruct (is_nl c) eqn:Ec; [|reflexivity]. cbn in E |- *.
  destruct (startswith (squeeze_newlines s) [NL; NL]) eqn:Es; [|reflexivity].
  apply squeeze_newlines_starts in Es. congruence.
Qed.

Lemma squeeze_newlines_squeezed (s : str) :
  squeezed s = true -> squeezed (squeeze_newlines s) = true.
Proof.
  unfold squeezed, no_tab. intros H. apply andb_prop in H as [H1 H2].
  apply andb_true_intro. split.
  - now apply squeeze_newlines_forallb.
  - now apply squeeze_newlines_adjacent.
Qed.

Lemma squeeze_newlines_trimmed (s : str) :
  trimmed_lines s = true -> trimmed_lines (squeeze_newlines s) = true.
Proof.
  unfold trimmed_lines. intros H. apply andb_prop in H as [H H3].
  apply andb_prop in H as [H1 H2].
  rewrite squeeze_newlines_last, H2, (squeeze_newlines_adjacent _ _ H3).
  now rewrite head_is_hd, squeeze_newlines_hd, <- head_is_hd, H1.
Qed.

Lemma squeeze_blanks_head (s : str) :
  head_is (N.eqb SP) (squeeze_blanks s) = head_is is_blank s.
Proof.
  induction s as [|c s IH]; [reflexivity|]. cbn [squeeze_blanks head_is].
  destruct (is_blank c) eqn:Ec.
  - destruct (head_is is_blank s) eqn:Es; [now rewrite IH|reflexivity].
  - unfold is_blank in Ec. apply orb_false_elim in Ec as [Ec _]. cbn [head_is].
    now rewrite N.eqb_sym.
Qed.

Lemma squeeze_blanks_no_tab (s : str) : no_tab (squeeze_blanks s) = true.
Proof.
  induction s as [|c s IH]; [reflexivity|]. cbn [squeeze_blanks].
  destruct (is_blank c) eqn:Ec.
  - destruct (head_is is_blank s); [exact IH|]. cbn. exact IH.
  - unfold no_tab. cbn [forallb]. fold (no_tab (squeeze_blanks s)). rewrite IH.
    unfold is_blank in Ec. apply orb_false_elim in Ec as [_ Ec].
    unfold not_tab. now rewrite Ec.
Qed.

Lemma squeeze_blanks_adjacent (s : str) : adjacent sp_pair (squeeze_blanks s) = true.
Proof.
  induction s as [|c s IH]; [reflexivity|]. cbn [squeeze_blanks].
  destruct (is_blank c) eqn:Ec.
  - destruct (head_is is_blank s) eqn:Es; [exact IH|].
    rewrite adjacent_cons, IH, andb_true_r.
    rewrite <- squeeze_blanks_head in Es.
    destruct (squeeze_blanks s) as [|d r]; [reflexivity|]. cbn [head_is hd_error] in Es |- *.
    unfold sp_pair. rewrite N.eqb_sym in Es. now rewrite Es, andb_false_r.
  - rewrite adjacent_cons, IH, andb_true_r.
    unfold is_blank in Ec. apply orb_false_elim in Ec as [Ec _].
    destruct (hd_error (squeeze_blanks s)); [|reflexivity].
    unfold sp_pair. now rewrite Ec.
Qed.

Lemma squeeze_blanks_squeezed (s : str) : squeezed (squeeze_blanks s) = true.
Proof. unfold squeezed. now rewrite squeeze_blanks_no_tab, squeeze_blanks_adjacent. Qed.

End SqueezeFacts.

(** lines of a text *)
Lemma split_on_first (s : str) (l0 : str) (ls : list str) :
  split_on NL s = l0 :: ls ->
  (l0 = [] /\ (s = [] \/ exists t, s = NL :: t))
  \/ (exists x l t, l0 = x :: l /\ s = x :: t /\ x <> NL).
Proof.
  destruct s as [|c s]; cbn [split_on].
  - intros [= <- <-]. left. auto.
  - destruct (N.eqb_spec c NL) as [->|Hc].
    + intros [= <- <-]. left. split; [reflexivity|]. right. now exists s.
    + destruct (split_on NL s) as [|l ls']; intros [= <- <-]; right.
      * now exists c, [], s.
      * now exists c, l, s.
Qed.

Lemma split_on_parts (s : str) : forall l0 ls,
  split_on NL s = l0 :: ls ->
  (exists b, s = l0 ++ b) /\ (forall l, In l ls -> exists a b, s = a ++ l ++ b).
Proof.
  induction s as [|c s IH]; intros l0 ls; cbn [split_on].
  - intros [= <- <-]. split; [now exists []|]. intros l [].
  - pose proof (split_on_not_nil NL s) as Hn.
    destruct (split_on NL s) as [|l1 ls1] eqn:E; [contradiction|].
    destruct (IH l1 ls1 eq_refl) as [(b1 & Hb1) Hrest].
    destruct (N.eqb_spec c NL) as [->|Hc]; intros [= <- <-].
    + split; [now exists (NL :: s)|]. intros l [<-|Hl].
      * exists [NL], b1. cbn. now rewrite <- Hb1.
      * destruct (Hrest l Hl) as (a & b & Hab). exists (NL :: a), b. cbn. now rewrite <- Hab.
    + split; [exists b1; cbn; now rewrite <- Hb1|]. intros l Hl.
      destruct (Hrest l Hl) as (a & b & Hab). exists (c :: a), b. cbn. now rewrite <- Hab.
Qed.

Lemma split_on_infix (s l : str) :
  In l (split_on NL s) -> exists a b, s = a ++ l ++ b.
Proof.
  pose proof (split_on_not_nil NL s) as Hn.
  destruct (split_on NL s) as [|l0 ls] eqn:E; [contradiction|].
  destruct (split_on_parts s l0 ls E) as [(b & Hb) Hrest].
  intros [<-|Hl]; [now exists [], b|now apply Hrest].
Qed.

Lemma hsp_space (c : char) : hsp c = false -> c <> NL -> isspace c = false.
Proof.
  unfold hsp. intros H Hc. apply N.eqb_neq in Hc. rewrite Hc in H. cbn in H.
  now rewrite andb_true_r in H.
Qed.

Lemma space_hsp (c : char) : isspace c = false -> hsp c = false.
Proof. unfold hsp. now intros ->. Qed.

Lemma head_is_weaken (p q : char -> bool) (s : str) :
  (forall c, p c = false -> q c = false) -> head_is p s = false -> head_is q s = false.
Proof. destruct s; cbn; auto. Qed.

Lemma line_pair_nl_l (y : char) : line_pair NL y = negb (hsp y).
Proof. reflexivity. Qed.

Lemma line_pair_nl_r (x : char) : line_pair x NL = negb (hsp x).
Proof. unfold line_pair. cbn. now rewrite andb_true_r, andb_false_r, andb_true_r. Qed.

Lemma lines_right_tight (s : str) :
  head_is hsp (rev s) = false -> adjacent line_pair s = true ->
  forall l0 ls, split_on NL s = l0 :: ls ->
    head_is isspace (rev l0) = false /\ Forall (fun l => tight l = true) ls.
Proof.
  induction s as [|c s IH]; intros Hlast Hadj l0 ls; cbn [split_on].
  - intros [= <- <-]. auto.
  - pose proof (split_on_not_nil NL s) as Hn.
    destruct (split_on NL s) as [|l1 ls1] eqn:E; [contradiction|].
    rewrite adjacent_cons in Hadj. apply andb_prop in Hadj as [Hp Hadj].
    assert (Hlast' : head_is hsp (rev s) = false).
    { destruct s as [|d s]; [reflexivity|].
      now rewrite (rev_cons_head c (d :: s)) in Hlast by discriminate. }
    destruct (IH Hlast' Hadj l1 ls1 eq_refl) as [Hr1 Hls1].
    destruct (split_on_first s l1 ls1 E) as [[-> Hs]|(x & l & t & -> & -> & Hx)].
    + (* the next line is empty *)
      destruct (N.eqb_spec c NL) as [->|Hc]; intros [= <- <-].
      * split; [reflexivity|]. constructor; [reflexivity|exact Hls1].
      * split; [|exact Hls1]. cbn. apply hsp_space; [|exact Hc].
        destruct Hs as [->|(t & ->)]; [exact Hlast|].
        cbn in Hp. rewrite line_pair_nl_r in Hp. now apply negb_true_iff in Hp.
    + cbn in Hp.
      destruct (N.eqb_spec c NL) as [->|Hc]; intros [= <- <-].
      * split; [reflexivity|]. constructor; [|exact Hls1].
        unfold tight. rewrite Hr1. cbn. rewrite line_pair_nl_l in Hp.
        apply negb_true_iff in Hp. now rewrite (hsp_space x Hp Hx).
      * split; [|exact Hls1]. now rewrite (rev_cons_head c (x :: l)) by discriminate.
Qed.

Lemma trimmed_lines_tight (s : str) :
  trimmed_lines s = true -> forall l, In l (split_on NL s) -> tight l = true.
Proof.
  unfold trimmed_lines. intros H. apply andb_prop in H as [H H3].
  apply andb_prop in H as [H1 H2]. apply negb_true_iff in H1, H2.
  pose proof (split_on_not_nil NL s) as Hn.
  destruct (split_on NL s) as [|l0 ls] eqn:E; [contradiction|].
  destruct (lines_right_tight s H2 H3 l0 ls E) as [Hr Hls].
  intros l [<-|Hl].
  - unfold tight. rewrite Hr.
    destruct (split_on_first s l0 ls E) as [[-> _]|(x & l & t & -> & -> & Hx)];
      [reflexivity|].
    cbn in H1 |- *. now rewrite (hsp_space x H1 Hx).
  - rewrite Forall_forall in Hls. now apply Hls.
Qed.

Lemma strip_lines_id (s : str) : trimmed_lines s = true -> strip_lines s = s.
Proof.
  intros H. unfold strip_lines. rewrite <- (join_split s) at 2. f_equal.
  rewrite <- (map_id (split_on NL s)) at 2. apply map_ext_in.
  intros l Hl. apply tight_strip. now apply (trimmed_lines_tight s).
Qed.


Lemma good_line_parts (l : str) :
  good_line l = true <-> tight l = true /\ squeezed l = true /\ nl_free l = true.
Proof.
  unfold good_line. rewrite !andb_true_iff. tauto.
Qed.

Lemma nl_free_line_pair (l : str) : nl_free l = true -> adjacent line_pair l = true.
Proof.
  induction l as [|x l IH]; [reflexivity|]. unfold nl_free. cbn [forallb]. intros H.
  apply andb_prop in H as [Hx Hl]. rewrite adjacent_cons, (IH Hl), andb_true_r.
  destruct l as [|y l]; [reflexivity|]. cbn [hd_error]. cbn [forallb] in Hl.
  apply andb_prop in Hl as [Hy _]. unfold not_nl, is_nl in Hx, Hy.
  apply negb_true_iff in Hx, Hy. unfold line_pair. now rewrite Hx, Hy, andb_false_r.
Qed.

Lemma join_hd_nl (l : str) (ls : list str) :
  hd_error (join [NL] (l :: ls))
  = match l with
    | c :: _ => Some c
    | [] => match ls with [] => None | _ => Some NL end
    end.
Proof. destruct l, ls; reflexivity. Qed.

Lemma rev_not_nil (s : str) : s <> [] -> rev s <> [].
Proof.
  intros H E. apply (f_equal (@rev _)) in E. rewrite rev_involutive in E. contradiction.
Qed.

Lemma head_rev_app (q : char -> bool) (a b : str) :
  b <> [] -> head_is q (rev (a ++ b)) = head_is q (rev b).
Proof.
  intros H. rewrite rev_app_distr. apply rev_not_nil in H.
  now destruct (rev b).
Qed.

(** The text made of tight lines without newline has trimmed lines. *)
Lemma join_trimmed (ls : list str) :
  ls <> [] -> Forall (fun l => good_line l = true) ls ->
  let t := join [NL] ls in
  adjacent line_pair t = true /\ head_is hsp t = false /\ head_is hsp (rev t) = false.
Proof.
  induction ls as [|l ls IH]; [contradiction|]. intros _ H.
  apply Forall_cons_iff in H as [Hl H]. apply good_line_parts in Hl as (Ht & _ & Hn).
  unfold tight in Ht. apply andb_prop in Ht as [Hh Hr]. apply negb_true_iff in Hh, Hr.
  destruct ls as [|l' ls].
  - cbn [join]. split; [now apply nl_free_line_pair|].
    split; [exact (head_is_weaken isspace hsp l space_hsp Hh)
           |exact (head_is_weaken isspace hsp (rev l) space_hsp Hr)].
  - destruct (IH ltac:(discriminate) H) as (Ha & Hb & Hc).
    rewrite join_cons by discriminate. cbn zeta.
    set (t := join [NL] (l' :: ls)) in *. split; [|split].
    + rewrite adjacent_app. cbn [app]. rewrite adjacent_cons, Ha, andb_true_r.
      rewrite (nl_free_line_pair l Hn). cbn [andb].
      apply andb_true_intro. split.
      * rewrite head_is_hd in Hb. destruct (hd_error t); [|reflexivity].
        rewrite line_pair_nl_l. now rewrite Hb.
      * unfold link. destruct (rev l) as [|x r]; [reflexivity|]. cbn in Hr.
        rewrite line_pair_nl_r. now rewrite (space_hsp x Hr).
    + destruct l as [|x l]; [reflexivity|]. cbn in Hh |- *. now apply space_hsp.
    + cbn [app]. rewrite head_rev_app by discriminate.
      destruct t as [|y t'] eqn:Et; [reflexivity|].
      now rewrite (rev_cons_head NL (y :: t')) by discriminate.
Qed.

Lemma join_trimmed_lines (ls : list str) :
  Forall (fun l => good_line l = true) ls -> trimmed_lines (join [NL] ls) = true.
Proof.
  intros H. destruct ls as [|l ls]; [reflexivity|].
  destruct (join_trimmed (l :: ls) ltac:(discriminate) H) as (Ha & Hb & Hc).
  unfold trimmed_lines. now rewrite Ha, Hb, Hc.
Qed.

Lemma sp_pair_nl_l (y : char) : sp_pair NL y = true.
Proof. reflexivity. Qed.

Lemma sp_pair_nl_r (x : char) : sp_pair x NL = true.
Proof. unfold sp_pair. cbn. now rewrite andb_false_r. Qed.

Lemma join_squeezed (ls : list str) :
  Forall (fun l => good_line l = true) ls -> squeezed (join [NL] ls) = true.
Proof.
  induction ls as [|l ls IH]; [reflexivity|]. intros H.
  apply Forall_cons_iff in H as [Hl H]. apply good_line_parts in Hl as (_ & Hs & _).
  destruct ls as [|l' ls]; [exact Hs|].
  specialize (IH H). rewrite join_cons by discriminate.
  set (t := join [NL] (l' :: ls)) in *. unfold squeezed in *.
  apply andb_prop in Hs as [Hs1 Hs2]. apply andb_prop in IH as [IH1 IH2].
  apply andb_true_intro. split.
  - unfold no_tab in *. rewrite forallb_app, Hs1. cbn. exact IH1.
  - rewrite adjacent_app. cbn [app]. rewrite adjacent_cons, Hs2, IH2.
    unfold link. destruct (hd_error t), (rev l); cbn; now rewrite ?sp_pair_nl_r.
Qed.

Lemma strip_squeezed (s : str) : squeezed s = true -> squeezed (strip s) = true.
Proof.
  destruct (strip_parts s) as (a & b & E & _). intros H. rewrite E in H.
  exact (squeezed_infix a (strip s) b H).
Qed.

Lemma strip_nl_free (s : str) : nl_free s = true -> nl_free (strip s) = true.
Proof.
  destruct (strip_parts s) as (a & b & E & _). intros H. rewrite E in H.
  exact (forallb_infix _ a (strip s) b H).
Qed.

Lemma good_line_strip (s : str) :
  squeezed s = true -> nl_free s = true -> good_line (strip s) = true.
Proof.
  intros H1 H2. apply good_line_parts.
  auto using strip_tight, strip_squeezed, strip_nl_free.
Qed.

Lemma strip_trimmed_lines (s : str) :
  adjacent line_pair s = true -> trimmed_lines (strip s) = true.
Proof.
  intros H. destruct (strip_parts s) as (a & b & E & _). rewrite E in H.
  apply adjacent_infix in H. pose proof (strip_tight s) as Ht. unfold tight in Ht.
  apply andb_prop in Ht as [H1 H2]. apply negb_true_iff in H1, H2.
  unfold trimmed_lines.
  now rewrite (head_is_weaken isspace hsp _ space_hsp H1),
              (head_is_weaken isspace hsp _ space_hsp H2), H.
Qed.

(** the two joins *)
Lemma endswith_last (s : str) (c : char) :
  endswith s [c] = true -> exists stem, s = stem ++ [c].
Proof.
  unfold endswith. cbn [rev app]. destruct (rev s) as [|x r] eqn:E; [discriminate|].
  cbn. rewrite startswith_nil, andb_true_r. intros Hx. apply N.eqb_eq in Hx. subst x.
  exists (rev r). apply (f_equal (@rev _)) in E. rewrite rev_involutive in E.
  exact E.
Qed.

Lemma sp_pair_not_space_r (x y : char) : isspace y = false -> sp_pair x y = true.
Proof.
  intros H. unfold sp_pair. destruct (N.eqb_spec y SP) as [->|_]; [discriminate|].
  now rewrite andb_false_r.
Qed.

Lemma sp_pair_not_space_l (x y : char) : isspace x = false -> sp_pair x y = true.
Proof.
  intros H. unfold sp_pair. destruct (N.eqb_spec x SP) as [->|_]; [discriminate|].
  reflexivity.
Qed.

Lemma tight_app (a b : str) :
  a <> [] -> b <> [] -> head_is isspace a = false -> head_is isspace (rev b) = false ->
  tight (a ++ b) = true.
Proof.
  intros Ha Hb H1 H2. unfold tight. rewrite head_rev_app, H2 by exact Hb.
  destruct a; [contradiction|]. cbn in *. now rewrite H1.
Qed.

Lemma good_join_space (a b : str) :
  a <> [] -> b <> [] -> good_line a = true -> good_line b = true ->
  good_line (a ++ py " " ++ b) = true.
Proof.
  intros Ha Hb Ga Gb.
  apply good_line_parts in Ga as (Ta & Sa & Na). apply good_line_parts in Gb as (Tb & Sb & Nb).
  unfold tight in Ta, Tb. apply andb_prop in Ta as [Ta1 Ta2]. apply andb_prop in Tb as [Tb1 Tb2].
  apply negb_true_iff in Ta1, Ta2, Tb1, Tb2.
  unfold squeezed in Sa, Sb. apply andb_prop in Sa as [Sa1 Sa2]. apply andb_prop in Sb as [Sb1 Sb2].
  change (py " ") with [SP]. apply good_line_parts. split; [|split].
  - apply tight_app; auto; [discriminate|].
    cbn [app]. now rewrite (rev_cons_head SP b).
  - unfold squeezed. apply andb_true_intro. split.
    + unfold no_tab in *. rewrite !forallb_app, Sa1, Sb1. reflexivity.
    + rewrite adjacent_app. cbn [app]. rewrite adjacent_cons, Sa2, Sb2.
      destruct b as [|y b]; [contradiction|]. cbn [hd_error] in *. cbn in Tb1.
      rewrite (sp_pair_not_space_r SP y Tb1). cbn [andb]. unfold link.
      destruct (rev a) as [|x r]; [reflexivity|]. cbn in Ta2.
      now apply sp_pair_not_space_l.
  - unfold nl_free in *. rewrite !forallb_app, Na, Nb. reflexivity.
Qed.

Lemma good_join_hyphen (a b : str) :
  word_break a = true -> b <> [] -> good_line a = true -> good_line b = true ->
  good_line (removelast a ++ b) = true.
Proof.
  intros Hw Hb Ga Gb. unfold word_break in Hw. apply andb_prop in Hw as [Hw _].
  change (py "-") with [45%N] in Hw. apply endswith_last in Hw as (stem & ->).
  rewrite removelast_last.
  apply good_line_parts in Ga as (Ta & Sa & Na). apply good_line_parts in Gb as (Tb & Sb & Nb).
  unfold tight in Ta, Tb. apply andb_prop in Ta as [Ta1 _]. apply andb_prop in Tb as [Tb1 Tb2].
  apply negb_true_iff in Ta1, Tb1, Tb2.
  unfold squeezed in Sa, Sb. apply andb_prop in Sa as [Sa1 Sa2]. apply andb_prop in Sb as [Sb1 Sb2].
  unfold no_tab in Sa1. rewrite forallb_app in Sa1. apply andb_prop in Sa1 as [Sa1 _].
  unfold nl_free in Na. rewrite forallb_app in Na. apply andb_prop in Na as [Na _].
  rewrite adjacent_app in Sa2. apply andb_prop in Sa2 as [Sa2 _].
  apply andb_prop in Sa2 as [Sa2 _].
  apply good_line_parts. split; [|split].
  - destruct stem as [|x stem].
    + cbn [app]. unfold tight. now rewrite Tb1, Tb2.
    + apply tight_app; auto. discriminate.
  - unfold squeezed. apply andb_true_intro. split.
    + unfold no_tab in *. now rewrite forallb_app, Sa1, Sb1.
    + rewrite adjacent_app, Sa2, Sb2. cbn [andb]. unfold link.
      destruct b as [|y b]; [contradiction|]. cbn in Tb1.
      destruct (rev stem); [reflexivity|]. now apply sp_pair_not_space_r.
  - unfold nl_free in *. now rewrite forallb_app, Na, Nb.
Qed.

Section RejoinInvariant.
Variable U : unicode_tables.

Lemma join_or_stop_good (line next_line l : str) :
  join_or_stop U line next_line = Some l -> next_line <> [] ->
  good_line line = true -> good_line next_line = true -> good_line l = true.
Proof.
  unfold join_or_stop. intros H Hn Gl Gn.
  destruct (_is_heading U line); [discriminate|].
  destruct (_is_heading U next_line); [discriminate|].
  destruct (word_break line) eqn:Ew.
  - injection H as <-. now apply good_join_hyphen.
  - destruct (_ends_sentence U line) eqn:Ee; [discriminate|]. injection H as <-.
    apply good_join_space; auto. intros ->. discriminate.
Qed.


Lemma rejoin_from_good : forall (k : nat) (rest : list str) (line : str),
  (List.length rest <= k)%nat ->
  good_line line = true -> Forall good_input rest ->
  Forall (fun l => good_line l = true) (rejoin_from U line rest).
Proof.
  induction k as [|k IH]; intros rest line Hk Gl Hr.
  - destruct rest; [|cbn in Hk; lia]. cbn. auto.
  - destruct rest as [|next rest1]; [cbn; auto|].
    cbn in Hk. apply Forall_cons_iff in Hr as [[Hn1 Hn2] Hr1].
    pose proof (good_line_strip next Hn1 Hn2) as Gn.
    destruct (strip next) as [|c t] eqn:En.
    + destruct rest1 as [|after rest2].
      * rewrite (rejoin_from_blank_last U _ _ En). auto.
      * pose proof Hr1 as Hr1'. apply Forall_cons_iff in Hr1' as [[Ha1 Ha2] Hr2].
        pose proof (good_line_strip after Ha1 Ha2) as Ga. cbn in Hk.
        destruct (bridges U line (strip after)) eqn:Eb.
        { rewrite (rejoin_from_blank_bridge U _ _ _ _ En Eb).
          destruct (join_or_stop U line (strip after)) as [l|] eqn:Ej.
          - apply IH; [lia| |exact Hr2].
            apply (join_or_stop_good _ _ _ Ej); auto.
            intros E. rewrite E in Eb. discriminate.
          - constructor; [exact Gl|]. apply IH; [lia|exact Ga|exact Hr2]. }
        { rewrite (rejoin_from_blank_stop U _ _ _ _ En Eb).
          constructor; [exact Gl|]. apply IH; [cbn; lia|reflexivity|exact Hr1]. }
    + assert (Hne : strip next <> []) by (rewrite En; discriminate).
      rewrite (rejoin_from_next U _ _ _ Hne). rewrite En in *.
      destruct (join_or_stop U line (c :: t)) as [l|] eqn:Ej.
      * apply IH; [lia| |exact Hr1]. apply (join_or_stop_good _ _ _ Ej); auto.
      * constructor; [exact Gl|]. apply IH; [lia|exact Gn|exact Hr1].
Qed.

Lemma rejoin_lines_good (text : str) :
  squeezed text = true ->
  Forall (fun l => good_line l = true) (rejoin_lines U (split_on NL text)).
Proof.
  intros Hs.
  assert (Hin : Forall good_input (split_on NL text)).
  { apply Forall_forall. intros l Hl. split.
    - destruct (split_on_infix text l Hl) as (a & b & E). rewrite E in Hs.
      exact (squeezed_infix a l b Hs).
    - apply forallb_forall. intros c Hc. unfold not_nl, is_nl.
      apply negb_true_iff, N.eqb_neq. intros ->. exact (split_on_no_sep text l Hl Hc). }
  destruct (split_on NL text) as [|l rest]; [constructor|].
  apply Forall_cons_iff in Hin as [[H1 H2] Hrest]. cbn [rejoin_lines].
  apply (rejoin_from_good (List.length rest)); auto using good_line_strip.
Qed.

End RejoinInvariant.


(** ** The whitespace of the cleaned text *)

Lemma no_nl3_spec (s : str) :
  no_nl3 s = true -> forall a b, s <> a ++ [NL; NL; NL] ++ b.
Proof.
  intros H a. revert s H. induction a as [|x a IH]; intros s H b E; subst s.
  - destruct b; discriminate H.
  - cbn [app no_nl3] in H. apply andb_prop in H as [_ H]. now apply (IH _ H b).
Qed.

Lemma squeezed_spec (s : str) :
  squeezed s = true -> ~ In TAB s /\ forall a b, s <> a ++ [SP; SP] ++ b.
Proof.
  unfold squeezed. intros H. apply andb_prop in H as [H1 H2]. split.
  - intros Hin. unfold no_tab in H1. rewrite forallb_forall in H1.
    specialize (H1 TAB Hin). discriminate.
  - intros a b E. rewrite E in H2. apply adjacent_infix in H2. discriminate.
Qed.

Lemma endswith_nl (s : str) : endswith s [NL] = head_is is_nl (rev s).
Proof.
  unfold endswith. cbn [rev app]. destruct (rev s) as [|x r]; [reflexivity|].
  cbn. now rewrite startswith_nil, andb_true_r.
Qed.

Lemma startswith_nl (s : str) : startswith s [NL] = head_is is_nl s.
Proof. destruct s as [|x r]; [reflexivity|]. cbn. now rewrite startswith_nil, andb_true_r. Qed.

Lemma tight_no_nl (s : str) :
  tight s = true -> startswith s [NL] = false /\ endswith s [NL] = false.
Proof.
  unfold tight. intros H. apply andb_prop in H as [H1 H2]. apply negb_true_iff in H1, H2.
  rewrite startswith_nl, endswith_nl.
  assert (Hw : forall c, isspace c = false -> is_nl c = false).
  { intros c Hc. unfold is_nl. destruct (N.eqb_spec c NL) as [->|]; [discriminate|reflexivity]. }
  split; [exact (head_is_weaken isspace is_nl s Hw H1)
         |exact (head_is_weaken isspace is_nl (rev s) Hw H2)].
Qed.

Section Output.
Variable U : unicode_tables.


Lemma normalized_facts (t : str) :
  squeezed (normalized U t) = true /\ trimmed_lines (normalized U t) = true
  /\ no_nl3 (normalized U t) = true.
Proof.
  unfold normalized. rewrite !normalize_newlines_squeeze, collapse_spaces_squeeze.
  unfold _rejoin_broken_lines. change (py "\n") with [NL].
  pose proof (rejoin_lines_good U _
                (squeeze_newlines_squeezed _ (squeeze_blanks_squeezed t))) as Hg.
  split; [|split].
  - apply squeeze_newlines_squeezed. now apply join_squeezed.
  - apply squeeze_newlines_trimmed. now apply join_trimmed_lines.
  - apply squeeze_newlines_no_nl3.
Qed.

Lemma clean_text_normalized (text : str) :
  clean_text U text
  = strip (normalized U (remove_page_numbers U (remove_patterns U (remove_blocks U
             (fix_ligatures text))))).
Proof.
  unfold clean_text. cbn zeta. fold (normalized U (remove_page_numbers U (remove_patterns U
    (remove_blocks U (fix_ligatures text))))).
  destruct (normalized_facts (remove_page_numbers U (remove_patterns U (remove_blocks U
             (fix_ligatures text))))) as (_ & Ht & _).
  now rewrite (strip_lines_id _ Ht).
Qed.

Lemma clean_text_facts (text : str) :
  squeezed (clean_text U text) = true /\ trimmed_lines (clean_text U text) = true
  /\ tight (clean_text U text) = true
  /\ forall a b, clean_text U text <> a ++ [NL; NL; NL] ++ b.
Proof.
  rewrite clean_text_normalized.
  set (n := normalized U _). destruct (normalized_facts
    (remove_page_numbers U (remove_patterns U (remove_blocks U (fix_ligatures text)))))
    as (Hs & Ht & Hn). fold n in Hs, Ht, Hn.
  split; [now apply strip_squeezed|]. split; [|split; [apply strip_tight|]].
  - apply strip_trimmed_lines. unfold trimmed_lines in Ht.
    now apply andb_prop in Ht as [_ Ht].
  - intros a b E. destruct (strip_parts n) as (a0 & b0 & En & _).
    apply (no_nl3_spec n Hn (a0 ++ a) (b ++ b0)). rewrite En at 1. rewrite E.
    now rewrite <- !app_assoc.
Qed.

End Output.

(** C10. The text returned by [clean_text] contains no tab and no two
    consecutive spaces, and every line of it is free of whitespace at
    both ends: the runs of spaces and tabs are collapsed before the
    rejoiner runs, the rejoiner puts one space between two trimmed
    pieces or none, and the last stages only trim. *)
Theorem clean_text_whitespace (U : unicode_tables) (text : str) :
  ~ In TAB (clean_text U text)
  /\ (forall a b, clean_text U text <> a ++ py "  " ++ b)
  /\ (forall line, In line (split_on NL (clean_text U text)) -> strip line = line).
Proof.
  destruct (clean_text_facts U text) as (Hs & Ht & _ & _).
  destruct (squeezed_spec _ Hs) as [H1 H2]. split; [exact H1|]. split; [exact H2|].
  intros line Hl. apply tight_strip. exact (trimmed_lines_tight _ Ht line Hl).
Qed.

Lemma clean_text_whitespace_witness :
  strip (py "slowly.") = py "slowly.".
Proof.
  apply (proj2 (proj2 (clean_text_whitespace ascii_tables
                         (py "Dunes  migrate\t \n slowly. \n\n")))).
  vm_compute. tauto.
Defined.

Lemma span_repeat_nl (k : nat) (b : str) :
  head_is is_nl b = false -> span_len is_nl (repeat NL k ++ b) = k.
Proof.
  intros H. induction k as [|k IH]; cbn.
  - destruct b as [|x b]; [reflexivity|]. cbn in H |- *. now rewrite H.
  - now rewrite IH.
Qed.

Lemma skipn_repeat_app (k : nat) (b : str) : skipn k (repeat NL k ++ b) = b.
Proof. induction k as [|k IH]; [reflexivity|exact IH]. Qed.

Lemma squeeze_newlines_app (a x : str) :
  head_is is_nl (rev a) = false ->
  squeeze_newlines (a ++ x) = squeeze_newlines a ++ squeeze_newlines x.
Proof.
  induction a as [|c a IH]; [reflexivity|]. intros H.
  assert (Ha : head_is is_nl (rev a) = false).
  { destruct a as [|d a]; [reflexivity|].
    now rewrite (rev_cons_head c (d :: a)) in H by discriminate. }
  cbn [app squeeze_newlines]. rewrite (IH Ha).
  assert (E : is_nl c && startswith (a ++ x) [NL; NL] = is_nl c && startswith a [NL; NL]).
  { destruct (is_nl c) eqn:Ec; [|reflexivity]. cbn [andb].
    destruct a as [|d a]; [cbn in H; congruence|].
    cbn [app startswith]. destruct (N.eqb_spec d NL) as [->|_]; [|reflexivity].
    cbn [andb]. destruct a as [|e a]; [cbn in Ha; discriminate|].
    cbn [app startswith]. now rewrite !startswith_nil. }
  rewrite E. now destruct (is_nl c && startswith a [NL; NL]).
Qed.

Lemma squeeze_newlines_between (a b : str) (k : nat) :
  (3 <= k)%nat -> endswith a [NL] = false -> startswith b [NL] = false ->
  squeeze_newlines (a ++ repeat NL k ++ b)
  = squeeze_newlines a ++ [NL; NL] ++ squeeze_newlines b.
Proof.
  rewrite endswith_nl, startswith_nl. intros Hk Ha Hb.
  rewrite (squeeze_newlines_app a _ Ha). f_equal.
  rewrite squeeze_newlines_run; rewrite (span_repeat_nl k b Hb); [|exact Hk].
  now rewrite skipn_repeat_app.
Qed.

(** C6, as amended. The normalisation of the newlines, which runs
    before and after the rejoiner, replaces a run of three or more
    newlines between two pieces of text by exactly two newlines, one
    blank line.  The text returned by [clean_text] has no three
    newlines in a row, so at most one blank line between paragraphs,
    and no whitespace, so no blank line, at its start or end.  (Between
    the two normalisations the rejoiner may bridge the blank line: what
    is left of the run is then one space.) *)
Theorem newline_normalization (U : unicode_tables) :
  (forall a b k, (3 <= k)%nat -> endswith a (py "\n") = false ->
     startswith b (py "\n") = false ->
     normalize_newlines U (a ++ repeat NL k ++ b)
     = normalize_newlines U a ++ py "\n\n" ++ normalize_newlines U b)
  /\ (forall text,
        (forall a b, clean_text U text <> a ++ py "\n\n\n" ++ b)
        /\ strip (clean_text U text) = clean_text U text
        /\ startswith (clean_text U text) (py "\n") = false
        /\ endswith (clean_text U text)  (py "\n") = false).
Proof.
  split.
  - intros a b k Hk Ha Hb. rewrite !normalize_newlines_squeeze.
    now apply squeeze_newlines_between.
  - intros text. destruct (clean_text_facts U text) as (_ & _ & Ht & Hn).
    split; [exact Hn|]. split; [apply tight_strip; exact Ht|]. apply tight_no_nl; exact Ht.
Qed.

Lemma newline_normalization_witness :
  normalize_newlines ascii_tables (py "Dunes migrate." ++ repeat NL 5 ++ py "They grow.")
  = py "Dunes migrate.\n\nThey grow.".
Proof.
  refine (eq_trans (proj1 (newline_normalization ascii_tables)
                      (py "Dunes migrate.") (py "They grow.") 5%nat _ _ _) _);
    vm_compute; try reflexivity. lia.
Defined.

(** The claim C6 as it is stated is about the final output: there the run
    of four newlines leaves no blank line when the rejoiner bridges it. *)
Lemma newline_normalization_counterexample :
  clean_text ascii_tables (py "the dunes\n\n\n\nmigrate.") = py "the dunes migrate."
  /\ clean_text ascii_tables (py "the dunes\n\n\n\nmigrate.") <> py "the dunes\n\nmigrate.".
Proof. split; [vm_compute; reflexivity|]. vm_compute. discriminate. Qed.

(** ** Where the characters of the output come from *)
Section Provenance.
Variable U : unicode_tables.


Lemma sub_from_in (f : flags) (r : regex) (repl : str) (s : str) : forall skip prev c,
  In c (sub_from U f r repl skip prev s) -> In c s \/ In c repl.
Proof.
  induction s as [|x s IH]; intros skip prev c; cbn [sub_from].
  - destruct skip; [|tauto]. destruct (match_at U f r prev []); tauto.
  - assert (Hs : forall k p, In c (sub_from U f r repl k p s) -> In c (x :: s) \/ In c repl).
    { intros k p H. destruct (IH _ _ _ H); [left; now right|now right]. }
    destruct skip as [|k]; [|apply Hs].
    destruct (match_at U f r prev (x :: s)) as [|rest|[rest|]];
      rewrite ?in_app_iff; cbn [In]; intuition eauto.
Qed.

Lemma re_sub_adds (f : flags) (r : regex) (repl : str) :
  adds_only repl (re_sub U f r repl).
Proof. intros t c. apply sub_from_in. Qed.

Lemma fold_sub_adds (f : flags) (rs : list regex) :
  adds_only [] (fun t => fold_left (fun t r => re_sub U f r [] t) rs t).
Proof.
  induction rs as [|r rs IH]; intros t c; cbn [fold_left]; [tauto|].
  intros H. destruct (IH _ _ H) as [H'|[]].
  destruct (re_sub_adds f r [] _ _ H') as [H''|[]]. now left.
Qed.


Lemma strip_in (s : str) (c : char) : In c (strip s) -> In c s.
Proof.
  destruct (strip_parts s) as (a & b & E & _). intros H. rewrite E.
  rewrite !in_app_iff. tauto.
Qed.

Lemma removelast_in (l : str) (c : char) : In c (removelast l) -> In c l.
Proof.
  induction l as [|x l IH]; [tauto|]. destruct l as [|y l]; [intros []|].
  change (removelast (x :: y :: l)) with (x :: removelast (y :: l)).
  intros [<-|H]; [now left|]. right. now apply IH.
Qed.

Lemma join_in (sep : str) (ls : list str) (c : char) :
  In c (join sep ls) -> In c sep \/ exists l, In l ls /\ In c l.
Proof.
  induction ls as [|l ls IH]; [intros []|].
  destruct ls as [|l' ls].
  - cbn. intros H. right. exists l. auto.
  - rewrite join_cons by discriminate. rewrite !in_app_iff. intros [H|[H|H]].
    + right. exists l. split; [now left|exact H].
    + now left.
    + destruct (IH H) as [H'|(l0 & Hl0 & Hc)]; [now left|].
      right. exists l0. split; [now right|exact Hc].
Qed.

Lemma join_or_stop_in (line next_line l : str) (c : char) :
  join_or_stop U line next_line = Some l -> In c l ->
  In c line \/ In c next_line \/ c = SP.
Proof.
  unfold join_or_stop.
  destruct (_is_heading U line); [discriminate|].
  destruct (_is_heading U next_line); [discriminate|].
  destruct (word_break line).
  - intros [= <-]. rewrite in_app_iff. intros [H|H]; [left; now apply removelast_in|tauto].
  - destruct (_ends_sentence U line); [discriminate|]. intros [= <-].
    rewrite !in_app_iff. cbn. intuition auto.
Qed.


Lemma from_lines_next (line next : str) (rest : list str) (c : char) :
  from_lines (strip next) rest c -> from_lines line (next :: rest) c.
Proof.
  intros [H|[(n & Hn & Hc)|H]].
  - right. left. exists next. split; [now left|now apply strip_in].
  - right. left. exists n. split; [now right|exact Hc].
  - right. now right.
Qed.

Lemma from_lines_skip (line next : str) (rest : list str) (c : char) :
  from_lines line rest c -> from_lines line (next :: rest) c.
Proof.
  intros [H|[(n & Hn & Hc)|H]].
  - now left.
  - right. left. exists n. split; [now right|exact Hc].
  - right. now right.
Qed.

Lemma from_lines_joined (line next l : str) (rest : list str) (c : char) :
  join_or_stop U line (strip next) = Some l ->
  from_lines l rest c -> from_lines line (next :: rest) c.
Proof.
  intros Hj [H|[(n & Hn & Hc)|H]].
  - destruct (join_or_stop_in _ _ _ _ Hj H) as [H'|[H'|H']].
    + now left.
    + right. left. exists next. split; [now left|now apply strip_in].
    + right. now right.
  - right. left. exists n. split; [now right|exact Hc].
  - right. now right.
Qed.

Lemma rejoin_from_in (c : char) : forall (k : nat) (rest : list str) (line l : str),
  (List.length rest <= k)%nat ->
  In l (rejoin_from U line rest) -> In c l -> from_lines line rest c.
Proof.
  induction k as [|k IH]; intros rest line l Hk Hl Hc.
  - destruct rest; [|cbn in Hk; lia]. cbn in Hl. destruct Hl as [<-|[]]. now left.
  - destruct rest as [|next rest1].
    { cbn in Hl. destruct Hl as [<-|[]]. now left. }
    cbn in Hk. destruct (strip next) as [|x t] eqn:En.
    + destruct rest1 as [|after rest2].
      * rewrite (rejoin_from_blank_last U _ _ En) in Hl.
        destruct Hl as [<-|[<-|[]]]; [now left|destruct Hc].
      * cbn in Hk. destruct (bridges U line (strip after)) eqn:Eb.
        { rewrite (rejoin_from_blank_bridge U _ _ _ _ En Eb) in Hl.
          apply from_lines_skip.
          destruct (join_or_stop U line (strip after)) as [l'|] eqn:Ej.
          - apply (from_lines_joined _ _ _ _ _ Ej). apply (IH _ _ l); auto. lia.
          - destruct Hl as [<-|Hl]; [now left|].
            apply from_lines_next. apply (IH _ _ l); auto. lia. }
        { rewrite (rejoin_from_blank_stop U _ _ _ _ En Eb) in Hl.
          destruct Hl as [<-|Hl]; [now left|].
          apply from_lines_next. rewrite En. apply (IH _ _ l); auto. cbn. lia. }
    + assert (Hne : strip next <> []) by (rewrite En; discriminate).
      rewrite (rejoin_from_next U _ _ _ Hne) in Hl.
      destruct (join_or_stop U line (strip next)) as [l'|] eqn:Ej.
      * apply (from_lines_joined _ _ _ _ _ Ej). apply (IH _ _ l); auto. lia.
      * destruct Hl as [<-|Hl]; [now left|].
        apply from_lines_next. apply (IH _ _ l); auto. lia.
Qed.

Lemma rejoin_adds : adds_only (py " \n") (_rejoin_broken_lines U).
Proof.
  intros t c. unfold _rejoin_broken_lines. intros H.
  apply join_in in H as [H|(l & Hl & Hc)].
  { right. cbn in H |- *. tauto. }
  pose proof (split_on_not_nil NL t) as Hn.
  destruct (split_on NL t) as [|l0 rest] eqn:E; [contradiction|]. cbn [rejoin_lines] in Hl.
  destruct (rejoin_from_in c (List.length rest) rest (strip l0) l (le_n _) Hl Hc)
    as [H|[(n & Hn' & Hc')|H]].
  - left. apply strip_in in H. apply (split_on_in t l0); [rewrite E; now left|exact H].
  - left. apply (split_on_in t n); [rewrite E; now right|exact Hc'].
  - right. subst c. now left.
Qed.

Lemma strip_lines_adds : adds_only (py "\n") strip_lines.
Proof.
  intros t c. unfold strip_lines. intros H.
  apply join_in in H as [H|(l & Hl & Hc)]; [now right|].
  apply in_map_iff in Hl as (l0 & <- & Hl0). left.
  apply (split_on_in t l0 c Hl0). now apply strip_in.
Qed.

Lemma strip_adds : adds_only [] strip.
Proof. intros t c H. left. now apply strip_in. Qed.




End Provenance.





(** ** The boilerplate stripper *)

Lemma subseq_refl (s : str) : subseq s s.
Proof. induction s; [apply subseq_nil|now apply subseq_keep]. Qed.

Lemma subseq_trans (a b c : str) : subseq a b -> subseq b c -> subseq a c.
Proof.
  intros Hab Hbc. revert a Hab. induction Hbc as [|x b c Hbc IH|x b c Hbc IH]; intros a Hab.
  - exact Hab.
  - apply subseq_drop. now apply IH.
  - inversion Hab as [|y a' b' Ha|y a' b' Ha]; subst.
    + apply subseq_drop. now apply IH.
    + apply subseq_keep. now apply IH.
Qed.

Section Stripper.
Variable U : unicode_tables.

Lemma sub_from_subseq (f : flags) (r : regex) (s : str) : forall skip prev,
  subseq (sub_from U f r [] skip prev s) s.
Proof.
  induction s as [|x s IH]; intros skip prev; cbn [sub_from].
  - destruct skip; [|apply subseq_nil].
    destruct (match_at U f r prev []); apply subseq_nil.
  - destruct skip as [|k]; [|apply subseq_drop, IH].
    destruct (match_at U f r prev (x :: s)) as [|rest|[rest|]]; cbn [app].
    + apply subseq_keep, IH.
    + apply subseq_drop, IH.
    + apply subseq_drop, IH.
    + apply subseq_keep, IH.
Qed.

Lemma sub_from_no_match (f : flags) (r : regex) (repl : str) (s : str) : forall prev,
  search_from U f r prev s = false -> sub_from U f r repl O prev s = s.
Proof.
  induction s as [|x s IH]; intros prev; cbn [search_from sub_from]; unfold match_at.
  - destruct (rmatch U f r accept prev []); [discriminate|reflexivity].
  - destruct (rmatch U f r accept prev (x :: s)); [discriminate|].
    intros H. now rewrite IH.
Qed.

Lemma re_sub_no_match (f : flags) (r : regex) (repl : str) (s : str) :
  re_search U f r s = false -> re_sub U f r repl s = s.
Proof. apply sub_from_no_match. Qed.

Lemma fold_sub_subseq (f : flags) (rs : list regex) : forall t,
  subseq (fold_left (fun t r => re_sub U f r [] t) rs t) t.
Proof.
  induction rs as [|r rs IH]; intros t; cbn [fold_left]; [apply subseq_refl|].
  apply (subseq_trans _ (re_sub U f r [] t)); [apply IH|apply sub_from_subseq].
Qed.

Lemma fold_sub_no_match (f : flags) (rs : list regex) (t : str) :
  forallb (fun r => negb (re_search U f r t)) rs = true ->
  fold_left (fun t r => re_sub U f r [] t) rs t = t.
Proof.
  induction rs as [|r rs IH]; cbn [fold_left forallb]; [reflexivity|]. intros H.
  apply andb_prop in H as [Hr Hrs]. apply negb_true_iff in Hr.
  rewrite (re_sub_no_match _ _ _ _ Hr). now apply IH.
Qed.

Lemma strip_boilerplate_subseq (t : str) : subseq (strip_boilerplate U t) t.
Proof.
  unfold strip_boilerplate, remove_page_numbers, remove_patterns, remove_blocks.
  eapply subseq_trans; [apply sub_from_subseq|].
  eapply subseq_trans; apply fold_sub_subseq.
Qed.

Lemma strip_boilerplate_no_match (t : str) :
  no_pattern_matches U t = true -> strip_boilerplate U t = t.
Proof.
  unfold no_pattern_matches. intros H. apply andb_prop in H as [H H3].
  apply andb_prop in H as [H1 H2]. apply negb_true_iff in H3.
  unfold strip_boilerplate, remove_page_numbers, remove_patterns, remove_blocks.
  rewrite (fold_sub_no_match _ _ _ H1), (fold_sub_no_match _ _ _ H2).
  now apply re_sub_no_match.
Qed.

End Stripper.

(** C5, as amended. Applying the boilerplate stripper to text that went
    through it once only removes characters, and changes nothing when no
    block pattern, no line pattern and no page number is found in that
    text. *)
Theorem boilerplate_second_pass (U : unicode_tables) (text : str) :
  subseq (strip_boilerplate U (strip_boilerplate U text)) (strip_boilerplate U text)
  /\ (no_pattern_matches U (strip_boilerplate U text) = true ->
      strip_boilerplate U (strip_boilerplate U text) = strip_boilerplate U text).
Proof.
  split; [apply strip_boilerplate_subseq|apply strip_boilerplate_no_match].
Qed.

Lemma boilerplate_second_pass_witness :
  strip_boilerplate ascii_tables
    (strip_boilerplate ascii_tables (py "Dunes migrate.\n12\nOPEN ACCESS\nThey grow."))
  = py "Dunes migrate.\n\nThey grow.".
Proof.
  refine (eq_trans (proj2 (boilerplate_second_pass ascii_tables
                             (py "Dunes migrate.\n12\nOPEN ACCESS\nThey grow.")) _) _);
    vm_compute; reflexivity.
Defined.

(** The claim C5 as it is stated fails: the line pattern that removes
    "OPEN ACCESS" leaves the two newlines in a row that the block pattern
    of the JSTOR notice waits for, and the second application removes the
    notice. *)
Lemma boilerplate_idempotence_counterexample :
  strip_boilerplate ascii_tables
    (py "Your use of the JSTOR archive foo\nOPEN ACCESS\nbar")
  = py "Your use of the JSTOR archive foo\n\nbar"
  /\ strip_boilerplate ascii_tables (py "Your use of the JSTOR archive foo\n\nbar")
     = py "\n\nbar"
  /\ strip_boilerplate ascii_tables
       (strip_boilerplate ascii_tables (py "Your use of the JSTOR archive foo\nOPEN ACCESS\nbar"))
     <> strip_boilerplate ascii_tables (py "Your use of the JSTOR archive foo\nOPEN ACCESS\nbar").
Proof.
  split; [vm_compute; reflexivity|]. split; [vm_compute; reflexivity|].
  vm_compute. discriminate.
Qed.

(** ** File names: [slugify] and [save_text] *)

Lemma squeeze_runs_run (p : char -> bool) (x : char) (s : str) :
  (1 <= span_len p s)%nat ->
  squeeze_runs p x s = x :: squeeze_runs p x (skipn (span_len p s) s).
Proof.
  induction s as [|c s IH]; [cbn; lia|]. intros H.
  cbn [span_len squeeze_runs] in *. destruct (p c) eqn:Ec; [|lia].
  cbn [skipn]. destruct s as [|d s]; [reflexivity|].
  cbn [head_is]. destruct (p d) eqn:Ed.
  - apply IH. cbn. rewrite Ed. lia.
  - cbn [span_len]. rewrite Ed. reflexivity.
Qed.

Lemma squeeze_runs_ext (p q : char -> bool) (x : char) (s : str) :
  (forall c, p c = q c) -> squeeze_runs p x s = squeeze_runs q x s.
Proof.
  intros E. induction s as [|c s IH]; [reflexivity|]. cbn [squeeze_runs].
  rewrite IH, E. destruct s as [|d s]; [reflexivity|]. cbn [head_is]. now rewrite E.
Qed.

Section SubstituteRuns.
Variable U : unicode_tables.
Variable f : flags.

Lemma sub_from_plus_squeeze (c : cset) (x : char) (s : str) : forall prev,
  sub_from U f (plus c) [x] O prev s = squeeze_runs (set_match U f c) x s.
Proof.
  unfold plus.
  remember (List.length s) as n eqn:En. revert s En.
  induction n as [n IH] using lt_wf_ind. intros s En prev.
  rewrite sub_from_run by lia. cbn zeta.
  set (p := set_match U f c) in *.
  destruct s as [|y s']; [reflexivity|].
  pose proof (span_len_le p (y :: s')) as Hle. cbn [List.length] in *.
  destruct (Nat.leb_spec 1 (span_len p (y :: s'))) as [H|H].
  - rewrite squeeze_runs_run by exact H.
    rewrite (IH (List.length (skipn (span_len p (y :: s')) (y :: s')))); [reflexivity| |reflexivity].
    rewrite length_skipn. cbn [List.length]. lia.
  - cbn [span_len squeeze_runs] in *. destruct (p y); [lia|].
    rewrite (IH (List.length s')); [reflexivity|lia|reflexivity].
Qed.

(** [re.sub] of [class+] by one character squeezes the runs of the class. *)
Lemma re_sub_plus_squeeze (c : cset) (x : char) (s : str) :
  re_sub U f (plus c) [x] s = squeeze_runs (set_match U f c) x s.
Proof. apply sub_from_plus_squeeze. Qed.

(** [re.sub] of a character class by nothing keeps the characters outside
    the class. *)
Lemma re_sub_class_filter (c : cset) (s : str) :
  re_sub U f (Chr c) [] s = filter (fun x => negb (set_match U f c x)) s.
Proof.
  unfold re_sub. generalize (@nil char) at 2 as prev.
  induction s as [|x s IH]; intros prev; [reflexivity|].
  cbn [sub_from filter]. unfold match_at. cbn [rmatch].
  destruct (set_match U f c x) eqn:E; cbn [negb].
  - unfold accept. cbn [List.length]. rewrite (proj2 (Nat.ltb_lt _ _)) by lia.
    rewrite Nat.sub_diag. cbn [app]. apply IH.
  - f_equal. apply IH.
Qed.

End SubstituteRuns.

Lemma squeeze_runs_in (p : char -> bool) (x : char) (s : str) (c : char) :
  In c (squeeze_runs p x s) -> c = x \/ (In c s /\ p c = false).
Proof.
  induction s as [|d s IH]; [intros []|]. cbn [squeeze_runs].
  destruct (p d) eqn:Ed.
  - destruct (head_is p s).
    + intros H. destruct (IH H) as [E|[Hi Hp]]; [now left|right; split; [now right|exact Hp]].
    + intros [E|H]; [now left|].
      destruct (IH H) as [E|[Hi Hp]]; [now left|right; split; [now right|exact Hp]].
  - intros [E|H]; [subst d; right; split; [now left|exact Ed]|].
    destruct (IH H) as [E|[Hi Hp]]; [now left|right; split; [now right|exact Hp]].
Qed.

Lemma squeeze_runs_id (p : char -> bool) (x : char) (s : str) :
  (forall c, In c s -> p c = false) -> squeeze_runs p x s = s.
Proof.
  induction s as [|d s IH]; [reflexivity|]. intros H. cbn [squeeze_runs].
  rewrite (H d) by now left. f_equal. apply IH. intros c Hc. apply H. now right.
Qed.

Lemma squeeze_runs_head (p : char -> bool) (x : char) (s : str) :
  p x = true -> head_is p (squeeze_runs p x s) = head_is p s.
Proof.
  intros Hx. induction s as [|d s IH]; [reflexivity|]. cbn [squeeze_runs head_is].
  destruct (p d) eqn:Ed; [|cbn [head_is]; exact Ed].
  destruct (head_is p s) eqn:Es; [exact IH|exact Hx].
Qed.

Lemma squeeze_us_adjacent (s : str) : adjacent us_pair (squeeze_runs is_us 95%N s) = true.
Proof.
  induction s as [|c s IH]; [reflexivity|]. cbn [squeeze_runs].
  destruct (is_us c) eqn:Ec.
  - destruct (head_is is_us s) eqn:Es; [exact IH|].
    rewrite adjacent_cons, IH, andb_true_r.
    rewrite <- (squeeze_runs_head is_us 95%N s eq_refl) in Es.
    destruct (squeeze_runs is_us 95%N s) as [|d r]; [reflexivity|].
    cbn [head_is hd_error] in Es |- *. unfold us_pair. now rewrite Es, andb_false_r.
  - rewrite adjacent_cons, IH, andb_true_r.
    destruct (hd_error (squeeze_runs is_us 95%N s)); [|reflexivity].
    unfold us_pair. now rewrite Ec.
Qed.

Lemma squeeze_us_id (s : str) :
  adjacent us_pair s = true -> squeeze_runs is_us 95%N s = s.
Proof.
  induction s as [|c s IH]; [reflexivity|]. rewrite adjacent_cons. intros H.
  apply andb_prop in H as [H1 H2]. cbn [squeeze_runs]. rewrite (IH H2).
  destruct (is_us c) eqn:Ec; [|reflexivity].
  destruct s as [|d s]; cbn [head_is hd_error] in *.
  - unfold is_us in Ec. apply N.eqb_eq in Ec. now subst c.
  - unfold us_pair in H1. rewrite Ec in H1. cbn [andb] in H1.
    apply negb_true_iff in H1. rewrite H1.
    unfold is_us in Ec. apply N.eqb_eq in Ec. now subst c.
Qed.

(** Slices and [strip(chars)] *)
Lemma slice_to_prefix (n : Z) (s : str) : exists b, s = slice_to n s ++ b.
Proof.
  unfold slice_to. destruct (0 <=? n)%Z;
    eexists; symmetry; apply firstn_skipn.
Qed.

Lemma slice_to_length (n : Z) (s : str) :
  (0 <= n)%Z -> (Z.of_nat (List.length (slice_to n s)) <= n)%Z.
Proof.
  intros H. unfold slice_to. rewrite (proj2 (Z.leb_le _ _) H).
  rewrite length_firstn. lia.
Qed.

Lemma slice_to_id (n : Z) (s : str) :
  (Z.of_nat (List.length s) <= n)%Z -> slice_to n s = s.
Proof.
  intros H. unfold slice_to. rewrite (proj2 (Z.leb_le 0 n)) by lia.
  apply firstn_all2. lia.
Qed.

Lemma lstrip_chars_split (chars s : str) : exists a, s = a ++ lstrip_chars chars s.
Proof.
  induction s as [|c s (a & E)]; [now exists []|]. cbn [lstrip_chars].
  destruct (existsb (N.eqb c) chars); [|now exists []].
  exists (c :: a). cbn [app]. now f_equal.
Qed.

Lemma rstrip_chars_split (chars s : str) : exists b, s = rstrip_chars chars s ++ b.
Proof.
  induction s as [|c s (b & E)]; [now exists []|]. cbn [rstrip_chars].
  destruct (rstrip_chars chars s) as [|x r] eqn:Er.
  - destruct (existsb (N.eqb c) chars); [now exists (c :: s)|now exists s].
  - exists b. cbn [app] in *. now f_equal.
Qed.

Lemma strip_chars_parts (chars s : str) : exists a b, s = a ++ strip_chars chars s ++ b.
Proof.
  destruct (lstrip_chars_split chars s) as (a & Ea).
  destruct (rstrip_chars_split chars (lstrip_chars chars s)) as (b & Eb).
  exists a, b. unfold strip_chars. now rewrite <- Eb.
Qed.

Section StripChars.
Variable chars : str.
Variable q : char -> bool.
Hypothesis q_chars : forall c, existsb (N.eqb c) chars = q c.

Lemma lstrip_chars_head (s : str) : head_is q (lstrip_chars chars s) = false.
Proof.
  induction s as [|c s IH]; [reflexivity|]. cbn [lstrip_chars].
  destruct (existsb (N.eqb c) chars) eqn:E; [exact IH|]. cbn [head_is].
  now rewrite <- q_chars.
Qed.

Lemma rstrip_chars_head (s : str) :
  head_is q s = false -> head_is q (rstrip_chars chars s) = false.
Proof.
  destruct s as [|c s]; [reflexivity|]. cbn [head_is rstrip_chars]. intros H.
  destruct (rstrip_chars chars s).
  - rewrite q_chars, H. cbn [head_is]. exact H.
  - exact H.
Qed.

Lemma rstrip_chars_last (s : str) : head_is q (rev (rstrip_chars chars s)) = false.
Proof.
  induction s as [|c s IH]; [reflexivity|]. cbn [rstrip_chars].
  destruct (rstrip_chars chars s) as [|x r] eqn:Er.
  - rewrite q_chars. destruct (q c) eqn:E; [reflexivity|]. cbn. exact E.
  - rewrite rev_cons_head by discriminate. exact IH.
Qed.

Lemma lstrip_chars_id (s : str) : head_is q s = false -> lstrip_chars chars s = s.
Proof.
  destruct s as [|c s]; [reflexivity|]. cbn [head_is lstrip_chars]. intros H.
  now rewrite q_chars, H.
Qed.

Lemma rstrip_chars_id (s : str) : head_is q (rev s) = false -> rstrip_chars chars s = s.
Proof.
  induction s as [|c s IH]; [reflexivity|]. intros H. cbn [rstrip_chars].
  destruct s as [|d s].
  - cbn in H |- *. now rewrite q_chars, H.
  - rewrite rev_cons_head in H by discriminate. now rewrite (IH H).
Qed.

Lemma strip_chars_ends (s : str) :
  head_is q (strip_chars chars s) = false /\ head_is q (rev (strip_chars chars s)) = false.
Proof.
  unfold strip_chars. split.
  - apply rstrip_chars_head, lstrip_chars_head.
  - apply rstrip_chars_last.
Qed.

Lemma strip_chars_id (s : str) :
  head_is q s = false -> head_is q (rev s) = false -> strip_chars chars s = s.
Proof.
  intros H1 H2. unfold strip_chars. rewrite (lstrip_chars_id _ H1).
  now apply rstrip_chars_id.
Qed.

End StripChars.

Lemma us_chars (c : char) : existsb (N.eqb c) (py "_") = is_us c.
Proof. cbn. now rewrite orb_false_r. Qed.

Lemma is_us_lower (c : char) : is_us (ascii_lower c) = is_us c.
Proof. char_facts. Qed.

Lemma head_is_map (q : char -> bool) (g : char -> char) (s : str) :
  (forall c, q (g c) = q c) -> head_is q (map g s) = head_is q s.
Proof. intros E. destruct s; [reflexivity|apply E]. Qed.

Lemma adjacent_map_lower (s : str) :
  adjacent us_pair (map ascii_lower s) = adjacent us_pair s.
Proof.
  induction s as [|c s IH]; [reflexivity|]. cbn [map]. rewrite !adjacent_cons, IH.
  destruct s as [|d s]; [reflexivity|]. cbn [map hd_error].
  unfold us_pair. now rewrite !is_us_lower.
Qed.

Lemma slug_char_ascii (c : char) : slug_char c = true -> is_ascii c = true.
Proof. char_facts. Qed.

Lemma slug_char_lower (c : char) : slug_char c = true -> ascii_lower c = c.
Proof. char_facts. Qed.

Lemma slug_char_not_space (c : char) : slug_char c = true -> isspace c = false.
Proof. unfold isspace. char_facts. Qed.

Lemma map_id_on (g : char -> char) (s : str) :
  (forall c, In c s -> g c = c) -> map g s = s.
Proof.
  induction s as [|c s IH]; [reflexivity|]. intros H. cbn [map].
  rewrite (H c) by now left. f_equal. apply IH. intros d Hd. apply H. now right.
Qed.

Lemma adjacent_us_spec (s : str) :
  adjacent us_pair s = true -> forall a b, s <> a ++ [95%N; 95%N] ++ b.
Proof.
  intros H a b E. rewrite E in H. apply adjacent_infix in H. discriminate H.
Qed.

Lemma startswith_us (s : str) : startswith s [95%N] = head_is is_us s.
Proof.
  destruct s as [|c s]; [reflexivity|]. cbn [startswith head_is].
  now rewrite startswith_nil, andb_true_r.
Qed.

Lemma endswith_us (s : str) : endswith s [95%N] = head_is is_us (rev s).
Proof. unfold endswith. cbn [rev app]. apply startswith_us. Qed.

Section Slug.
Variable U : unicode_tables.

Lemma space_class (x : char) : set_match U NOFLAG [Space] x = isspace x.
Proof. cbn. now rewrite orb_false_r. Qed.

Lemma us_class (x : char) : set_match U NOFLAG (ch "_") x = is_us x.
Proof. cbn. now rewrite orb_false_r. Qed.

Lemma kept_class (x : char) :
  set_match U NOFLAG [Word; Space; Ch 45%N] x = is_word U x || isspace x || is_hyphen x.
Proof. cbn. now rewrite orb_false_r, orb_assoc. Qed.

(** [slugify] in terms of the squeezes. *)
Lemma slugify_stages (title : str) (max_length : Z) :
  slugify U title max_length
  = lower U (strip_chars (py "_") (slice_to max_length
      (squeeze_runs is_us 95%N (squeeze_runs isspace 95%N
         (remove_outside U [Word; Space; Ch 45%N] title))))).
Proof.
  unfold slugify. change (py "_") with [95%N]. rewrite !re_sub_plus_squeeze.
  rewrite (squeeze_runs_ext _ _ _ _ space_class).
  now rewrite (squeeze_runs_ext _ _ _ _ us_class).
Qed.

(** A kept character that is not whitespace is, in a title whose letters
    and digits are ASCII, an ASCII letter or digit, [_] or [-]. *)
Lemma kept_char (c : char) :
  ascii_word_char U c = true ->
  set_match U NOFLAG [Word; Space; Ch 45%N] c = true -> isspace c = false ->
  is_ascii c = true /\ slug_char (ascii_lower c) = true.
Proof.
  rewrite kept_class. intros Ha Hk Hs. rewrite Hs, orb_false_r in Hk.
  unfold is_word, ch_isalnum, ascii_word_char, ch_isalnum in *.
  destruct (is_ascii c) eqn:Ea.
  - split; [reflexivity|]. clear Ha Hs. char_facts.
  - cbn [orb] in Ha. apply negb_true_iff in Ha. rewrite Ha in Hk. cbn [orb] in Hk.
    clear Ha Hs. char_facts.
Qed.

Lemma squeezed_title_chars (title : str) (c : char) :
  ascii_words U title = true ->
  In c (squeeze_runs is_us 95%N (squeeze_runs isspace 95%N
          (remove_outside U [Word; Space; Ch 45%N] title))) ->
  is_ascii c = true /\ slug_char (ascii_lower c) = true.
Proof.
  intros Ht Hc.
  apply squeeze_runs_in in Hc as [->|[Hc _]]; [now split|].
  apply squeeze_runs_in in Hc as [->|[Hc Hs]]; [now split|].
  unfold remove_outside in Hc. apply filter_In in Hc as [Hi Hk].
  apply kept_char; [|exact Hk|exact Hs].
  unfold ascii_words in Ht. rewrite forallb_forall in Ht. now apply Ht.
Qed.

Lemma slugify_shape (title : str) (max_length : Z) :
  ascii_words U title = true -> slug_shape (slugify U title max_length) = true.
Proof.
  intros Ht. rewrite slugify_stages.
  set (s3 := squeeze_runs is_us 95%N _).
  set (s4 := strip_chars (py "_") (slice_to max_length s3)).
  assert (Hin : forall c, In c s4 -> In c s3).
  { intros c Hc. destruct (slice_to_prefix max_length s3) as (b & Eb).
    destruct (strip_chars_parts (py "_") (slice_to max_length s3)) as (a' & b' & E').
    rewrite Eb, E'. fold s4. apply in_or_app. left. apply in_or_app. right.
    apply in_or_app. now left. }
  assert (Hc4 : forall c, In c s4 -> is_ascii c = true /\ slug_char (ascii_lower c) = true).
  { intros c Hc. apply (squeezed_title_chars title c Ht). apply Hin, Hc. }
  assert (Hadj : adjacent us_pair s4 = true).
  { destruct (slice_to_prefix max_length s3) as (b & Eb).
    destruct (strip_chars_parts (py "_") (slice_to max_length s3)) as (a' & b' & E').
    pose proof (squeeze_us_adjacent (squeeze_runs isspace 95%N
                  (remove_outside U [Word; Space; Ch 45%N] title))) as H.
    fold s3 in H. rewrite Eb, E' in H. fold s4 in H.
    rewrite <- !app_assoc in H. exact (adjacent_infix _ _ _ _ H). }
  destruct (strip_chars_ends (py "_") is_us us_chars (slice_to max_length s3)) as [Hh Hl].
  fold s4 in Hh, Hl.
  unfold lower. rewrite (proj2 (forallb_forall is_ascii s4)) by (intros c Hc; apply Hc4, Hc).
  unfold slug_shape. rewrite <- map_rev, !(head_is_map _ _ _ is_us_lower), Hh, Hl.
  rewrite adjacent_map_lower, Hadj, !andb_true_r.
  apply forallb_forall. intros c Hc. apply in_map_iff in Hc as (d & <- & Hd).
  apply Hc4, Hd.
Qed.

Lemma slugify_length (title : str) (max_length : Z) :
  ascii_words U title = true -> (0 <= max_length)%Z ->
  (Z.of_nat (List.length (slugify U title max_length)) <= max_length)%Z.
Proof.
  intros Ht Hn. rewrite slugify_stages.
  set (s3 := squeeze_runs is_us 95%N _).
  set (s4 := strip_chars (py "_") (slice_to max_length s3)).
  assert (Hc4 : forall c, In c s4 -> is_ascii c = true).
  { intros c Hc. apply (squeezed_title_chars title c Ht).
    destruct (slice_to_prefix max_length s3) as (b & Eb).
    destruct (strip_chars_parts (py "_") (slice_to max_length s3)) as (a' & b' & E').
    fold s3. rewrite Eb, E'. fold s4. apply in_or_app. left. apply in_or_app. right.
    apply in_or_app. now left. }
  unfold lower. rewrite (proj2 (forallb_forall is_ascii s4)) by exact Hc4.
  rewrite length_map.
  pose proof (slice_to_length max_length s3 Hn) as Hle.
  destruct (strip_chars_parts (py "_") (slice_to max_length s3)) as (a' & b' & E').
  fold s4 in E'. rewrite E' in Hle. rewrite !length_app in Hle. lia.
Qed.

(** A well-formed slug that is short enough is its own slug. *)
Lemma slugify_fixed (s : str) (max_length : Z) :
  slug_shape s = true -> (Z.of_nat (List.length s) <= max_length)%Z ->
  slugify U s max_length = s.
Proof.
  unfold slug_shape. intros H Hn.
  apply andb_prop in H as [H Hadj]. apply andb_prop in H as [H Hl].
  apply andb_prop in H as [Hc Hh]. apply negb_true_iff in Hh, Hl.
  rewrite forallb_forall in Hc.
  rewrite slugify_stages.
  assert (E1 : remove_outside U [Word; Space; Ch 45%N] s = s).
  { unfold remove_outside. apply forallb_filter_id. apply forallb_forall.
    intros c Hi. specialize (Hc c Hi). rewrite kept_class.
    unfold is_word, ch_isalnum. rewrite (slug_char_ascii c Hc).
    clear - Hc. char_facts. }
  rewrite E1.
  rewrite (squeeze_runs_id isspace) by (intros c Hi; apply slug_char_not_space, Hc, Hi).
  rewrite (squeeze_us_id s Hadj), (slice_to_id _ _ Hn).
  rewrite (strip_chars_id (py "_") is_us us_chars s Hh Hl).
  unfold lower.
  rewrite (proj2 (forallb_forall is_ascii s)) by (intros c Hi; apply slug_char_ascii, Hc, Hi).
  apply map_id_on. intros c Hi. apply slug_char_lower, Hc, Hi.
Qed.

End Slug.

(** ** Ligatures *)

(** [replace] of a single character works character by character. *)
Lemma replace_single (l : char) (new : str) (s : str) :
  replace s [l] new = flat_map (fun c => if N.eqb c l then new else [c]) s.
Proof.
  unfold replace. induction s as [|c s IH]; [reflexivity|].
  cbn [replace_from flat_map startswith List.length Nat.pred].
  rewrite startswith_nil, andb_true_r.
  destruct (N.eqb c l); [now rewrite IH|]. cbn [app]. now rewrite IH.
Qed.

Lemma flat_map_flat_map (g h : char -> str) (s : str) :
  flat_map h (flat_map g s) = flat_map (fun c => flat_map h (g c)) s.
Proof.
  induction s as [|c s IH]; [reflexivity|]. cbn [flat_map].
  now rewrite flat_map_app, IH.
Qed.

Lemma fix_ligatures_flat_map (text : str) :
  fix_ligatures text = flat_map expand_ligature text.
Proof.
  unfold fix_ligatures, ligatures. cbn [fold_left fst snd].
  rewrite !replace_single, !flat_map_flat_map.
  apply flat_map_ext. intros c. unfold expand_ligature.
  destruct (N.eqb_spec c 64257) as [->|H1]; [reflexivity|].
  destruct (N.eqb_spec c 64258) as [->|H2]; [reflexivity|].
  destruct (N.eqb_spec c 64256) as [->|H3]; [reflexivity|].
  destruct (N.eqb_spec c 64259) as [->|H4]; [reflexivity|].
  destruct (N.eqb_spec c 64260) as [->|H5]; [reflexivity|].
  cbn [flat_map app].
  rewrite (proj2 (N.eqb_neq c 64258) H2). cbn [flat_map app].
  rewrite (proj2 (N.eqb_neq c 64256) H3). cbn [flat_map app].
  rewrite (proj2 (N.eqb_neq c 64259) H4). cbn [flat_map app].
  rewrite (proj2 (N.eqb_neq c 64260) H5). reflexivity.
Qed.

Lemma expand_ligature_in (d c : char) :
  In c (expand_ligature d) ->
  c = d /\ is_ligature d = false \/ is_ligature d = true /\ In c (py "fil").
Proof.
  unfold expand_ligature, is_ligature, in_range.
  destruct (N.eqb_spec d 64257) as [->|H1]; [intros H; right; vm_compute in H |- *; intuition auto|].
  destruct (N.eqb_spec d 64258) as [->|H2]; [intros H; right; vm_compute in H |- *; intuition auto|].
  destruct (N.eqb_spec d 64256) as [->|H3]; [intros H; right; vm_compute in H |- *; intuition auto|].
  destruct (N.eqb_spec d 64259) as [->|H4]; [intros H; right; vm_compute in H |- *; intuition auto|].
  destruct (N.eqb_spec d 64260) as [->|H5]; [intros H; right; vm_compute in H |- *; intuition auto|].
  intros [E|[]]. subst c. left. split; [reflexivity|].
  destruct (N.leb_spec 64256 d); destruct (N.leb_spec d 64260); cbn; try reflexivity; lia.
Qed.

Lemma expand_ligature_plain (c : char) : is_ligature c = false -> expand_ligature c = [c].
Proof.
  unfold expand_ligature, is_ligature, in_range. intros H.
  destruct (N.eqb_spec c 64257) as [->|H1]; [discriminate|].
  destruct (N.eqb_spec c 64258) as [->|H2]; [discriminate|].
  destruct (N.eqb_spec c 64256) as [->|H3]; [discriminate|].
  destruct (N.eqb_spec c 64259) as [->|H4]; [discriminate|].
  destruct (N.eqb_spec c 64260) as [->|H5]; [discriminate|].
  reflexivity.
Qed.

Lemma fix_ligatures_in (text : str) (c : char) :
  In c (fix_ligatures text) ->
  is_ligature c = false
  /\ (In c text \/ In c (py "fil") /\ exists l, In l text /\ is_ligature l = true).
Proof.
  rewrite fix_ligatures_flat_map. intros H. apply in_flat_map in H as (d & Hd & Hc).
  apply expand_ligature_in in Hc as [[-> Hl]|[Hl Hc]].
  - split; [exact Hl|now left].
  - split; [|right; split; [exact Hc|now exists d]].
    vm_compute in Hc. destruct Hc as [<-|[<-|[<-|[]]]]; reflexivity.
Qed.

Lemma fix_ligatures_plain (text : str) :
  (forall c, In c text -> is_ligature c = false) -> fix_ligatures text = text.
Proof.
  rewrite fix_ligatures_flat_map. induction text as [|c t IH]; [reflexivity|].
  intros H. cbn [flat_map]. rewrite expand_ligature_plain by (apply H; now left).
  cbn [app]. f_equal. apply IH. intros d Hd. apply H. now right.
Qed.

Section AfterLigatures.
Variable U : unicode_tables.

(** The stages after the ligatures add spaces and newlines only. *)
Lemma later_stages_add : Forall (adds_only (py " \n")) (tl (stages U)).
Proof.
  assert (W : forall extra stage, adds_only extra stage ->
                incl extra (py " \n") -> adds_only (py " \n") stage).
  { intros extra stage H Hi t c Hc. destruct (H t c Hc); [now left|right; now apply Hi]. }
  unfold stages. cbn [tl]. repeat apply Forall_cons; [| | | | | | | | |apply Forall_nil].
  - apply (W _ _ (fold_sub_adds U MSI REMOVE_BLOCKS)). intros c [].
  - apply (W _ _ (fold_sub_adds U M REMOVE_PATTERNS)). intros c [].
  - apply (W _ _ (re_sub_adds U M page_number [])). intros c [].
  - apply (W _ _ (re_sub_adds U NOFLAG blanks (py " "))). intros c H. vm_compute in H |- *. tauto.
  - apply (W _ _ (re_sub_adds U NOFLAG newlines3 (py "\n\n"))). intros c H. vm_compute in H |- *. tauto.
  - apply (W _ _ (rejoin_adds U)). intros c H. vm_compute in H |- *. tauto.
  - apply (W _ _ (re_sub_adds U NOFLAG newlines3 (py "\n\n"))). intros c H. vm_compute in H |- *. tauto.
  - apply (W _ _ strip_lines_adds). intros c H. vm_compute in H |- *. tauto.
  - apply (W _ _ strip_adds). intros c [].
Qed.

Lemma fold_adds_in (extra : str) (fs : list (str -> str)) :
  Forall (adds_only extra) fs ->
  forall t c, In c (fold_left (fun t stage => stage t) fs t) -> In c t \/ In c extra.
Proof.
  induction fs as [|g fs IH]; intros H t c; cbn [fold_left]; [tauto|].
  apply Forall_cons_iff in H as [Hg Hfs]. intros Hc.
  destruct (IH Hfs _ _ Hc) as [H'|H']; [|now right]. now apply Hg.
Qed.

Lemma clean_text_in (text : str) (c : char) :
  In c (clean_text U text) -> In c (fix_ligatures text) \/ In c (py " \n").
Proof.
  intros H. exact (fold_adds_in _ _ later_stages_add (fix_ligatures text) c H).
Qed.

End AfterLigatures.

(** ** The whitespace stages on text that is already normal *)

Lemma squeeze_newlines_id (s : str) : no_nl3 s = true -> squeeze_newlines s = s.
Proof.
  induction s as [|c s IH]; [reflexivity|]. cbn [no_nl3 squeeze_newlines]. intros H.
  apply andb_prop in H as [H1 H2]. apply negb_true_iff in H1. rewrite H1.
  now rewrite (IH H2).
Qed.

Lemma squeeze_blanks_id (s : str) : squeezed s = true -> squeeze_blanks s = s.
Proof.
  unfold squeezed, no_tab. intros H. apply andb_prop in H as [Ht Ha]. revert Ht Ha.
  induction s as [|c s IH]; [reflexivity|]. cbn [forallb]. rewrite adjacent_cons.
  intros Ht Ha. apply andb_prop in Ht as [Hc Ht]. apply andb_prop in Ha as [Hn Ha].
  cbn [squeeze_blanks]. rewrite (IH Ht Ha).
  unfold not_tab in Hc. apply negb_true_iff in Hc.
  unfold is_blank. rewrite Hc, orb_false_r.
  destruct (N.eqb_spec c SP) as [->|Hsp]; [|reflexivity].
  destruct s as [|d s]; [reflexivity|]. cbn [head_is hd_error] in *.
  cbn [forallb] in Ht. apply andb_prop in Ht as [Hd _].
  unfold not_tab in Hd. apply negb_true_iff in Hd. rewrite Hd, orb_false_r.
  unfold sp_pair in Hn. cbn [N.eqb andb] in Hn. rewrite N.eqb_refl in Hn. cbn [andb] in Hn.
  apply negb_true_iff in Hn. now rewrite Hn.
Qed.

Lemma startswith_app (s b p : str) : startswith s p = true -> startswith (s ++ b) p = true.
Proof.
  revert s. induction p as [|x p IH]; intros s; [now rewrite !startswith_nil|].
  destruct s as [|c s]; [discriminate|]. cbn [startswith app]. intros H.
  apply andb_prop in H as [H1 H2]. now rewrite H1, (IH _ H2).
Qed.

Lemma no_nl3_infix (a m b : str) : no_nl3 (a ++ m ++ b) = true -> no_nl3 m = true.
Proof.
  induction a as [|c a IH].
  - cbn [app]. induction m as [|c m IHm]; [reflexivity|]. cbn [app no_nl3]. intros H.
    apply andb_prop in H as [H1 H2]. rewrite (IHm H2), andb_true_r.
    apply negb_true_iff in H1. apply negb_true_iff.
    destruct (is_nl c); [|reflexivity]. cbn [andb] in *.
    destruct (startswith m [NL; NL]) eqn:E; [|reflexivity].
    now rewrite (startswith_app _ b _ E) in H1.
  - cbn [app no_nl3]. intros H. apply andb_prop in H as [_ H]. exact (IH H).
Qed.

Lemma strip_no_nl3 (s : str) : no_nl3 s = true -> no_nl3 (strip s) = true.
Proof.
  destruct (strip_parts s) as (a & b & E & _). intros H. rewrite E in H.
  exact (no_nl3_infix a (strip s) b H).
Qed.

Section Stable.
Variable U : unicode_tables.

Lemma clean_text_no_nl3 (text : str) : no_nl3 (clean_text U text) = true.
Proof.
  rewrite clean_text_normalized. apply strip_no_nl3.
  apply (normalized_facts U).
Qed.

End Stable.

(** ** [extract_text_raw] *)

Section Raw.
Variable U : unicode_tables.

Lemma extract_text_raw_squeezes (pages : list str) :
  extract_text_raw U (Opened pages)
  = Returns (strip (squeeze_newlines (squeeze_blanks
               (fix_ligatures (join (py "\n") (raw_text_parts pages)))))).
Proof.
  unfold extract_text_raw.
  change (re_sub U NOFLAG blanks (py " ")) with (collapse_spaces U).
  change (re_sub U NOFLAG newlines3 (py "\n\n")) with (normalize_newlines U).
  cbn zeta. now rewrite collapse_spaces_squeeze, normalize_newlines_squeeze.
Qed.

Lemma text_parts_raw (pages : list str) :
  text_parts U pages = filter (fun p => negb (_is_skip_page U p)) (raw_text_parts pages).
Proof.
  induction pages as [|p pages IH]; [reflexivity|]. cbn [text_parts raw_text_parts filter].
  destruct (strip p) eqn:Es.
  - rewrite IH. now destruct (_is_skip_page U p).
  - cbn [filter]. rewrite IH. now destruct (_is_skip_page U p).
Qed.

End Raw.

(** A character that is not whitespace survives the whitespace stages. *)
Lemma squeeze_blanks_keeps (s : str) (c : char) :
  In c s -> is_blank c = false -> In c (squeeze_blanks s).
Proof.
  intros Hi Hc. induction s as [|d s IH]; [destruct Hi|]. cbn [squeeze_blanks].
  destruct Hi as [->|Hi].
  - rewrite Hc. now left.
  - specialize (IH Hi). destruct (is_blank d); [destruct (head_is is_blank s)|];
      [exact IH|now right|now right].
Qed.

Lemma squeeze_newlines_keeps (s : str) (c : char) :
  In c s -> is_nl c = false -> In c (squeeze_newlines s).
Proof.
  intros Hi Hc. induction s as [|d s IH]; [destruct Hi|]. cbn [squeeze_newlines].
  destruct Hi as [->|Hi].
  - rewrite Hc. now left.
  - specialize (IH Hi). destruct (is_nl d && startswith s [NL; NL]); [exact IH|now right].
Qed.

Lemma strip_keeps (s : str) (c : char) : In c s -> isspace c = false -> In c (strip s).
Proof.
  destruct (strip_parts s) as (a & b & E & Ha & Hb). intros Hi Hc.
  rewrite E in Hi. rewrite forallb_forall in Ha, Hb.
  apply in_app_or in Hi as [Hi|Hi]; [rewrite (Ha c Hi) in Hc; discriminate|].
  apply in_app_or in Hi as [Hi|Hi]; [exact Hi|rewrite (Hb c Hi) in Hc; discriminate].
Qed.

Lemma strip_nil_iff (s : str) : strip s = [] <-> forallb isspace s = true.
Proof.
  split.
  - intros E. destruct (strip_parts s) as (a & b & Es & Ha & Hb).
    rewrite E in Es. cbn [app] in Es. rewrite Es, forallb_app. now rewrite Ha, Hb.
  - intros H. destruct (strip s) as [|c r] eqn:E; [reflexivity|].
    pose proof (strip_tight s) as Ht. rewrite E in Ht. unfold tight in Ht.
    cbn [head_is] in Ht. rewrite forallb_forall in H.
    rewrite (H c) in Ht; [discriminate|]. apply strip_in. rewrite E. now left.
Qed.

Lemma blank_is_space (c : char) : isspace c = false -> is_blank c = false.
Proof.
  unfold is_blank. intros H.
  destruct (N.eqb_spec c SP) as [->|_]; [discriminate H|].
  destruct (N.eqb_spec c TAB) as [->|_]; [discriminate H|reflexivity].
Qed.

Lemma nl_is_space (c : char) : isspace c = false -> is_nl c = false.
Proof.
  unfold is_nl. intros H. destruct (N.eqb_spec c NL) as [->|_]; [discriminate H|reflexivity].
Qed.

Lemma expand_ligature_visible (d : char) :
  isspace d = false -> exists c, In c (expand_ligature d) /\ isspace c = false.
Proof.
  intros H. unfold expand_ligature.
  destruct (N.eqb d 64257); [exists 102%N; split; [now left|reflexivity]|].
  destruct (N.eqb d 64258); [exists 102%N; split; [now left|reflexivity]|].
  destruct (N.eqb d 64256); [exists 102%N; split; [now left|reflexivity]|].
  destruct (N.eqb d 64259); [exists 102%N; split; [now left|reflexivity]|].
  destruct (N.eqb d 64260); [exists 102%N; split; [now left|reflexivity]|].
  exists d. split; [now left|exact H].
Qed.

Lemma in_join (sep : str) (ls : list str) (l : str) (c : char) :
  In l ls -> In c l -> In c (join sep ls).
Proof.
  induction ls as [|p ps IH]; [intros []|]. intros Hl Hc.
  destruct ps as [|p' ps].
  - destruct Hl as [->|[]]. exact Hc.
  - rewrite join_cons by discriminate. destruct Hl as [->|Hl].
    + apply in_or_app. now left.
    + apply in_or_app. right. apply in_or_app. right. now apply IH.
Qed.

Lemma raw_text_parts_nil (pages : list str) :
  raw_text_parts pages = [] <-> forall p, In p pages -> strip p = [].
Proof.
  unfold raw_text_parts. induction pages as [|p pages IH]; [now split|].
  cbn [filter]. destruct (strip p) eqn:E.
  - rewrite IH. split.
    + intros H q [<-|Hq]; [exact E|now apply H].
    + intros H q Hq. apply H. now right.
  - split; [discriminate|]. intros H. specialize (H p (or_introl eq_refl)).
    rewrite E in H. discriminate.
Qed.

(** ** [get_text_stats] *)

Lemma split_ws_from_length (s : str) : forall word,
  (2 * List.length (split_ws_from word s)
   <= List.length s + match word with [] => 1 | _ => 2 end)%nat.
Proof.
  induction s as [|c s IH]; intros word.
  - cbn [split_ws_from]. destruct word; cbn; lia.
  - cbn [split_ws_from]. destruct (isspace c).
    + specialize (IH []). destruct word; cbn [List.length] in *; lia.
    + specialize (IH (c :: word)). destruct word; cbn [List.length] in *; lia.
Qed.

Lemma split_ws_from_nil (s : str) : forall word,
  split_ws_from word s = [] <-> word = [] /\ forallb isspace s = true.
Proof.
  induction s as [|c s IH]; intros word.
  - cbn. destruct word; split; intros H; try discriminate; try tauto.
    destruct H; discriminate.
  - cbn [split_ws_from forallb]. destruct (isspace c); cbn [andb].
    + destruct word; [apply IH|]. split; [discriminate|]. intros [H _]. discriminate.
    + rewrite IH. split; [intros [H _]; discriminate|intros [_ H]; discriminate].
Qed.

Lemma count_from_length (s : str) : forall skip,
  (2 * count_from [NL; NL] skip s <= List.length s - skip)%nat.
Proof.
  induction s as [|c s IH]; intros skip; [cbn; lia|].
  cbn [count_from]. destruct skip as [|k].
  - destruct (startswith (c :: s) [NL; NL]) eqn:E.
    + specialize (IH 1%nat). cbn [List.length Nat.pred] in *.
      destruct s as [|d s]; [cbn in E; now rewrite andb_false_r in E|].
      cbn [List.length] in *. lia.
    + specialize (IH O). cbn [List.length]. lia.
  - specialize (IH k). cbn [List.length]. lia.
Qed.

(** The count of "\n\n" in a text without three newlines in a row and
    without a newline at its end: the empty lines after the first line. *)
Lemma split_on_cons_nl (s : str) : split_on NL (NL :: s) = [] :: split_on NL s.
Proof. reflexivity. Qed.

Lemma split_on_cons_other (c : char) (s : str) :
  N.eqb c NL = false ->
  exists l ls, split_on NL s = l :: ls /\ split_on NL (c :: s) = (c :: l) :: ls.
Proof.
  intros H. cbn [split_on]. rewrite H.
  destruct (split_on NL s) as [|l ls] eqn:E; [now destruct (split_on_not_nil NL s)|].
  now exists l, ls.
Qed.

Lemma count_cons_other (c : char) (s : str) :
  N.eqb c NL = false -> count_from [NL; NL] O (c :: s) = count_from [NL; NL] O s.
Proof. intros H. cbn [count_from startswith]. now rewrite H. Qed.

Lemma count_nl_nl (s : str) :
  count_from [NL; NL] O (NL :: NL :: s) = S (count_from [NL; NL] O s).
Proof. cbn [count_from startswith]. now rewrite startswith_nil. Qed.

Lemma count_nl_other (d : char) (s : str) :
  N.eqb d NL = false -> count_from [NL; NL] O (NL :: d :: s) = count_from [NL; NL] O s.
Proof.
  intros H. cbn [count_from startswith]. rewrite !H, N.eqb_refl. reflexivity.
Qed.

Lemma endswith_nl_tail (c : char) (s : str) :
  endswith (c :: s) [NL] = false -> endswith s [NL] = false.
Proof.
  destruct s as [|d s]; [reflexivity|]. rewrite !endswith_nl.
  now rewrite rev_cons_head by discriminate.
Qed.

Lemma no_nl3_tail (c : char) (s : str) : no_nl3 (c :: s) = true -> no_nl3 s = true.
Proof. cbn [no_nl3]. intros H. now apply andb_prop in H. Qed.

Lemma count_blank_lines : forall (n : nat) (s : str),
  (List.length s <= n)%nat ->
  no_nl3 s = true -> endswith s [NL] = false ->
  count s [NL; NL] = empty_lines (tl (split_on NL s)).
Proof.
  unfold count.
  induction n as [|n IH]; intros s Hn H3 He.
  - destruct s; [reflexivity|cbn in Hn; lia].
  - destruct s as [|c s]; [reflexivity|]. cbn [List.length] in Hn.
    pose proof (endswith_nl_tail _ _ He) as He1. pose proof (no_nl3_tail _ _ H3) as H31.
    destruct (N.eqb c NL) eqn:Ec.
    + apply N.eqb_eq in Ec. subst c. rewrite split_on_cons_nl. cbn [tl].
      destruct s as [|d s]; [discriminate He|]. cbn [List.length] in Hn.
      pose proof (endswith_nl_tail _ _ He1) as He2. pose proof (no_nl3_tail _ _ H31) as H32.
      destruct (N.eqb d NL) eqn:Ed.
      * apply N.eqb_eq in Ed. subst d. rewrite count_nl_nl, split_on_cons_nl.
        destruct s as [|e s]; [discriminate He1|].
        assert (Ee : N.eqb e NL = false).
        { cbn [no_nl3] in H3. apply andb_prop in H3 as [H3 _]. apply negb_true_iff in H3.
          unfold is_nl in H3. rewrite N.eqb_refl in H3. cbn [andb startswith] in H3.
          rewrite N.eqb_refl in H3. cbn [andb] in H3.
          now rewrite startswith_nil, andb_true_r in H3. }
        destruct (split_on_cons_other e s Ee) as (l & ls & E1 & E2).
        rewrite (IH (e :: s)); [|cbn [List.length] in *; lia|exact H32|exact He2].
        rewrite E2. reflexivity.
      * rewrite (count_nl_other d s Ed).
        destruct (split_on_cons_other d s Ed) as (l & ls & E1 & E2).
        rewrite (IH s); [|lia|exact H32|exact He2].
        rewrite E2, E1. reflexivity.
    + rewrite (count_cons_other c s Ec).
      destruct (split_on_cons_other c s Ec) as (l & ls & E1 & E2).
      rewrite (IH s); [|lia|exact H31|exact He1].
      rewrite E2, E1. reflexivity.
Qed.

Lemma blank_lines_tail (s : str) :
  s <> [] -> startswith s [NL] = false ->
  blank_lines s = empty_lines (tl (split_on NL s)).
Proof.
  intros Hs Hn. destruct s as [|c s]; [contradiction|].
  cbn [startswith] in Hn. rewrite startswith_nil, andb_true_r in Hn.
  destruct (split_on_cons_other c s Hn) as (l & ls & E1 & E2).
  unfold blank_lines. now rewrite E2.
Qed.

(** ** [extract_figures] *)

Lemma decimal_inj (m n : nat) : decimal m = decimal n -> m = n.
Proof.
  unfold decimal. intros H.
  assert (Hm : forall a b : list ascii, map N_of_ascii a = map N_of_ascii b -> a = b).
  { induction a as [|x a IH]; destruct b as [|y b]; try discriminate; [reflexivity|].
    cbn [map]. intros E. injection E as E1 E2. f_equal; [|now apply IH].
    now rewrite <- (ascii_N_embedding x), <- (ascii_N_embedding y), E1. }
  apply Hm in H.
  apply (f_equal string_of_list_ascii) in H.
  rewrite !string_of_list_ascii_of_string in H.
  apply (f_equal NilEmpty.uint_of_string) in H. rewrite !NilEmpty.usu in H.
  injection H as H. apply (f_equal Nat.of_uint) in H.
  now rewrite !Unsigned.of_to in H.
Qed.

Lemma uint_digits (d : Decimal.uint) (c : char) :
  In c (map N_of_ascii (list_ascii_of_string (NilEmpty.string_of_uint d))) ->
  ascii_isdigit c = true.
Proof.
  induction d as [|d IH|d IH|d IH|d IH|d IH|d IH|d IH|d IH|d IH|d IH];
    cbn [NilEmpty.string_of_uint list_ascii_of_string map];
    try (intros [<-|H]; [reflexivity|exact (IH H)]).
  intros [].
Qed.

Lemma decimal_digits (n : nat) (c : char) : In c (decimal n) -> ascii_isdigit c = true.
Proof. apply uint_digits. Qed.

Lemma app_sep_inj (c : char) (a b x y : str) :
  ~ In c a -> ~ In c b -> a ++ c :: x = b ++ c :: y -> a = b.
Proof.
  revert b. induction a as [|h a IH]; intros b Ha Hb E.
  - destruct b as [|k b]; [reflexivity|]. cbn [app] in E. injection E as E _.
    subst k. destruct Hb. now left.
  - destruct b as [|k b].
    + cbn [app] in E. injection E as E _. subst h. destruct Ha. now left.
    + cbn [app] in E. injection E as E1 E2. subst k. f_equal.
      apply IH; [intros H; apply Ha; now right|intros H; apply Hb; now right|exact E2].
Qed.

Lemma figure_name_inj (m n : nat) (e1 e2 : str) :
  figure_name m e1 = figure_name n e2 -> m = n.
Proof.
  unfold figure_name. intros H. apply app_inv_head in H.
  change (py ".") with [46%N] in H. cbn [app] in H.
  apply decimal_inj. apply (app_sep_inj 46%N _ _ _ _) in H; [exact H| |];
    intros Hd; apply decimal_digits in Hd; discriminate Hd.
Qed.

Lemma figure_ext_not_jpeg (img : image) : figure_ext img <> py "jpeg".
Proof.
  unfold figure_ext, str_eqb.
  destruct (list_eq_dec N.eq_dec _ (py "jpeg")) as [E|E]; [discriminate|exact E].
Qed.

Section Figures.
Variable min_size : Z.

Lemma extract_from_nth (images : list (option image)) : forall (k i : nat) (f : written_file),
  nth_error (extract_from min_size k images) i = Some f ->
  exists img, In (Some img) images
    /\ f = {| file_name := figure_name (k + i) (figure_ext img);
              file_content := image_bytes img |}
    /\ (min_size <= Z.of_nat (List.length (image_bytes img)))%Z.
Proof.
  induction images as [|[img|] images IH]; intros k i f; cbn [extract_from].
  - destruct i; discriminate.
  - destruct (Z.ltb_spec (Z.of_nat (List.length (image_bytes img))) min_size) as [Hs|Hs].
    + intros H. destruct (IH _ _ _ H) as (img' & Hi & E & Hm).
      exists img'. split; [now right|now split].
    + destruct i as [|i]; cbn [nth_error].
      * intros H. injection H as <-. exists img. rewrite Nat.add_0_r.
        split; [now left|now split].
      * intros H. destruct (IH _ _ _ H) as (img' & Hi & E & Hm).
        exists img'. replace (k + S i)%nat with (S k + i)%nat by lia.
        split; [now right|now split].
  - intros H. destruct (IH _ _ _ H) as (img' & Hi & E & Hm).
    exists img'. split; [now right|now split].
Qed.

Lemma extract_from_names (images : list (option image)) : forall (k : nat) (name : str),
  In name (map file_name (extract_from min_size k images)) ->
  exists n ext, (k <= n)%nat /\ name = figure_name n ext.
Proof.
  intros k name H. apply in_map_iff in H as (f & <- & Hf).
  apply In_nth_error in Hf as (i & Hi).
  destruct (extract_from_nth _ _ _ _ Hi) as (img & _ & -> & _).
  exists (k + i)%nat, (figure_ext img). split; [lia|reflexivity].
Qed.

Lemma extract_from_NoDup (images : list (option image)) : forall k,
  NoDup (map file_name (extract_from min_size k images)).
Proof.
  induction images as [|[img|] images IH]; intros k; cbn [extract_from].
  - constructor.
  - destruct (Z.of_nat (List.length (image_bytes img)) <? min_size)%Z; [apply IH|].
    cbn [map file_name]. constructor; [|apply IH].
    intros H. apply extract_from_names in H as (n & ext & Hn & E).
    apply figure_name_inj in E. lia.
  - apply IH.
Qed.

Lemma extract_from_skip (a b : list (option image)) (entry : option image) : forall k,
  saved_bytes min_size entry = false ->
  extract_from min_size k (a ++ entry :: b) = extract_from min_size k (a ++ b).
Proof.
  intros k H. revert k. induction a as [|[img|] a IH]; intros k; cbn [app extract_from].
  - destruct entry as [img|]; [|reflexivity]. cbn [saved_bytes] in H.
    apply negb_false_iff in H. now rewrite H.
  - destruct (Z.of_nat (List.length (image_bytes img)) <? min_size)%Z; [apply IH|].
    f_equal. apply IH.
  - apply IH.
Qed.


End Figures.

(** ** Text the rejoiner leaves alone *)

Lemma last_char_in (stem pre tail : str) (x : char) :
  stem ++ [x] = pre ++ tail -> tail <> [] -> In x tail.
Proof.
  intros E Ht. destruct (exists_last Ht) as (t & y & ->).
  rewrite app_assoc in E. apply app_inj_tail in E as [_ ->].
  apply in_or_app. right. now left.
Qed.

Section Settled.
Variable U : unicode_tables.

Lemma ends_sentence_cases (line : str) :
  _ends_sentence U line = true ->
  line = [] \/ ends_terminal line \/ ends_citation U line \/ endswith line (py ":") = true.
Proof.
  unfold _ends_sentence. destruct line as [|c t]; [now left|]. right.
  destruct (re_search U NOFLAG terminal_punctuation (c :: t)) eqn:E1.
  { left. now apply (terminal_search U). }
  destruct (re_search U NOFLAG citation_end (c :: t)) eqn:E2.
  { right. left. now apply (citation_search U). }
  destruct (endswith (c :: t) (py ":")) eqn:E3; [now right; right|].
  destruct (existsb _ continuation_endings); [discriminate|].
  destruct (_ && _); discriminate.
Qed.

Lemma ends_sentence_no_hyphen (line : str) :
  _ends_sentence U line = true -> endswith line (py "-") = false.
Proof.
  intros H. change (py "-") with [45%N].
  destruct (endswith line [45%N]) eqn:E; [|reflexivity].
  apply endswith_last in E as (stem & ->).
  apply ends_sentence_cases in H as [H|[H|[H|H]]].
  - now destruct stem.
  - destruct H as (pre & c & ws & E & Hc & Hw).
    apply last_char_in in E; [|discriminate]. destruct E as [E|E]; [subst c|].
    + vm_compute in Hc. intuition discriminate.
    + rewrite forallb_forall in Hw. specialize (Hw _ E). discriminate Hw.
  - destruct H as (pre & year & letter & ws1 & dot & ws2 & E & _ & _ & _ & _ & H1 & Hd & H2).
    assert (E' : stem ++ [45%N]
                 = (pre ++ year ++ letter) ++ (py ")" ++ ws1 ++ dot ++ ws2))
      by (refine (eq_trans E _); now rewrite <- !app_assoc).
    apply last_char_in in E'; [|discriminate].
    rewrite forallb_forall in H1, H2.
    apply in_app_or in E' as [E'|E']; [vm_compute in E'; intuition discriminate|].
    apply in_app_or in E' as [E'|E']; [specialize (H1 _ E'); discriminate H1|].
    apply in_app_or in E' as [E'|E']; [|specialize (H2 _ E'); discriminate H2].
    destruct Hd as [->| ->]; [destruct E'|vm_compute in E'; intuition discriminate].
  - change (py ":") with [58%N] in H.
    apply endswith_last in H as (stem' & E). apply app_inj_tail in E as [_ E]. discriminate E.
Qed.

Lemma ends_sentence_stop (line next_line : str) :
  _ends_sentence U line = true -> join_or_stop U line next_line = None.
Proof.
  intros H. unfold join_or_stop, word_break.
  rewrite (ends_sentence_no_hyphen _ H), H. cbn [andb negb].
  destruct (_is_heading U line); [reflexivity|]. now destruct (_is_heading U next_line).
Qed.

Lemma ends_sentence_no_bridge (line after_empty : str) :
  _ends_sentence U line = true -> bridges U line after_empty = false.
Proof.
  intros H. unfold bridges. destruct after_empty; [reflexivity|].
  rewrite H. cbn [negb]. now rewrite andb_false_r.
Qed.

Lemma rejoin_from_settled (rest : list str) : forall line,
  _ends_sentence U line = true ->
  Forall (fun l => strip l = l /\ _ends_sentence U l = true) rest ->
  rejoin_from U line rest = line :: rest.
Proof.
  induction rest as [|next rest IH]; intros line Hl Hr; [reflexivity|].
  apply Forall_cons_iff in Hr as [[Hs Hn] Hr].
  destruct next as [|c t].
  - destruct rest as [|after rest].
    + now apply rejoin_from_blank_last.
    + rewrite rejoin_from_blank_stop;
        [|reflexivity|now apply ends_sentence_no_bridge].
      f_equal. now apply IH.
  - rewrite rejoin_from_next by (rewrite Hs; discriminate).
    rewrite Hs, (ends_sentence_stop _ _ Hl). f_equal. now apply IH.
Qed.

End Settled.

(** ** Lengths *)

Lemma subseq_length (a b : str) : subseq a b -> (List.length a <= List.length b)%nat.
Proof. induction 1; cbn [List.length]; lia. Qed.

Lemma squeeze_blanks_length (s : str) :
  (List.length (squeeze_blanks s) <= List.length s)%nat.
Proof.
  induction s as [|c s IH]; [reflexivity|]. cbn [squeeze_blanks].
  destruct (is_blank c); [destruct (head_is is_blank s)|]; cbn [List.length]; lia.
Qed.

Lemma squeeze_newlines_length (s : str) :
  (List.length (squeeze_newlines s) <= List.length s)%nat.
Proof.
  induction s as [|c s IH]; [reflexivity|]. cbn [squeeze_newlines].
  destruct (is_nl c && startswith s [NL; NL]); cbn [List.length]; lia.
Qed.

Lemma strip_length (s : str) : (List.length (strip s) <= List.length s)%nat.
Proof.
  destruct (strip_parts s) as (a & b & E & _). rewrite E at 2.
  rewrite !length_app. lia.
Qed.

Lemma removelast_length (s : str) : (List.length (removelast s) <= List.length s)%nat.
Proof.
  induction s as [|c s IH]; [reflexivity|]. cbn [removelast].
  destruct s; cbn [List.length] in *; lia.
Qed.

Lemma joined_length_cons (l : str) (ls : list str) :
  joined_length (l :: ls) = S (List.length l + joined_length ls).
Proof. reflexivity. Qed.

Lemma join_length (l : str) (ls : list str) :
  List.length (join [NL] (l :: ls)) = (List.length l + joined_length ls)%nat.
Proof.
  revert l. induction ls as [|p ps IH]; intros l.
  - cbn. lia.
  - rewrite join_cons by discriminate. rewrite !length_app, IH, joined_length_cons.
    cbn [List.length]. lia.
Qed.

Lemma join_length_S (ls : list str) :
  ls <> [] -> S (List.length (join [NL] ls)) = joined_length ls.
Proof.
  destruct ls as [|l ls]; [contradiction|]. intros _.
  now rewrite join_length, joined_length_cons.
Qed.

Section RejoinLength.
Variable U : unicode_tables.

Lemma join_or_stop_length (line next_line l : str) :
  join_or_stop U line next_line = Some l ->
  (List.length l <= List.length line + 1 + List.length next_line)%nat.
Proof.
  unfold join_or_stop. pose proof (removelast_length line) as H.
  destruct (_is_heading U line); [discriminate|].
  destruct (_is_heading U next_line); [discriminate|].
  destruct (word_break line).
  - intros E. injection E as <-. rewrite length_app. lia.
  - destruct (negb (_ends_sentence U line)); [|discriminate].
    intros E. injection E as <-. rewrite !length_app. cbn [List.length]. lia.
Qed.

Lemma rejoin_from_length : forall (k : nat) (rest : list str) (line : str),
  (List.length rest <= k)%nat ->
  (joined_length (rejoin_from U line rest) <= S (List.length line) + joined_length rest)%nat.
Proof.
  induction k as [|k IH]; intros rest line Hk.
  - destruct rest; [|cbn in Hk; lia]. cbn [rejoin_from]. rewrite joined_length_cons. lia.
  - destruct rest as [|next rest1]; [cbn [rejoin_from]; rewrite joined_length_cons; lia|].
    cbn [List.length] in Hk. cbn [rejoin_from].
    pose proof (strip_length next) as Hn.
    assert (Hstop : forall l, (List.length l <= List.length next)%nat ->
              (joined_length (line :: rejoin_from U l rest1)
               <= S (List.length line) + joined_length (next :: rest1))%nat).
    { intros l Hl. specialize (IH rest1 l ltac:(lia)).
      rewrite !joined_length_cons. lia. }
    destruct (strip next) as [|c t] eqn:Es.
    + destruct rest1 as [|after rest2]; [apply Hstop; cbn; lia|].
      cbn [List.length] in Hk. pose proof (strip_length after) as Ha.
      destruct (bridges U line (strip after)); [|apply Hstop; cbn; lia].
      destruct (join_or_stop U line (strip after)) as [l|] eqn:Ej.
      * apply join_or_stop_length in Ej.
        specialize (IH rest2 l ltac:(lia)).
        rewrite !joined_length_cons. lia.
      * specialize (IH rest2 (strip after) ltac:(lia)).
        rewrite !joined_length_cons. lia.
    + destruct (join_or_stop U line (c :: t)) as [l|] eqn:Ej.
      * apply join_or_stop_length in Ej.
        specialize (IH rest1 l ltac:(lia)).
        rewrite !joined_length_cons. lia.
      * apply Hstop. exact Hn.
Qed.

Lemma rejoin_from_not_nil (rest : list str) : forall line, rejoin_from U line rest <> [].
Proof.
  assert (H : forall (k : nat) (rest : list str) (line : str),
            (List.length rest <= k)%nat -> rejoin_from U line rest <> []).
  { induction k as [|k IH]; intros r line Hk.
    - destruct r; [discriminate|cbn in Hk; lia].
    - destruct r as [|next rest1]; [discriminate|]. cbn [List.length] in Hk.
      cbn [rejoin_from]. destruct (strip next).
      + destruct rest1 as [|after rest2]; [discriminate|].
        destruct (bridges U line (strip after)); [|discriminate].
        destruct (join_or_stop U line (strip after)); [|discriminate].
        apply IH. cbn [List.length] in Hk. lia.
      + destruct (join_or_stop U line (c :: s)); [|discriminate].
        apply IH. lia. }
  intros line. now apply (H (List.length rest)).
Qed.

Lemma rejoin_length (text : str) :
  (List.length (_rejoin_broken_lines U text) <= List.length text)%nat.
Proof.
  unfold _rejoin_broken_lines.
  destruct (split_on NL text) as [|l rest] eqn:E; [now destruct (split_on_not_nil NL text)|].
  cbn [rejoin_lines].
  pose proof (rejoin_from_length (List.length rest) rest (strip l) (le_n _)) as H.
  rewrite <- (join_length_S _ (rejoin_from_not_nil rest (strip l))) in H.
  assert (Ht : List.length text = (List.length l + joined_length rest)%nat).
  { rewrite <- (join_split text), E. apply join_length. }
  rewrite Ht. pose proof (strip_length l). change (py "\n") with [NL]. lia.
Qed.

End RejoinLength.

Lemma strip_lines_length (text : str) :
  (List.length (strip_lines text) <= List.length text)%nat.
Proof.
  unfold strip_lines.
  destruct (split_on NL text) as [|l rest] eqn:E; [now destruct (split_on_not_nil NL text)|].
  assert (Ht : List.length text = (List.length l + joined_length rest)%nat).
  { rewrite <- (join_split text), E. apply join_length. }
  rewrite Ht. cbn [map]. change (py "\n") with [NL]. rewrite join_length.
  pose proof (strip_length l) as Hl.
  assert (H : (joined_length (map strip rest) <= joined_length rest)%nat).
  { clear. induction rest as [|x r IH]; [reflexivity|].
    cbn [map]. rewrite !joined_length_cons. pose proof (strip_length x). lia. }
  lia.
Qed.

Lemma expand_ligature_length (c : char) : (List.length (expand_ligature c) <= 3)%nat.
Proof.
  unfold expand_ligature.
  repeat match goal with |- context [if ?b then _ else _] => destruct b end; cbn; lia.
Qed.

Lemma fix_ligatures_length (text : str) :
  (List.length (fix_ligatures text) <= 3 * List.length text)%nat.
Proof.
  rewrite fix_ligatures_flat_map. induction text as [|c t IH]; [reflexivity|].
  cbn [flat_map List.length]. rewrite length_app.
  pose proof (expand_ligature_length c). lia.
Qed.

Section CleanLength.
Variable U : unicode_tables.

Lemma clean_text_length (text : str) :
  (List.length (clean_text U text) <= List.length (fix_ligatures text))%nat.
Proof.
  unfold clean_text. cbn zeta.
  set (t0 := fix_ligatures text).
  pose proof (subseq_length _ _ (strip_boilerplate_subseq U t0)) as H1.
  unfold strip_boilerplate in H1.
  set (t1 := remove_page_numbers U (remove_patterns U (remove_blocks U t0))) in *.
  rewrite !normalize_newlines_squeeze, collapse_spaces_squeeze.
  pose proof (squeeze_blanks_length t1) as H2.
  set (t2 := squeeze_blanks t1) in *.
  pose proof (squeeze_newlines_length t2) as H3.
  set (t3 := squeeze_newlines t2) in *.
  pose proof (rejoin_length U t3) as H4.
  set (t4 := _rejoin_broken_lines U t3) in *.
  pose proof (squeeze_newlines_length t4) as H5.
  set (t5 := squeeze_newlines t4) in *.
  pose proof (strip_lines_length t5) as H6.
  pose proof (strip_length (strip_lines t5)) as H7.
  lia.
Qed.

End CleanLength.

(** ** The words of a text *)

Lemma split_ws_from_space (word : str) (c : char) (s : str) :
  isspace c = true ->
  split_ws_from word (c :: s)
  = match word with [] => [] | _ => [rev word] end ++ split_ws_from [] s.
Proof. intros H. cbn [split_ws_from]. rewrite H. now destruct word. Qed.

Lemma split_ws_from_spaces (b : str) : forall word,
  forallb isspace b = true ->
  split_ws_from word b = match word with [] => [] | _ => [rev word] end.
Proof.
  induction b as [|c b IH]; intros word H; [reflexivity|].
  cbn [forallb] in H. apply andb_prop in H as [Hc Hb].
  rewrite (split_ws_from_space _ _ _ Hc), (IH [] Hb). now rewrite app_nil_r.
Qed.

Lemma split_ws_from_sep (s : str) (c : char) (t : str) : forall word,
  isspace c = true ->
  split_ws_from word (s ++ c :: t) = split_ws_from word s ++ split_ws_from [] t.
Proof.
  induction s as [|x s IH]; intros word H.
  - cbn [app]. rewrite (split_ws_from_space _ _ _ H). now destruct word.
  - cbn [app split_ws_from]. destruct (isspace x).
    + rewrite (IH [] H). now destruct word.
    + apply IH, H.
Qed.

Lemma split_ws_from_app_spaces (s b : str) : forall word,
  forallb isspace b = true -> split_ws_from word (s ++ b) = split_ws_from word s.
Proof.
  intros word H. destruct b as [|c b]; [now rewrite app_nil_r|].
  cbn [forallb] in H. apply andb_prop in H as [Hc Hb].
  rewrite (split_ws_from_sep _ _ _ _ Hc), (split_ws_from_spaces _ [] Hb).
  now rewrite app_nil_r.
Qed.

Lemma split_ws_spaces_app (a s : str) :
  forallb isspace a = true -> split_ws (a ++ s) = split_ws s.
Proof.
  unfold split_ws. induction a as [|c a IH]; intros H; [reflexivity|].
  cbn [forallb] in H. apply andb_prop in H as [Hc Ha].
  cbn [app]. rewrite (split_ws_from_space _ _ _ Hc). cbn [app]. now apply IH.
Qed.

Lemma split_ws_strip (s : str) : split_ws (strip s) = split_ws s.
Proof.
  destruct (strip_parts s) as (a & b & E & Ha & Hb). rewrite E at 2.
  rewrite (split_ws_spaces_app _ _ Ha). unfold split_ws.
  now rewrite (split_ws_from_app_spaces _ _ _ Hb).
Qed.

Lemma split_ws_from_twice (word : str) (c d : char) (s : str) :
  isspace c = true -> isspace d = true ->
  split_ws_from word (c :: d :: s) = split_ws_from word (d :: s).
Proof.
  intros Hc Hd. rewrite (split_ws_from_space _ c _ Hc), (split_ws_from_space _ d _ Hd).
  now rewrite (split_ws_from_space _ d _ Hd).
Qed.

Lemma is_blank_space (c : char) : is_blank c = true -> isspace c = true.
Proof.
  unfold is_blank. intros H. apply orb_prop in H as [H|H]; apply N.eqb_eq in H; now subst c.
Qed.

Lemma split_ws_squeeze_blanks (s : str) : forall word,
  split_ws_from word (squeeze_blanks s) = split_ws_from word s.
Proof.
  induction s as [|c s IH]; intros word; [reflexivity|]. cbn [squeeze_blanks].
  destruct (is_blank c) eqn:Ec.
  - pose proof (is_blank_space _ Ec) as Hc.
    destruct s as [|d s]; [cbn [head_is squeeze_blanks]|cbn [head_is]].
    + now rewrite !(split_ws_from_space _ _ _) by (exact Hc || reflexivity).
    + destruct (is_blank d) eqn:Ed.
      * rewrite IH. symmetry. apply split_ws_from_twice; [exact Hc|now apply is_blank_space].
      * rewrite (split_ws_from_space _ SP _ eq_refl), (split_ws_from_space _ c _ Hc).
        now rewrite IH.
  - cbn [split_ws_from]. destruct (isspace c); [now rewrite IH|apply IH].
Qed.

Lemma split_ws_squeeze_newlines (s : str) : forall word,
  split_ws_from word (squeeze_newlines s) = split_ws_from word s.
Proof.
  induction s as [|c s IH]; intros word; [reflexivity|]. cbn [squeeze_newlines].
  destruct (is_nl c && startswith s [NL; NL]) eqn:E.
  - apply andb_prop in E as [Ec Es]. unfold is_nl in Ec. apply N.eqb_eq in Ec. subst c.
    destruct s as [|d s]; [discriminate Es|]. cbn [startswith] in Es.
    apply andb_prop in Es as [Ed _]. apply N.eqb_eq in Ed. subst d.
    rewrite IH. symmetry. now apply split_ws_from_twice.
  - cbn [split_ws_from]. destruct (isspace c); [now rewrite IH|apply IH].
Qed.

Lemma split_ws_join (parts : list str) :
  split_ws (join [NL] parts) = flat_map split_ws parts.
Proof.
  unfold split_ws. induction parts as [|p ps IH]; [reflexivity|].
  destruct ps as [|q ps].
  - cbn [join flat_map]. now rewrite app_nil_r.
  - rewrite (join_cons [NL] p (q :: ps)) by discriminate. cbn [app flat_map] in *.
    rewrite (split_ws_from_sep p NL _ [] eq_refl). now rewrite IH.
Qed.

Lemma flat_map_join (g : char -> str) (parts : list str) :
  g NL = [NL] -> flat_map g (join [NL] parts) = join [NL] (map (flat_map g) parts).
Proof.
  intros H. induction parts as [|p ps IH]; [reflexivity|].
  destruct ps as [|q ps]; [reflexivity|].
  change (flat_map g (p ++ [NL] ++ join [NL] (q :: ps))
          = flat_map g p ++ [NL] ++ join [NL] (map (flat_map g) (q :: ps))).
  rewrite flat_map_app. cbn [app flat_map]. rewrite H. cbn [app]. now rewrite IH.
Qed.

Lemma flat_map_filter_nil {A B : Type} (g : A -> list B) (keep : A -> bool) (l : list A) :
  (forall x, In x l -> keep x = false -> g x = []) ->
  flat_map g (filter keep l) = flat_map g l.
Proof.
  induction l as [|x l IH]; intros H; [reflexivity|]. cbn [filter flat_map].
  destruct (keep x) eqn:E.
  - cbn [flat_map]. f_equal. apply IH. intros y Hy. apply H. now right.
  - rewrite (H x (or_introl eq_refl) E). cbn [app]. apply IH. intros y Hy. apply H. now right.
Qed.

Lemma space_not_ligature (c : char) : isspace c = true -> is_ligature c = false.
Proof.
  unfold isspace, is_ligature, in_range. intros H. char_cases.
Qed.

Lemma blank_page_words (p : str) : strip p = [] -> split_ws (fix_ligatures p) = [].
Proof.
  intros H. apply strip_nil_iff in H.
  rewrite fix_ligatures_plain.
  - unfold split_ws. now rewrite (split_ws_from_spaces p [] H).
  - intros c Hc. apply space_not_ligature. rewrite forallb_forall in H. now apply H.
Qed.

Section RawWords.
Variable U : unicode_tables.

Lemma raw_words (pages : list str) :
  split_ws (strip (squeeze_newlines (squeeze_blanks
              (fix_ligatures (join (py "\n") (raw_text_parts pages))))))
  = flat_map (fun p => split_ws (fix_ligatures p)) pages.
Proof.
  rewrite split_ws_strip. unfold split_ws at 1.
  rewrite split_ws_squeeze_newlines, split_ws_squeeze_blanks.
  change (split_ws_from [] ?x) with (split_ws x).
  rewrite fix_ligatures_flat_map. change (py "\n") with [NL].
  rewrite (flat_map_join expand_ligature _ eq_refl), split_ws_join.
  rewrite flat_map_concat_map, map_map, <- flat_map_concat_map.
  rewrite <- (flat_map_filter_nil (fun p => split_ws (fix_ligatures p))
                (fun text => match strip text with [] => false | _ => true end) pages).
  - apply flat_map_ext. intros p. now rewrite fix_ligatures_flat_map.
  - intros p _ Hp. apply blank_page_words. now destruct (strip p).
Qed.

Lemma rejoin_from_count : forall (k : nat) (rest : list str) (line : str),
  (List.length rest <= k)%nat ->
  (List.length (rejoin_from U line rest) <= S (List.length rest))%nat.
Proof.
  induction k as [|k IH]; intros rest line Hk.
  - destruct rest; [cbn; lia|cbn in Hk; lia].
  - destruct rest as [|next rest1]; [cbn; lia|]. cbn [List.length] in Hk.
    cbn [rejoin_from]. destruct (strip next).
    + destruct rest1 as [|after rest2].
      * specialize (IH [] [] ltac:(cbn; lia)). cbn [List.length] in *. lia.
      * cbn [List.length] in Hk.
        pose proof (IH (after :: rest2) [] ltac:(cbn [List.length]; lia)) as H0.
        destruct (bridges U line (strip after)); [|cbn [List.length] in *; lia].
        destruct (join_or_stop U line (strip after)) as [l|].
        -- specialize (IH rest2 l ltac:(lia)). cbn [List.length]. lia.
        -- specialize (IH rest2 (strip after) ltac:(lia)). cbn [List.length]. lia.
    + destruct (join_or_stop U line (c :: s)) as [l|].
      * specialize (IH rest1 l ltac:(lia)). cbn [List.length]. lia.
      * specialize (IH rest1 (c :: s) ltac:(lia)). cbn [List.length]. lia.
Qed.

End RawWords.

(** ** The further properties of pdf.py *)



(** X1. The slug of a title whose letters and digits are ASCII is made
    of lower-case ASCII letters, digits, underscores and hyphens only; it
    neither starts nor ends with an underscore and has no two underscores
    in a row, whatever [max_length] is. *)
Theorem slugify_safe_characters (U : unicode_tables) (title : str) (max_length : Z) :
  ascii_words U title = true ->
  (forall c, In c (slugify U title max_length) -> slug_char c = true)
  /\ startswith (slugify U title max_length) (py "_") = false
  /\ endswith (slugify U title max_length) (py "_") = false
  /\ (forall a b, slugify U title max_length <> a ++ py "__" ++ b).
Proof.
  intros Ht. pose proof (slugify_shape U title max_length Ht) as H.
  unfold slug_shape in H.
  apply andb_prop in H as [H Hadj]. apply andb_prop in H as [H Hl].
  apply andb_prop in H as [Hc Hh]. apply negb_true_iff in Hh, Hl.
  split; [|split; [|split]].
  - now apply forallb_forall.
  - change (py "_") with [95%N]. now rewrite startswith_us.
  - change (py "_") with [95%N]. now rewrite endswith_us.
  - exact (adjacent_us_spec _ Hadj).
Qed.

Lemma slugify_safe_characters_witness :
  endswith (slugify ascii_tables (py "Dune Migration: a Review (2nd ed.)") 18) (py "_") = false.
Proof.
  apply (slugify_safe_characters ascii_tables (py "Dune Migration: a Review (2nd ed.)") 18).
  vm_compute. reflexivity.
Defined.

(** X2. With [max_length] not negative, the slug of a title whose
    letters and digits are ASCII has at most [max_length] characters. *)
Theorem slugify_max_length (U : unicode_tables) (title : str) (max_length : Z) :
  ascii_words U title = true -> (0 <= max_length)%Z ->
  (Z.of_nat (List.length (slugify U title max_length)) <= max_length)%Z.
Proof. apply slugify_length. Qed.

Lemma slugify_max_length_witness :
  (Z.of_nat (List.length (slugify ascii_tables (py "Dune Migration: a Review (2nd ed.)") 18))
   <= 18)%Z.
Proof.
  apply (slugify_max_length ascii_tables (py "Dune Migration: a Review (2nd ed.)") 18).
  - vm_compute. reflexivity.
  - lia.
Defined.

(** X3. [slugify] is idempotent on titles whose letters and digits are
    ASCII, for a [max_length] that is not negative: the slug of a slug is
    that slug. *)
Theorem slugify_idempotent (U : unicode_tables) (title : str) (max_length : Z) :
  ascii_words U title = true -> (0 <= max_length)%Z ->
  slugify U (slugify U title max_length) max_length = slugify U title max_length.
Proof.
  intros Ht Hn. apply slugify_fixed.
  - now apply slugify_shape.
  - now apply slugify_length.
Qed.

Lemma slugify_idempotent_witness :
  slugify ascii_tables (slugify ascii_tables (py "Dune Migration: a Review (2nd ed.)") 18) 18
  = slugify ascii_tables (py "Dune Migration: a Review (2nd ed.)") 18.
Proof.
  apply (slugify_idempotent ascii_tables (py "Dune Migration: a Review (2nd ed.)") 18).
  - vm_compute. reflexivity.
  - lia.
Defined.



(** X5. The five replacements of the ligatures, made one after the
    other on the whole text, come to expanding each character on its
    own; so the result for a text in two parts is that of the parts, and
    a text without ligatures is left as it is. *)
Theorem fix_ligatures_characterwise (text : str) :
  fix_ligatures text = flat_map expand_ligature text
  /\ (forall more, fix_ligatures (text ++ more) = fix_ligatures text ++ fix_ligatures more)
  /\ ((forall c, In c text -> is_ligature c = false) -> fix_ligatures text = text).
Proof.
  split; [apply fix_ligatures_flat_map|split].
  - intros more. rewrite !fix_ligatures_flat_map. apply flat_map_app.
  - apply fix_ligatures_plain.
Qed.

Lemma fix_ligatures_characterwise_witness :
  fix_ligatures (py "dunes") = py "dunes".
Proof.
  apply (proj2 (proj2 (fix_ligatures_characterwise (py "dunes")))).
  intros c Hc. vm_compute in Hc.
  repeat (destruct Hc as [<-|Hc]; [reflexivity|]). destruct Hc.
Defined.

Section RawSources.
Variable U : unicode_tables.

Lemma extract_text_raw_in (pages : list str) (c : char) :
  In c (strip (squeeze_newlines (squeeze_blanks
          (fix_ligatures (join (py "\n") (raw_text_parts pages)))))) ->
  In c (fix_ligatures (join (py "\n") (raw_text_parts pages))) \/ In c (py " \n").
Proof.
  intros H. apply strip_in in H.
  rewrite <- (normalize_newlines_squeeze U), <- (collapse_spaces_squeeze U) in H.
  apply (re_sub_adds U NOFLAG newlines3 (py "\n\n")) in H as [H|H];
    [|right; vm_compute in H |- *; tauto].
  apply (re_sub_adds U NOFLAG blanks (py " ")) in H as [H|H];
    [now left|right; vm_compute in H |- *; tauto].
Qed.

End RawSources.

(** X6. No ligature is left: the text returned by [clean_text], and the
    text returned by [extract_text_raw], holds none of the five ligature
    characters. *)
Theorem no_ligature_left (U : unicode_tables) :
  (forall text c, In c (clean_text U text) -> is_ligature c = false)
  /\ (forall pages t c, extract_text_raw U (Opened pages) = Returns t -> In c t ->
        is_ligature c = false).
Proof.
  split.
  - intros text c H. apply clean_text_in in H as [H|H].
    + now apply fix_ligatures_in in H.
    + vm_compute in H. destruct H as [<-|[<-|[]]]; reflexivity.
  - intros pages t c E H. rewrite extract_text_raw_squeezes in E. injection E as <-.
    apply (extract_text_raw_in U) in H as [H|H].
    + now apply fix_ligatures_in in H.
    + vm_compute in H. destruct H as [<-|[<-|[]]]; reflexivity.
Qed.

Lemma no_ligature_left_witness : is_ligature 102%N = false.
Proof.
  apply (proj1 (no_ligature_left ascii_tables) (py "pro" ++ [64257%N] ++ py "le") 102%N).
  vm_compute. tauto.
Defined.

(** X7. [clean_text] invents no text: every character of its result is
    a character of the input, a space, a newline, or one of the letters
    f, i and l when the input holds a ligature. *)
Theorem clean_text_provenance (U : unicode_tables) (text : str) (c : char) :
  In c (clean_text U text) ->
  In c text \/ c = SP \/ c = NL
  \/ (In c (py "fil") /\ exists l, In l text /\ is_ligature l = true).
Proof.
  intros H. apply clean_text_in in H as [H|H].
  - apply fix_ligatures_in in H as [_ [H|H]]; [now left|]. right. right. now right.
  - vm_compute in H. destruct H as [<-|[<-|[]]]; [right; now left|right; right; now left].
Qed.

Lemma clean_text_provenance_witness :
  In 105%N (py "pro" ++ [64257%N] ++ py "le") \/ 105%N = SP \/ 105%N = NL
  \/ (In 105%N (py "fil")
      /\ exists l, In l (py "pro" ++ [64257%N] ++ py "le") /\ is_ligature l = true).
Proof.
  apply (clean_text_provenance ascii_tables (py "pro" ++ [64257%N] ++ py "le") 105%N).
  vm_compute. tauto.
Defined.

(** X8. The collapse of the spaces and the normalisation of the
    newlines are idempotent: applied to their own result they change
    nothing. *)
Theorem whitespace_stages_idempotent (U : unicode_tables) (text : str) :
  collapse_spaces U (collapse_spaces U text) = collapse_spaces U text
  /\ normalize_newlines U (normalize_newlines U text) = normalize_newlines U text.
Proof.
  split.
  - rewrite !collapse_spaces_squeeze. apply squeeze_blanks_id, squeeze_blanks_squeezed.
  - rewrite !normalize_newlines_squeeze. apply squeeze_newlines_id, squeeze_newlines_no_nl3.
Qed.

(** X9. The text returned by [clean_text] is in normal form for the
    whitespace stages: the collapse of the spaces, the normalisation of
    the newlines and the trimming of the lines all leave it as it is. *)
Theorem clean_text_whitespace_stable (U : unicode_tables) (text : str) :
  collapse_spaces U (clean_text U text) = clean_text U text
  /\ normalize_newlines U (clean_text U text) = clean_text U text
  /\ strip_lines (clean_text U text) = clean_text U text.
Proof.
  destruct (clean_text_facts U text) as (Hs & Ht & _).
  split; [|split].
  - rewrite collapse_spaces_squeeze. exact (squeeze_blanks_id _ Hs).
  - rewrite normalize_newlines_squeeze. exact (squeeze_newlines_id _ (clean_text_no_nl3 U text)).
  - exact (strip_lines_id _ Ht).
Qed.


(** X11. [extract_text_raw] returns the empty string exactly when every
    page of the document is whitespace only: a page with a visible
    character always leaves text. *)
Theorem extract_text_raw_empty (U : unicode_tables) (pages : list str) :
  extract_text_raw U (Opened pages) = Returns []
  <-> (forall p, In p pages -> strip p = []).
Proof.
  rewrite extract_text_raw_squeezes. split.
  - intros E. injection E as E. apply raw_text_parts_nil.
    destruct (raw_text_parts pages) as [|p ps] eqn:Ep; [reflexivity|exfalso].
    assert (Hp : In p (raw_text_parts pages)) by (rewrite Ep; now left).
    unfold raw_text_parts in Hp. apply filter_In in Hp as [_ Hp].
    destruct (strip p) as [|c r] eqn:Es; [discriminate|].
    assert (Hc : In c p /\ isspace c = false).
    { split; [apply strip_in; rewrite Es; now left|].
      pose proof (strip_tight p) as Ht. rewrite Es in Ht. unfold tight in Ht.
      cbn [head_is] in Ht. now destruct (isspace c). }
    destruct Hc as [Hc Hv].
    destruct (expand_ligature_visible c Hv) as (d & Hd & Hdv).
    assert (Hin : In d (fix_ligatures (join (py "\n") (p :: ps)))).
    { rewrite fix_ligatures_flat_map. apply in_flat_map. exists c.
      split; [|exact Hd]. apply (in_join _ _ p); [now left|exact Hc]. }
    apply (squeeze_blanks_keeps _ _) in Hin; [|now apply blank_is_space].
    apply (squeeze_newlines_keeps _ _) in Hin; [|now apply nl_is_space].
    apply (strip_keeps _ _) in Hin; [|exact Hdv].
    rewrite E in Hin. destruct Hin.
  - intros H. apply raw_text_parts_nil in H. rewrite H. reflexivity.
Qed.

(** X12. [extract_text] reads the pages that [extract_text_raw] reads
    except the pages to skip; for a document without such a page it
    returns [clean_text] of the text that [extract_text_raw] starts
    from. *)
Theorem extract_text_pages (U : unicode_tables) (pages : list str) :
  text_parts U pages = filter (fun p => negb (_is_skip_page U p)) (raw_text_parts pages)
  /\ ((forall p, In p pages -> _is_skip_page U p = false) ->
      extract_text U (Opened pages)
      = Returns (clean_text U (join (py "\n") (raw_text_parts pages)))).
Proof.
  split; [apply text_parts_raw|]. intros H. unfold extract_text.
  rewrite text_parts_raw. do 3 f_equal. apply forallb_filter_id.
  apply forallb_forall. intros p Hp. unfold raw_text_parts in Hp.
  apply filter_In in Hp as [Hp _]. now rewrite (H p Hp).
Qed.

Lemma extract_text_pages_witness :
  extract_text ascii_tables (Opened [py "Dunes migrate."; py "  "; py "They grow."])
  = Returns (clean_text ascii_tables
      (join (py "\n") (raw_text_parts [py "Dunes migrate."; py "  "; py "They grow."]))).
Proof.
  apply (proj2 (extract_text_pages ascii_tables
                  [py "Dunes migrate."; py "  "; py "They grow."])).
  intros p [<-|[<-|[<-|[]]]]; vm_compute; reflexivity.
Defined.

(** X13. [get_text_stats] counts no word exactly for a text that is
    whitespace only. *)
Theorem get_text_stats_no_words (text : str) :
  words (get_text_stats text) = O <-> strip text = [].
Proof.
  unfold get_text_stats, split_ws. cbn [words]. rewrite strip_nil_iff.
  rewrite length_zero_iff_nil, split_ws_from_nil. tauto.
Qed.

(** X14. The counts of [get_text_stats] are bounded by the length of
    the text: two words need a character between them, every paragraph
    after the first needs two newlines, and there is always one
    paragraph. *)
Theorem get_text_stats_bounds (text : str) :
  (2 * words (get_text_stats text) <= characters (get_text_stats text) + 1)%nat
  /\ (1 <= paragraphs (get_text_stats text))%nat
  /\ (2 * (paragraphs (get_text_stats text) - 1) <= characters (get_text_stats text))%nat.
Proof.
  unfold get_text_stats, split_ws, count. cbn [words characters paragraphs].
  pose proof (split_ws_from_length text []) as H1.
  pose proof (count_from_length text O) as H2.
  change (py "\n\n") with [NL; NL]. cbn beta iota in H1. lia.
Qed.

(** X15. On a text returned by [clean_text] that is not empty, the
    paragraphs counted by [get_text_stats] are the blank lines plus
    one. *)
Theorem clean_text_paragraphs (U : unicode_tables) (text : str) :
  clean_text U text <> [] ->
  paragraphs (get_text_stats (clean_text U text)) = S (blank_lines (clean_text U text)).
Proof.
  intros Hne. destruct (clean_text_facts U text) as (_ & _ & Hg & _).
  destruct (tight_no_nl _ Hg) as [Hs He].
  unfold get_text_stats. cbn [paragraphs]. change (py "\n\n") with [NL; NL].
  rewrite (count_blank_lines _ _ (le_n _) (clean_text_no_nl3 U text) He).
  rewrite (blank_lines_tail _ Hne Hs). lia.
Qed.

Lemma clean_text_paragraphs_witness :
  paragraphs (get_text_stats (clean_text ascii_tables (py "Dunes migrate.\n\n\nThey grow.\n")))
  = S (blank_lines (clean_text ascii_tables (py "Dunes migrate.\n\n\nThey grow.\n"))).
Proof.
  apply (clean_text_paragraphs ascii_tables (py "Dunes migrate.\n\n\nThey grow.\n")).
  vm_compute. discriminate.
Defined.

(** X16. A line that ends a sentence is never extended: whatever the
    next line is, blank or not, hyphen or not, the rejoiner emits the
    line as it is and goes on with the next line. *)
Theorem sentence_end_not_extended (U : unicode_tables) (line next : str)
    (rest : list str) :
  _ends_sentence U line = true ->
  rejoin_from U line (next :: rest) = line :: rejoin_from U (strip next) rest.
Proof.
  intros H. destruct (strip next) as [|c t] eqn:Es.
  - destruct rest as [|after rest].
    + now apply rejoin_from_blank_last.
    + apply rejoin_from_blank_stop; [exact Es|now apply ends_sentence_no_bridge].
  - rewrite rejoin_from_next by (rewrite Es; discriminate).
    now rewrite Es, (ends_sentence_stop U _ _ H).
Qed.

Lemma sentence_end_not_extended_witness :
  rejoin_from ascii_tables (py "Dunes migrate.") [py " slowly they grow"; py "and move."]
  = py "Dunes migrate."
    :: rejoin_from ascii_tables (strip (py " slowly they grow")) [py "and move."].
Proof.
  apply (sentence_end_not_extended ascii_tables (py "Dunes migrate.")).
  vm_compute. reflexivity.
Defined.

(** X17. A text whose lines are all trimmed and all end a sentence (a
    blank line does) goes through the rejoiner unchanged. *)
Theorem rejoin_complete_sentences (U : unicode_tables) (text : str) :
  (forall l, In l (split_on NL text) -> strip l = l /\ _ends_sentence U l = true) ->
  _rejoin_broken_lines U text = text.
Proof.
  intros H. unfold _rejoin_broken_lines.
  destruct (split_on NL text) as [|l rest] eqn:E; [now destruct (split_on_not_nil NL text)|].
  cbn [rejoin_lines]. destruct (H l (or_introl eq_refl)) as [Hs He].
  rewrite Hs, (rejoin_from_settled U rest l He).
  - rewrite <- E. apply join_split.
  - apply Forall_forall. intros x Hx. apply H. now right.
Qed.

Lemma rejoin_complete_sentences_witness :
  _rejoin_broken_lines ascii_tables (py "Dunes migrate.\n\nThey grow (Ma 2022).\nWhy?")
  = py "Dunes migrate.\n\nThey grow (Ma 2022).\nWhy?".
Proof.
  apply (rejoin_complete_sentences ascii_tables).
  intros l Hl. vm_compute in Hl.
  repeat (destruct Hl as [<-|Hl]; [split; vm_compute; reflexivity|]).
  destruct Hl.
Defined.

(** X18. The rejoiner only joins: it never returns a text longer than
    its input (a join puts a space where a newline was, or drops the
    newline and the hyphen), never more lines than it reads, and at
    least one line when it reads one. *)
Theorem rejoin_never_longer (U : unicode_tables) (text : str) (lines : list str) :
  (List.length (_rejoin_broken_lines U text) <= List.length text)%nat
  /\ (List.length (rejoin_lines U lines) <= List.length lines)%nat
  /\ (rejoin_lines U lines = [] <-> lines = []).
Proof.
  split; [apply rejoin_length|]. destruct lines as [|l rest].
  - split; [reflexivity|tauto].
  - cbn [rejoin_lines List.length]. split.
    + exact (rejoin_from_count U _ rest (strip l) (le_n _)).
    + split; [intros H; now destruct (rejoin_from_not_nil U rest (strip l))|discriminate].
Qed.

(** X19. [clean_text] never returns more characters than the text has
    once its ligatures are written out, so at most three times the
    length of the input, and at most the length of an input without
    ligatures. *)
Theorem clean_text_never_longer (U : unicode_tables) (text : str) :
  (List.length (clean_text U text) <= List.length (fix_ligatures text))%nat
  /\ (List.length (clean_text U text) <= 3 * List.length text)%nat
  /\ ((forall c, In c text -> is_ligature c = false) ->
      (List.length (clean_text U text) <= List.length text)%nat).
Proof.
  pose proof (clean_text_length U text) as H. pose proof (fix_ligatures_length text) as H'.
  split; [exact H|split; [lia|]].
  intros Hl. now rewrite (fix_ligatures_plain text Hl) in H.
Qed.

Lemma clean_text_never_longer_witness :
  (List.length (clean_text ascii_tables (py "Dunes  migrate\n slowly. "))
   <= List.length (py "Dunes  migrate\n slowly. "))%nat.
Proof.
  apply (proj2 (proj2 (clean_text_never_longer ascii_tables (py "Dunes  migrate\n slowly. ")))).
  intros c Hc. vm_compute in Hc.
  repeat (destruct Hc as [<-|Hc]; [reflexivity|]). destruct Hc.
Defined.

(** X20. The files saved by [extract_figures] are numbered from 1
    without a gap, in the order of the images: the file at position [i]
    (from 0) is named figure_(i+1) with the extension of its image,
    never "jpeg"; no two files have the same name. *)
Theorem extract_figures_names (doc : figure_document) (min_size : Z)
    (files : list written_file) :
  extract_figures doc min_size = Extracted files ->
  (forall i f, nth_error files i = Some f ->
     exists ext, file_name f = figure_name (S i) ext /\ ext <> py "jpeg")
  /\ NoDup (map file_name files).
Proof.
  destruct doc as [| |pages]; try discriminate. cbn [extract_figures].
  intros E. injection E as <-. split.
  - intros i f H. destruct (extract_from_nth _ _ _ _ _ H) as (img & _ & -> & _).
    exists (figure_ext img). split; [reflexivity|apply figure_ext_not_jpeg].
  - apply extract_from_NoDup.
Qed.

Lemma extract_figures_names_witness :
  NoDup (map file_name
    [ {| file_name := py "figure_1.png"; file_content := [1%N; 2%N; 3%N] |};
      {| file_name := py "figure_2.jpg"; file_content := [4%N; 5%N; 6%N; 7%N] |} ]).
Proof.
  apply (extract_figures_names
           (FiguresOpened
              [ [ Some {| image_bytes := [1%N; 2%N; 3%N]; image_ext := None |}; None ];
                [ Some {| image_bytes := [9%N]; image_ext := Some (py "png") |};
                  Some {| image_bytes := [4%N; 5%N; 6%N; 7%N];
                          image_ext := Some (py "jpeg") |} ] ])
           3).
  vm_compute. reflexivity.
Defined.


(** X22. An image that cannot be extracted, or that is smaller than
    [min_size], leaves no trace: the files saved, names and contents,
    are those of the document without that image. *)
Theorem extract_figures_skips (min_size : Z) (before after : list (list (option image)))
    (a b : list (option image)) (entry : option image) :
  saved_bytes min_size entry = false ->
  extract_figures (FiguresOpened (before ++ (a ++ entry :: b) :: after)) min_size
  = extract_figures (FiguresOpened (before ++ (a ++ b) :: after)) min_size.
Proof.
  intros H. cbn [extract_figures]. f_equal.
  rewrite !concat_app. cbn [List.concat].
  replace (List.concat before ++ (a ++ entry :: b) ++ List.concat after)
    with ((List.concat before ++ a) ++ entry :: (b ++ List.concat after))
    by (now rewrite <- !app_assoc).
  replace (List.concat before ++ (a ++ b) ++ List.concat after)
    with ((List.concat before ++ a) ++ (b ++ List.concat after))
    by (now rewrite <- !app_assoc).
  apply extract_from_skip. exact H.
Qed.

Lemma extract_figures_skips_witness :
  extract_figures
    (FiguresOpened
       ([] ++ ([ Some {| image_bytes := [1%N; 2%N; 3%N]; image_ext := None |} ]
               ++ Some {| image_bytes := [9%N]; image_ext := Some (py "png") |}
               :: [ Some {| image_bytes := [4%N; 5%N; 6%N]; image_ext := Some (py "gif") |} ])
           :: [])) 3
  = extract_figures
      (FiguresOpened
         ([] ++ ([ Some {| image_bytes := [1%N; 2%N; 3%N]; image_ext := None |} ]
                 ++ [ Some {| image_bytes := [4%N; 5%N; 6%N]; image_ext := Some (py "gif") |} ])
             :: [])) 3.
Proof.
  apply (extract_figures_skips 3 [] []
           [ Some {| image_bytes := [1%N; 2%N; 3%N]; image_ext := None |} ]
           [ Some {| image_bytes := [4%N; 5%N; 6%N]; image_ext := Some (py "gif") |} ]
           (Some {| image_bytes := [9%N]; image_ext := Some (py "png") |})).
  reflexivity.
Defined.

(** X23. [_ends_sentence] is true exactly for the empty line, a line
    that ends with terminal punctuation (then whitespace at most), a line
    that ends with a year, an optional lower-case letter and a closing
    parenthesis (then whitespace and one period at most), and a line that
    ends with a colon: none of the continuation endings makes such a line
    a continuation, and no other line ends a sentence. *)
Theorem ends_sentence_exact (U : unicode_tables) (line : str) :
  _ends_sentence U line = true
  <-> line = [] \/ ends_terminal line \/ ends_citation U line
      \/ endswith line (py ":") = true.
Proof.
  split; [apply ends_sentence_cases|].
  intros H. unfold _ends_sentence. destruct line as [|c t]; [reflexivity|].
  destruct H as [H|[H|[H|H]]]; [discriminate| | |].
  - apply (terminal_search U) in H. now rewrite H.
  - apply (citation_search U) in H. rewrite H.
    now destruct (re_search U NOFLAG terminal_punctuation (c :: t)).
  - rewrite H. destruct (re_search U NOFLAG terminal_punctuation (c :: t)); [reflexivity|].
    now destruct (re_search U NOFLAG citation_end (c :: t)).
Qed.



(** X25. [extract_text_raw] changes whitespace only: the words of the
    text it returns are the words of the pages, in order, with the
    ligatures written out. *)
Theorem extract_text_raw_words (U : unicode_tables) (pages : list str) :
  exists t, extract_text_raw U (Opened pages) = Returns t
    /\ split_ws t = flat_map (fun p => split_ws (fix_ligatures p)) pages.
Proof.
  rewrite extract_text_raw_squeezes. eexists. split; [reflexivity|]. apply raw_words.
Qed.

(** ** The words the rejoiner keeps *)

Lemma endswith_app (a b : str) (c : char) :
  b <> [] -> endswith (a ++ b) [c] = endswith b [c].
Proof.
  intros Hb. unfold endswith. rewrite rev_app_distr.
  destruct (rev b) as [|x r] eqn:E.
  - apply (f_equal (@rev char)) in E. rewrite rev_involutive in E. now destruct Hb.
  - cbn [rev app startswith]. now rewrite !startswith_nil.
Qed.

Lemma endswith_hyphen_in (s : str) : endswith s (py "-") = true -> In 45%N s.
Proof.
  change (py "-") with [45%N]. intros H. apply endswith_last in H as (stem & ->).
  apply in_or_app. right. now left.
Qed.

Section Words.
Variable U : unicode_tables.

Lemma join_or_stop_space (line next_line l : str) :
  endswith line (py "-") = false ->
  join_or_stop U line next_line = Some l -> l = line ++ py " " ++ next_line.
Proof.
  unfold join_or_stop, word_break. intros H. rewrite H. cbn [andb].
  destruct (_is_heading U line); [discriminate|].
  destruct (_is_heading U next_line); [discriminate|].
  destruct (negb (_ends_sentence U line)); [|discriminate].
  intros E. now injection E as <-.
Qed.

Lemma rejoin_from_words : forall (k : nat) (rest : list str) (line : str),
  (List.length rest <= k)%nat ->
  endswith line (py "-") = false ->
  Forall (fun l => endswith (strip l) (py "-") = false) rest ->
  flat_map split_ws (rejoin_from U line rest) = split_ws line ++ flat_map split_ws rest.
Proof.
  assert (J : forall line n l, endswith line (py "-") = false -> n <> [] ->
                endswith n (py "-") = false ->
                join_or_stop U line n = Some l ->
                endswith l (py "-") = false /\ split_ws l = split_ws line ++ split_ws n).
  { intros line n l Hl Hn He Hj. apply (join_or_stop_space _ _ _ Hl) in Hj. subst l. split.
    - change (py "-") with [45%N] in *. rewrite app_assoc.
      now rewrite (endswith_app _ n 45%N Hn).
    - unfold split_ws. change (py " " ++ n) with (SP :: n).
      apply split_ws_from_sep. reflexivity. }
  induction k as [|k IH]; intros rest line Hk Hl Hr.
  - destruct rest; [|cbn in Hk; lia]. cbn. now rewrite app_nil_r.
  - destruct rest as [|next rest1]; [cbn; now rewrite app_nil_r|].
    cbn [List.length] in Hk. apply Forall_cons_iff in Hr as [Hn Hr1].
    cbn [rejoin_from flat_map]. rewrite <- (split_ws_strip next).
    destruct (strip next) as [|c t] eqn:Es.
    + change (split_ws []) with (@nil str). cbn [app].
      assert (Hstop : flat_map split_ws (line :: rejoin_from U [] rest1)
                      = split_ws line ++ flat_map split_ws rest1).
      { cbn [flat_map]. rewrite (IH rest1 [] ltac:(lia) eq_refl Hr1). reflexivity. }
      destruct rest1 as [|after rest2]; [exact Hstop|].
      cbn [List.length] in Hk. pose proof Hr1 as Hr1'.
      apply Forall_cons_iff in Hr1' as [Ha Hr2].
      destruct (bridges U line (strip after)) eqn:Eb; [|exact Hstop].
      assert (Hne : strip after <> []).
      { intros E. rewrite E in Eb. unfold bridges in Eb. discriminate Eb. }
      cbn [flat_map]. rewrite <- (split_ws_strip after).
      destruct (join_or_stop U line (strip after)) as [l|] eqn:Ej.
      * destruct (J _ _ _ Hl Hne Ha Ej) as [Hl' Hw].
        rewrite (IH rest2 l ltac:(lia) Hl' Hr2), Hw. now rewrite <- app_assoc.
      * cbn [flat_map]. now rewrite (IH rest2 (strip after) ltac:(lia) Ha Hr2).
    + assert (Hne : c :: t <> []) by discriminate.
      destruct (join_or_stop U line (c :: t)) as [l|] eqn:Ej.
      * destruct (J _ _ _ Hl Hne Hn Ej) as [Hl' Hw].
        rewrite (IH rest1 l ltac:(lia) Hl' Hr1), Hw. now rewrite <- app_assoc.
      * cbn [flat_map]. now rewrite (IH rest1 (c :: t) ltac:(lia) Hn Hr1).
Qed.

Lemma rejoin_words (text : str) :
  (forall l, In l (split_on NL text) -> endswith (strip l) (py "-") = false) ->
  split_ws (_rejoin_broken_lines U text) = split_ws text.
Proof.
  intros H. unfold _rejoin_broken_lines. change (py "\n") with [NL].
  rewrite split_ws_join. rewrite <- (join_split text) at 2. rewrite split_ws_join.
  destruct (split_on NL text) as [|l rest]; [reflexivity|].
  cbn [rejoin_lines flat_map]. rewrite <- (split_ws_strip l).
  apply (rejoin_from_words (List.length rest)); [lia|apply H; now left|].
  apply Forall_forall. intros x Hx. apply H. now right.
Qed.

Lemma no_hyphen_lines (t : str) :
  ~ In 45%N t ->
  forall l, In l (split_on NL t) -> endswith (strip l) (py "-") = false.
Proof.
  intros H l Hl. destruct (endswith (strip l) (py "-")) eqn:E; [|reflexivity].
  destruct H. apply endswith_hyphen_in, strip_in in E.
  exact (split_on_in t l 45%N Hl E).
Qed.

Lemma clean_text_words (text : str) :
  ~ In 45%N text -> no_pattern_matches U (fix_ligatures text) = true ->
  split_ws (clean_text U text) = split_ws (fix_ligatures text).
Proof.
  intros Hh Hp. rewrite clean_text_normalized.
  pose proof (strip_boilerplate_no_match U _ Hp) as E. unfold strip_boilerplate in E.
  rewrite E, split_ws_strip. unfold normalized.
  rewrite !normalize_newlines_squeeze, collapse_spaces_squeeze.
  unfold split_ws at 1. rewrite split_ws_squeeze_newlines.
  change (split_ws_from [] ?x) with (split_ws x).
  rewrite rejoin_words.
  - unfold split_ws. now rewrite split_ws_squeeze_newlines, split_ws_squeeze_blanks.
  - apply no_hyphen_lines. intros H.
    rewrite <- (normalize_newlines_squeeze U), <- (collapse_spaces_squeeze U) in H.
    apply (re_sub_adds U NOFLAG newlines3 (py "\n\n")) in H as [H|H];
      [|vm_compute in H; intuition discriminate].
    apply (re_sub_adds U NOFLAG blanks (py " ")) in H as [H|H];
      [|vm_compute in H; intuition discriminate].
    apply fix_ligatures_in in H as [_ [H|[H _]]]; [contradiction|].
    vm_compute in H. intuition discriminate.
Qed.

End Words.

(** X26. Without a line that ends in a hyphen, the rejoiner changes
    whitespace only: the words of the text it returns are the words of
    the text it reads, in the same order. *)
Theorem rejoin_keeps_words (U : unicode_tables) (text : str) :
  (forall l, In l (split_on NL text) -> endswith (strip l) (py "-") = false) ->
  split_ws (_rejoin_broken_lines U text) = split_ws text.
Proof. apply rejoin_words. Qed.

Lemma rejoin_keeps_words_witness :
  split_ws (_rejoin_broken_lines ascii_tables (py "the dunes\n migrate\n\nslowly and\nfar."))
  = split_ws (py "the dunes\n migrate\n\nslowly and\nfar.").
Proof.
  apply (rejoin_keeps_words ascii_tables).
  intros l Hl. vm_compute in Hl.
  repeat (destruct Hl as [<-|Hl]; [vm_compute; reflexivity|]). destruct Hl.
Defined.

(** X27. On a text without a hyphen in which no boilerplate pattern
    finds a match, [clean_text] changes whitespace and ligatures only:
    the words of its result are the words of the input with the
    ligatures written out. *)
Theorem clean_text_keeps_words (U : unicode_tables) (text : str) :
  ~ In 45%N text -> no_pattern_matches U (fix_ligatures text) = true ->
  split_ws (clean_text U text) = split_ws (fix_ligatures text).
Proof. apply clean_text_words. Qed.

Lemma clean_text_keeps_words_witness :
  split_ws (clean_text ascii_tables (py "The dunes  migrate\n slowly\tand\n\n\nfar. "))
  = split_ws (fix_ligatures (py "The dunes  migrate\n slowly\tand\n\n\nfar. ")).
Proof.
  apply (clean_text_keeps_words ascii_tables).
  - vm_compute. intuition discriminate.
  - vm_compute. reflexivity.
Defined.
